(** * Secret_App steganography core: a shallow embedding and its properties

    The development follows [lib/steganography/steganography.c] and
    [steganography.h]:

    - [xor_encrypt], the repeating-key XOR payload cipher;
    - [get_max_capacity], the capacity model (binary64 arithmetic);
    - [encode_lsb_dct] and [decode_lsb_dct], the embedding and extraction
      entry points, both of which end in the "dummy result" branch that
      the source marks with a TODO;
    - [dct_transform] and [idct_transform], the 8x8 block transforms;
    - [free_steganography_result], the release of a result;
    - [sha3_512_init], [sha3_512_update] and [sha3_512_final] of
      [native_libs/native_crypto.cpp], the XOR-based demonstration digest.

    Conventions.  A byte is a [Z]; the conversion to [uint8_t] is written
    out as [uint8].  A [size_t] is a [Z] in [0, 2^64) (LP64 / LLP64
    targets), its addition wraps.  A C buffer argument is an
    [option (list Z)]: [None] is the null pointer.  A [const char*] string
    is a [string]; its C length stops at the first NUL character.  A
    [double] is a primitive binary64 [float], and a floating-point
    expression is evaluated in binary64, rounding to nearest (SSE2 and
    AArch64 code; [FLT_EVAL_METHOD] 0).  [malloc] is an oracle that says
    whether a request of a given size is granted.  A function whose C
    body can run into undefined behaviour returns an [option]: [None] is
    the undefined run.

    [dct_transform] and [idct_transform] compute with the C library's
    [cos], whose results the floating-point standard does not fix: the
    transforms take the cosine as a parameter, and Part V states what it
    needs of it.  There a binary64 value is read as the real number it
    denotes ([FR]). *)

From Stdlib Require Import ZArith Lia String Ascii Floats Uint63.
From Stdlib Require Reals Lra.
From stdpp Require Import base tactics option list.

Local Open Scope Z_scope.

(* ===================================================================== *)
(** * Part I: the program                                                 *)
(* ===================================================================== *)

(** ** Machine integers and characters *)

(** The conversion of an [int] to [uint8_t]: reduction modulo 256. *)
Definition uint8 (z : Z) : Z := z mod 256.

Definition is_uint8 (z : Z) : Prop := 0 <= z < 256.

Definition SIZE_MAX : Z := 2 ^ 64 - 1.

(** The largest size of one object, [PTRDIFF_MAX]. *)
Definition PTRDIFF_MAX : Z := 2 ^ 63 - 1.

(** Addition on [size_t] wraps. *)
Definition size_add (a b : Z) : Z := (a + b) mod 2 ^ 64.

(** The value of a [char] read as an unsigned byte.  On a target with a
    signed [char] the promoted value of a byte above 127 is this value
    minus 256; [uint8_lxor_sign_extension] below shows that the cipher
    cannot tell the difference. *)
Definition char_code (c : ascii) : Z := Z.of_N (N_of_ascii c).

(** [strlen]: the number of characters before the first NUL. *)
Fixpoint strlen (s : string) : nat :=
  match s with
  | EmptyString => 0%nat
  | String c s' => if (N_of_ascii c =? 0)%N then 0%nat else S (strlen s')
  end.

(** [s[i]]; the terminating NUL is read past the last character. *)
Definition char_at (s : string) (i : nat) : Z :=
  match String.get i s with
  | Some c => char_code c
  | None => 0
  end.

(** The bytes [strcpy] writes: the characters before the first NUL, then
    the NUL. *)
Fixpoint strcpy (src : string) : list Z :=
  match src with
  | EmptyString => [0]
  | String c s' => if (N_of_ascii c =? 0)%N then [0] else char_code c :: strcpy s'
  end.

(** [memcpy] of [n] bytes out of [src]; reading past the end of the source
    object is undefined. *)
Definition memcpy (src : list Z) (n : Z) : option (list Z) :=
  if (0 <=? n) && (n <=? Z.of_nat (length src))
  then Some (take (Z.to_nat n) src)
  else None.

(** ** The payload cipher *)

(** One iteration of the loop body, [data[i] ^= password[i % pass_len]].
    The compound assignment computes in [int] and converts back to
    [uint8_t].  An index past the end of the buffer writes nothing here;
    both call sites pass a length within the buffer. *)
Definition xor_step (password : string) (pass_len : nat)
    (data : list Z) (i : nat) : list Z :=
  alter (fun b => uint8 (Z.lxor b (char_at password (i mod pass_len)))) i data.

Definition xor_encrypt (data : list Z) (len : nat) (password : string) : list Z :=
  let pass_len := strlen password in
  if (pass_len =? 0)%nat then data
  else foldl (xor_step password pass_len) data (seq 0 len).

(** The byte the loop writes at index [i] when the key is not empty. *)
Definition cipher_byte (password : string) (i : nat) (b : Z) : Z :=
  uint8 (Z.lxor b (char_at password (i mod strlen password))).

(** The key stream: the byte that position [i] is combined with.  An
    empty key leaves every byte as it is, as a stream of zeros would. *)
Definition key_stream (password : string) (i : nat) : Z :=
  if (strlen password =? 0)%nat then 0
  else uint8 (char_at password (i mod strlen password)).

(** ** The capacity model *)

Definition BLOCK_SIZE : Z := 8.

(** [#define MAX_CAPACITY_FACTOR 0.3]: the binary64 number nearest to
    three tenths. *)
Definition MAX_CAPACITY_FACTOR : float := 0x1.3333333333333p-2%float.

(** The conversion of a [size_t] below [2^63] to [double] (round to
    nearest, ties to even). *)
Definition double_of_size (n : Z) : float := PrimFloat.of_uint63 (Uint63.of_Z n).

(** The integer part of a finite [spec_float], towards zero. *)
Definition SFtrunc (f : spec_float) : Z :=
  match f with
  | S754_finite s m e =>
      let v := if 0 <=? e then Z.pos m * 2 ^ e else Z.pos m / 2 ^ (- e) in
      if s then - v else v
  | _ => 0
  end.

(** The conversion [(size_t) d] of a double: truncation.  (Not-a-number
    and the infinities have no defined conversion; [capacity_double_finite]
    shows that [get_max_capacity] never produces them.) *)
Definition size_of_double (d : float) : Z := SFtrunc (Prim2SF d).

Definition get_max_capacity (image_data : option (list Z)) (image_size : Z) : Z :=
  if image_size <? 100 then 0
  else
    let pixel_count := image_size / 3 in
    size_of_double (PrimFloat.mul (double_of_size pixel_count) MAX_CAPACITY_FACTOR).

(** ** Results *)

Record SteganographyResult : Type := mkResult {
  success : bool;
  error_message : option string;
  data : option (list Z);
  data_length : Z;
  width : Z;
  height : Z
}.

(** [SteganographyResult result = {0}] with the two failure fields set. *)
Definition failure (msg : string) : SteganographyResult :=
  {| success := false; error_message := Some msg; data := None;
     data_length := 0; width := 0; height := 0 |}.

(** The error kinds of the specification, and the kind each message of
    the program stands for. *)
Inductive ErrorKind : Type :=
  | InvalidInput
  | PayloadTooLarge
  | InvalidBlockSize
  | HeaderCorrupt
  | AllocationFailure.

Definition kind_of_message (msg : string) : option ErrorKind :=
  if String.eqb msg "Invalid input data" then Some InvalidInput
  else if String.eqb msg "Invalid image data" then Some InvalidInput
  else if String.eqb msg "Memory allocation failed" then Some AllocationFailure
  else if String.eqb msg "Message too large for image capacity" then Some PayloadTooLarge
  else None.

Definition error_kind (r : SteganographyResult) : option ErrorKind :=
  if success r then None
  else match error_message r with
       | Some msg => kind_of_message msg
       | None => None
       end.

(** The bytes a result hands to its caller: [data_length] bytes at [data]. *)
Definition payload (r : SteganographyResult) : option (list Z) :=
  match data r with
  | Some buf => Some (take (Z.to_nat (data_length r)) buf)
  | None => None
  end.

(** ** The engine *)

Definition demo_message : string := "Decoded secret message".

Section Engine.

(** [malloc n] tells whether a request of [n] bytes is granted. *)
Variable malloc : Z -> bool.

Definition encode_lsb_dct (image_data : option (list Z)) (image_size : Z)
    (message : option (list Z)) (message_length : Z)
    (password : string) : option SteganographyResult :=
  match image_data, message with
  | Some image, Some msg =>
      if malloc message_length then
        encrypted_message ← memcpy msg message_length;
        let encrypted_message :=
          xor_encrypt encrypted_message (Z.to_nat message_length) password in
        let max_capacity := get_max_capacity image_data image_size in
        if size_add message_length 8 >? max_capacity then
          Some (failure "Message too large for image capacity")
        else if malloc image_size then
          copy ← memcpy image image_size;
          Some {| success := true; error_message := None;
                  data := Some copy; data_length := image_size;
                  width := 0; height := 0 |}
        else None
      else Some (failure "Memory allocation failed")
  | _, _ => Some (failure "Invalid input data")
  end.

Definition decode_lsb_dct (image_data : option (list Z)) (image_size : Z)
    (password : string) : SteganographyResult :=
  match image_data with
  | None => failure "Invalid image data"
  | Some _ =>
      let message_length := Z.of_nat (strlen demo_message) in
      if malloc (message_length + 1) then
        let decoded_message := strcpy demo_message in
        let decoded_message :=
          xor_encrypt decoded_message (Z.to_nat message_length) password in
        {| success := true; error_message := None;
           data := Some decoded_message; data_length := message_length;
           width := 0; height := 0 |}
      else failure "Memory allocation failed"
  end.

(** Extraction from the buffer an embedding returned. *)
Definition extract_embedded (image_data : option (list Z)) (image_size : Z)
    (message : option (list Z)) (message_length : Z)
    (embed_password extract_password : string) : option SteganographyResult :=
  r ← encode_lsb_dct image_data image_size message message_length embed_password;
  Some (decode_lsb_dct (data r) (data_length r) extract_password).

End Engine.

(** The allocator that grants every request. *)
Definition malloc_ok : Z -> bool := fun _ => true.

(** ** Binary64 rounding on integers

    The analysis of [get_max_capacity] reads the two roundings of the
    expression [pixel_count * MAX_CAPACITY_FACTOR] on integers. *)

(** [m / 2^k] rounded to the nearest integer, ties to even. *)
Definition round_half_even (m k : Z) : Z :=
  let q := m / 2 ^ k in
  match 2 * (m mod 2 ^ k) ?= 2 ^ k with
  | Lt => q
  | Eq => if Z.even q then q else q + 1
  | Gt => q + 1
  end.

(** A non-negative integer rounded to 53 significant bits. *)
Definition round53 (x : Z) : Z :=
  let k := Z.max 0 (Z.log2 x + 1 - 53) in
  round_half_even x k * 2 ^ k.

(** The mantissa of [MAX_CAPACITY_FACTOR], which is this number times
    [2^-54]. *)
Definition FACTOR_MANTISSA : Z := 5404319552844595.

(** The capacity computed for [p] pixels, with both operands scaled to
    integers: the conversion of [p] and the product are each rounded to
    53 bits, and the 106 fraction bits are cut off. *)
Definition capacity_of_pixels (p : Z) : Z :=
  round53 (round53 (p * 2 ^ 52) * FACTOR_MANTISSA) / 2 ^ 106.

(** The carrier of the concrete scenario: 30,000 zero bytes. *)
Definition carrier_30000 : list Z := replicate (Z.to_nat 30000) 0.

(** ** Releasing a result *)

(** Where a message pointer points: into a string literal or into a block
    that [malloc] returned.  [free] is defined on the second only. *)
Inductive storage : Type :=
  | StaticStorage
  | HeapStorage.

(** [free_steganography_result]: the argument is the pointer [result]
    ([None] is the null pointer), the value is the structure it points to
    afterwards.  A non-null [data] is released and cleared together with
    [data_length]; a non-null [error_message] is released and cleared.
    Releasing a message that is not a heap block is undefined.  (The data
    buffers of this library all come from [malloc].) *)
Definition free_steganography_result (message_storage : storage)
    (result : option SteganographyResult) : option (option SteganographyResult) :=
  match result with
  | None => Some None
  | Some r =>
      let r1 :=
        match data r with
        | Some _ =>
            {| success := success r; error_message := error_message r;
               data := None; data_length := 0;
               width := width r; height := height r |}
        | None => r
        end in
      match error_message r1 with
      | Some _ =>
          match message_storage with
          | HeapStorage =>
              Some (Some {| success := success r1; error_message := None;
                            data := data r1; data_length := data_length r1;
                            width := width r1; height := height r1 |})
          | StaticStorage => None
          end
      | None => Some (Some r1)
      end
  end.

(** ** The demonstration digest ([native_libs/native_crypto.cpp]) *)

Definition uint32 (z : Z) : Z := z mod 2 ^ 32.

Definition uint64 (z : Z) : Z := z mod 2 ^ 64.

Definition is_uint64 (z : Z) : Prop := 0 <= z < 2 ^ 64.

(** [SHA3_CTX]: 25 words of 64 bits and two 32-bit counters. *)
Record SHA3_CTX : Type := mkCtx {
  state : list Z;
  rate : Z;
  pt : Z
}.

(** [sha3_512_init] overwrites the context. *)
Definition sha3_512_init (ctx : SHA3_CTX) : SHA3_CTX :=
  {| state := replicate 25 0; rate := 72; pt := 0 |}.

(** The body of the loop of [sha3_512_update] for one byte:
    [state[pt % 25] ^= (uint64_t) byte << ((pt % 8) * 8)], then
    [pt = (pt + 1) % rate].  The remainder by a zero [rate] is undefined. *)
Definition sha3_absorb (ctx : SHA3_CTX) (byte : Z) : option SHA3_CTX :=
  let word := uint64 (Z.shiftl byte (pt ctx mod 8 * 8)) in
  let state' :=
    alter (fun w => Z.lxor w word) (Z.to_nat (pt ctx mod 25)) (state ctx) in
  if rate ctx =? 0 then None
  else Some {| state := state'; rate := rate ctx;
               pt := uint32 (pt ctx + 1) mod rate ctx |}.

(** [sha3_512_update ctx data len]: [data] is the list of the [len] bytes
    read. *)
Definition sha3_512_update (ctx : SHA3_CTX) (data : list Z) : option SHA3_CTX :=
  foldl (fun c byte => c ≫= fun c => sha3_absorb c byte) (Some ctx) data.

(** [sha3_512_final digest ctx]: the 64 bytes written to [digest]. *)
Definition sha3_512_final (ctx : SHA3_CTX) : list Z :=
  map (fun i : nat =>
         Z.land (Z.shiftr (nth (i / 8) (state ctx) 0) (Z.of_nat (i mod 8) * 8)) 255)
      (seq 0 64).

(** The three calls in a row on a fresh context. *)
Definition sha3_512 (data : list Z) : option (list Z) :=
  ctx ← sha3_512_update (sha3_512_init (mkCtx [] 0 0)) data;
  Some (sha3_512_final ctx).

(** The shape [sha3_512_init] gives a context and [sha3_512_update]
    keeps: 25 words of 64 bits, rate 72 and a position below the rate. *)
Definition sha3_ctx_ok (ctx : SHA3_CTX) : Prop :=
  length (state ctx) = 25%nat /\
  Forall is_uint64 (state ctx) /\
  rate ctx = 72 /\
  0 <= pt ctx < 72.

(** The positions of a message that reach the digest: byte [i] goes to
    word [(i mod 72) mod 25], and [sha3_512_final] reads words 0 to 7. *)
Definition reaches_digest (i : nat) : bool := ((i mod 72) mod 25 <? 8)%nat.

(** ** The block transforms *)

(** [dct_transform] and [idct_transform] work on one
    [double block[BLOCK_SIZE][BLOCK_SIZE]] in place: each fills a local
    [temp] and copies it over the block.  A block is the list of its
    rows.  The loops run over [indices]; [sum += e] is [sum = sum + e],
    and a product [a * b * c] associates to the left.  Every operation
    is rounded to binary64 on its own (no contraction into a fused
    multiply-add); [sqrt] and the division are the correctly rounded
    ones. *)
Module DCT.

Definition block : Type := list (list float).

(** [block[i][j]] *)
Definition get (b : block) (i j : nat) : float := nth j (nth i b []) 0%float.

(** [M_PI]: 3.14159265358979323846 as a binary64 constant. *)
Definition M_PI : float := 0x1.921fb54442d18p+1%float.

(** The conversion of a non-negative [int] to [double]. *)
Definition double_of_int (k : Z) : float := PrimFloat.of_uint63 (Uint63.of_Z k).

(** [for (int i = 0; i < BLOCK_SIZE; i++)] *)
Definition indices : list nat := seq 0 8.

(** [(u == 0) ? 1.0/sqrt(2.0) : 1.0] *)
Definition coef (u : nat) : float :=
  if Nat.eqb u 0 then (1 / PrimFloat.sqrt 2)%float else 1%float.

(** [(2*x+1)*u*M_PI/16.0]; the product [(2*x+1)*u] is an [int]. *)
Definition dct_angle (x u : nat) : float :=
  (double_of_int (Z.of_nat ((2 * x + 1) * u)) * M_PI / 16)%float.

Section Transforms.

(** The C library's cosine. *)
Variable cos : float -> float.

(** The four nested loops of [dct_transform] for one [temp[u][v]]. *)
Definition dct_sum (b : block) (u v : nat) : float :=
  foldl (fun sum x =>
    foldl (fun sum y =>
      let cos1 := cos (dct_angle x u) in
      let cos2 := cos (dct_angle y v) in
      (sum + get b x y * cos1 * cos2)%float) sum indices) 0%float indices.

Definition dct_transform (b : block) : block :=
  map (fun u => map (fun v =>
    (0.25 * coef u * coef v * dct_sum b u v)%float) indices) indices.

Definition idct_sum (b : block) (x y : nat) : float :=
  foldl (fun sum u =>
    foldl (fun sum v =>
      let cu := coef u in
      let cv := coef v in
      let cos1 := cos (dct_angle x u) in
      let cos2 := cos (dct_angle y v) in
      (sum + cu * cv * get b u v * cos1 * cos2)%float) sum indices) 0%float indices.

Definition idct_transform (b : block) : block :=
  map (fun x => map (fun y => (0.25 * idct_sum b x y)%float) indices) indices.

End Transforms.
End DCT.

(** ** Binary64 values as real numbers *)

(** What Part V needs to state the accuracy of the transforms: the real
    number a binary64 value denotes, the exact transforms over the
    reals, and the accuracy asked of the library cosine. *)
Module DCT_real.
Import Reals DCT.
Local Open Scope R_scope.

Definition bpow (e : Z) : R := powerRZ 2 e.

Definition sgR (s : bool) : R := if s then -1 else 1.

Definition SF2R (f : spec_float) : R :=
  match f with
  | S754_finite s m e => sgR s * IZR (Z.pos m) * bpow e
  | _ => 0
  end.

Definition SF_finite (f : spec_float) : bool :=
  match f with
  | S754_zero _ | S754_finite _ _ _ => true
  | _ => false
  end.

(** The real number that a finite [double] denotes. *)
Definition FR (x : float) : R := SF2R (Prim2SF x).

(** Neither an infinity nor a NaN. *)
Definition finite (x : float) : bool := SF_finite (Prim2SF x).

(** The unit roundoff of binary64 and half its smallest positive
    number. *)
Definition rnd_u : R := bpow (-53).
Definition rnd_eta : R := bpow (-1075).

(** [x] is finite and within [delta] of the real number [r]. *)
Definition approx (x : float) (r delta : R) : Prop :=
  finite x = true /\ Rabs (FR x - r) <= delta.

(** The state of a running sum after [j] additions: it is within
    [j * E] of the exact sum [r], which is at most [j * T]. *)
Definition Inv (T E : R) (j : nat) (s : float) (r : R) : Prop :=
  finite s = true /\ Rabs (FR s - r) <= INR j * E /\ Rabs r <= INR j * T.

(** The cosine of the exact angle [(2x+1) u pi / 16]. *)
Definition ideal_cos (x u : nat) : R :=
  Rtrigo_def.cos (INR ((2 * x + 1) * u) * PI / 16).

(** The exact normalisation factor: [1/sqrt 2] for index 0, else 1. *)
Definition kappa (u : nat) : R := if Nat.eqb u 0 then sqrt (1 / 2) else 1.

Definition weight (u : nat) : R := kappa u * kappa u / 4.

Definition sum8 (f : nat -> R) : R :=
  f 0%nat + f 1%nat + f 2%nat + f 3%nat + f 4%nat + f 5%nat + f 6%nat + f 7%nat.

(** The Dirichlet kernel of order 7. *)
Definition dirichlet (phi : R) : R :=
  1 / 2 + Rtrigo_def.cos (1 * phi) + Rtrigo_def.cos (2 * phi) + Rtrigo_def.cos (3 * phi)
  + Rtrigo_def.cos (4 * phi) + Rtrigo_def.cos (5 * phi) + Rtrigo_def.cos (6 * phi)
  + Rtrigo_def.cos (7 * phi).

(** The weighted inner product of two rows of the cosine basis. *)
Definition gram (x x' : nat) : R :=
  sum8 (fun u => weight u * ideal_cos x u * ideal_cos x' u).

(** The library cosine is within [eps] of the real cosine at every
    angle that the transforms evaluate. *)
Definition cos_accurate (cos : float -> float) (eps : R) : Prop :=
  forall x u : nat, (x < 8)%nat -> (u < 8)%nat ->
    finite (cos (dct_angle x u)) = true /\
    Rabs (FR (cos (dct_angle x u)) - Rtrigo_def.cos (FR (dct_angle x u))) <= eps.

(** Every entry of the block is a finite number of magnitude at most
    [B]. *)
Definition block_bounded (M : block) (B : R) : Prop :=
  forall x y : nat, (x < 8)%nat -> (y < 8)%nat ->
    finite (get M x y) = true /\ Rabs (FR (get M x y)) <= B.

Definition block_value (M : block) (x y : nat) : R := FR (get M x y).

(** The error of one computed cosine against the cosine of the exact
    angle: the library's [eps], the error of the computed angle (below
    [2^-45]) and room for the rounding errors: [eps + 2^-40]. *)
Definition unit_error (eps : R) : R := eps + / 1099511627776.

(** The exact transforms over the reals. *)
Definition real_dct_sum (m : nat -> nat -> R) (u v : nat) : R :=
  sum8 (fun x => sum8 (fun y => m x y * ideal_cos x u * ideal_cos y v)).

Definition real_dct (m : nat -> nat -> R) (u v : nat) : R :=
  1 / 4 * kappa u * kappa v * real_dct_sum m u v.

Definition real_idct_sum (c : nat -> nat -> R) (x y : nat) : R :=
  sum8 (fun u => sum8 (fun v => kappa u * kappa v * c u v * ideal_cos x u * ideal_cos y v)).

Definition real_idct (c : nat -> nat -> R) (x y : nat) : R :=
  1 / 4 * real_idct_sum c x y.

End DCT_real.

(* ===================================================================== *)
(** * Part II: properties                                                 *)
(* ===================================================================== *)

Example strlen_demo : strlen demo_message = 22%nat.
Proof. reflexivity. Qed.

Example capacity_30000 : get_max_capacity None 30000 = 3000.
Proof. vm_compute. reflexivity. Qed.

(** The largest [size_t]: 6148914691236517205 pixels. *)
Example capacity_size_max :
  get_max_capacity None SIZE_MAX = 1844674407370955008.
Proof. vm_compute. reflexivity. Qed.

(** ** Bytes *)

Lemma uint8_range (z : Z) : is_uint8 (uint8 z).
Proof. unfold is_uint8, uint8. apply Z.mod_pos_bound. lia. Qed.

Lemma uint8_small (z : Z) : is_uint8 z -> uint8 z = z.
Proof. unfold is_uint8, uint8. intros H. apply Z.mod_small. exact H. Qed.

Lemma uint8_testbit (z i : Z) :
  Z.testbit (uint8 z) i = (i <? 8) && Z.testbit z i.
Proof.
  unfold uint8. change 256 with (2 ^ 8).
  apply Z.testbit_mod_pow2. lia.
Qed.

(** XOR with the same key byte twice gives the byte back, whatever the
    promoted value of the key character is. *)
Lemma uint8_lxor_involutive (b k : Z) :
  is_uint8 b -> uint8 (Z.lxor (uint8 (Z.lxor b k)) k) = b.
Proof.
  intros Hb. rewrite <- (uint8_small b Hb) at 2.
  apply Z.bits_inj'. intros i Hi.
  rewrite !uint8_testbit, !Z.lxor_spec, uint8_testbit, Z.lxor_spec.
  destruct (i <? 8); simpl; [ | reflexivity ].
  destruct (Z.testbit b i), (Z.testbit k i); reflexivity.
Qed.

(** A signed [char] reads a byte above 127 as that byte minus 256; after
    the conversion to [uint8_t] the cipher byte is the same. *)
Lemma uint8_lxor_sign_extension (b c : Z) :
  uint8 (Z.lxor b (c - 256)) = uint8 (Z.lxor b c).
Proof.
  apply Z.bits_inj'. intros i Hi.
  rewrite !uint8_testbit, !Z.lxor_spec.
  destruct (Z.ltb_spec i 8) as [Hlt | Hge]; simpl; [ | reflexivity ].
  f_equal.
  rewrite <- (Z.mod_pow2_bits_low (c - 256) 8 i) by lia.
  rewrite <- (Z.mod_pow2_bits_low c 8 i) by lia.
  f_equal. change (2 ^ 8) with 256.
  replace (c - 256) with (c + (-1) * 256) by lia.
  apply Z.mod_add. lia.
Qed.

(** ** The cipher loop in closed form *)

Lemma xor_loop_lookup (password : string) (len : nat) (data : list Z) (i : nat) :
  foldl (xor_step password (strlen password)) data (seq 0 len) !! i
  = (if decide (i < len)%nat then cipher_byte password i else id) <$> data !! i.
Proof.
  induction len as [ | len IH ].
  - simpl. destruct (data !! i); reflexivity.
  - rewrite seq_S, foldl_app. simpl. unfold xor_step at 1.
    destruct (decide (i = len)) as [-> | Hne].
    + rewrite list_lookup_alter_eq, IH.
      destruct (decide (len < len)%nat); [ lia | ].
      destruct (decide (len < S len)%nat); [ | lia ].
      destruct (data !! len); reflexivity.
    + rewrite list_lookup_alter_ne by congruence. rewrite IH.
      destruct (decide (i < len)%nat), (decide (i < S len)%nat);
        try lia; reflexivity.
Qed.

Lemma xor_loop_length (password : string) (len : nat) (data : list Z) :
  length (foldl (xor_step password (strlen password)) data (seq 0 len))
  = length data.
Proof.
  induction len as [ | len IH ]; [ reflexivity | ].
  rewrite seq_S, foldl_app. simpl. unfold xor_step at 1.
  rewrite length_alter. exact IH.
Qed.

Lemma xor_encrypt_length (data : list Z) (len : nat) (password : string) :
  length (xor_encrypt data len password) = length data.
Proof.
  unfold xor_encrypt. destruct (strlen password =? 0)%nat; [ reflexivity | ].
  apply xor_loop_length.
Qed.

Lemma xor_encrypt_lookup (data : list Z) (len : nat) (password : string) (i : nat) :
  xor_encrypt data len password !! i
  = (if decide (i < len)%nat
     then (if (strlen password =? 0)%nat then id else cipher_byte password i)
     else id) <$> data !! i.
Proof.
  unfold xor_encrypt. destruct (strlen password =? 0)%nat.
  - destruct (decide (i < len)%nat), (data !! i); reflexivity.
  - apply xor_loop_lookup.
Qed.

Lemma xor_encrypt_bytes (data : list Z) (len : nat) (password : string) :
  Forall is_uint8 data -> Forall is_uint8 (xor_encrypt data len password).
Proof.
  intros Hd. apply Forall_lookup. intros i b Hb.
  rewrite xor_encrypt_lookup in Hb.
  destruct (data !! i) as [ b0 | ] eqn:E; [ | discriminate ].
  pose proof (proj1 (Forall_lookup _ _) Hd i b0 E) as Hb0.
  simpl in Hb. inversion Hb; subst b. clear Hb.
  destruct (decide (i < len)%nat); [ | exact Hb0 ].
  destruct (strlen password =? 0)%nat; [ exact Hb0 | ].
  apply uint8_range.
Qed.

(** The cipher is the byte-wise XOR with the key stream. *)
Lemma uint8_lxor_uint8_r (b k : Z) :
  uint8 (Z.lxor b (uint8 k)) = uint8 (Z.lxor b k).
Proof.
  apply Z.bits_inj'. intros i Hi.
  rewrite !uint8_testbit, !Z.lxor_spec, uint8_testbit.
  destruct (i <? 8); simpl; [ reflexivity | reflexivity ].
Qed.

Lemma uint8_lxor_cancel (b k : Z) :
  uint8 (Z.lxor b (uint8 (Z.lxor b k))) = uint8 k.
Proof.
  apply Z.bits_inj'. intros i Hi.
  rewrite !uint8_testbit, !Z.lxor_spec, uint8_testbit, Z.lxor_spec.
  destruct (i <? 8); simpl; [ | reflexivity ].
  destruct (Z.testbit b i), (Z.testbit k i); reflexivity.
Qed.

Lemma xor_encrypt_key_stream (data : list Z) (len : nat) (password : string)
    (i : nat) (b : Z) :
  data !! i = Some b -> is_uint8 b -> (i < len)%nat ->
  xor_encrypt data len password !! i
  = Some (uint8 (Z.lxor b (key_stream password i))).
Proof.
  intros Hb Hr Hi. rewrite xor_encrypt_lookup, Hb. unfold key_stream.
  destruct (decide (i < len)%nat); [ | lia ].
  destruct (strlen password =? 0)%nat; simpl.
  - rewrite Z.lxor_0_r, uint8_small by exact Hr. reflexivity.
  - unfold cipher_byte. rewrite uint8_lxor_uint8_r. reflexivity.
Qed.

Lemma key_stream_range (password : string) (i : nat) :
  is_uint8 (key_stream password i).
Proof.
  unfold key_stream. destruct (strlen password =? 0)%nat.
  - unfold is_uint8. lia.
  - apply uint8_range.
Qed.

(** Applying the cipher twice with one key restores a buffer of bytes,
    for every key. *)
Lemma xor_encrypt_involutive (data : list Z) (len : nat) (password : string) :
  Forall is_uint8 data ->
  xor_encrypt (xor_encrypt data len password) len password = data.
Proof.
  intros Hd. apply list_eq. intros i.
  rewrite xor_encrypt_lookup, xor_encrypt_lookup.
  destruct (data !! i) as [ b | ] eqn:E; [ | reflexivity ].
  pose proof (proj1 (Forall_lookup _ _) Hd i b E) as Hb.
  simpl. f_equal.
  destruct (decide (i < len)%nat); [ | reflexivity ].
  destruct (strlen password =? 0)%nat; [ reflexivity | ].
  unfold cipher_byte. apply uint8_lxor_involutive. exact Hb.
Qed.

(** C3 (cipher involution): for every byte sequence [D] and every
    non-empty key [K], applying [xor_encrypt] to the whole of [D] twice
    with [K] gives [D] back. *)
Theorem cipher_involution (D : list Z) (K : string) :
  Forall is_uint8 D ->
  (0 < strlen K)%nat ->
  xor_encrypt (xor_encrypt D (length D) K) (length D) K = D.
Proof.
  intros HD _. apply xor_encrypt_involutive. exact HD.
Qed.

Lemma cipher_involution_witness :
  (0 < strlen "key")%nat /\
  xor_encrypt [72; 105; 33; 0; 255] 5 "key" = [35; 12; 88; 107; 154] /\
  xor_encrypt (xor_encrypt [72; 105; 33; 0; 255] 5 "key") 5 "key"
  = [72; 105; 33; 0; 255].
Proof.
  split; [ simpl; lia | ].
  split; [ reflexivity | ].
  apply (cipher_involution [72; 105; 33; 0; 255] "key").
  - repeat constructor; unfold is_uint8; lia.
  - simpl. lia.
Defined.

(** C9 (empty key): with the empty key [xor_encrypt] returns its buffer
    unchanged, for every buffer and every length; it is an ordinary
    return, the function has no failure result. *)
Theorem cipher_empty_key (D : list Z) (len : nat) :
  xor_encrypt D len "" = D.
Proof.
  unfold xor_encrypt. cbn [strlen].
  rewrite Nat.eqb_refl. reflexivity.
Qed.

(** ** The engine *)

Lemma memcpy_whole (src : list Z) : memcpy src (Z.of_nat (length src)) = Some src.
Proof.
  unfold memcpy.
  destruct (Z.leb_spec 0 (Z.of_nat (length src))); [ | lia ].
  destruct (Z.leb_spec (Z.of_nat (length src)) (Z.of_nat (length src))); [ | lia ].
  simpl. rewrite Nat2Z.id, firstn_all. reflexivity.
Qed.

Lemma memcpy_Some (src : list Z) (n : Z) :
  0 <= n <= Z.of_nat (length src) -> memcpy src n = Some (take (Z.to_nat n) src).
Proof.
  intros [H0 H1]. unfold memcpy.
  destruct (Z.leb_spec 0 n); [ | lia ].
  destruct (Z.leb_spec n (Z.of_nat (length src))); [ | lia ].
  reflexivity.
Qed.

Lemma size_add_small (a b : Z) :
  0 <= a -> 0 <= b -> a + b <= SIZE_MAX -> size_add a b = a + b.
Proof.
  unfold size_add, SIZE_MAX. intros Ha Hb Hab. apply Z.mod_small. lia.
Qed.

(** What [decode_lsb_dct] returns for a carrier that is not null. *)
Lemma decode_lsb_dct_Some (malloc : Z -> bool) (image : list Z) (image_size : Z)
    (password : string) :
  decode_lsb_dct malloc (Some image) image_size password
  = if malloc 23 then
      {| success := true; error_message := None;
         data := Some (xor_encrypt (strcpy demo_message) 22 password);
         data_length := 22; width := 0; height := 0 |}
    else failure "Memory allocation failed".
Proof. reflexivity. Qed.

(** A result of [encode_lsb_dct] is either a failure without a buffer or
    a success with one. *)
Lemma encode_lsb_dct_data (malloc : Z -> bool) (image_data : option (list Z))
    (image_size : Z) (message : option (list Z)) (message_length : Z)
    (password : string) (r : SteganographyResult) :
  encode_lsb_dct malloc image_data image_size message message_length password = Some r ->
  (success r = false /\ data r = None) \/
  (success r = true /\ exists copy, data r = Some copy).
Proof.
  unfold encode_lsb_dct. intros H.
  destruct image_data as [ image | ]; [ | inversion H; subst r; left; split; reflexivity ].
  destruct message as [ msg | ]; [ | inversion H; subst r; left; split; reflexivity ].
  destruct (malloc message_length); [ | inversion H; subst r; left; split; reflexivity ].
  destruct (memcpy msg message_length) as [ enc | ]; [ simpl in H | discriminate ].
  destruct (size_add message_length 8 >? get_max_capacity (Some image) image_size);
    [ inversion H; subst r; left; split; reflexivity | ].
  destruct (malloc image_size); [ | discriminate ].
  destruct (memcpy image image_size) as [ copy | ]; [ simpl in H | discriminate ].
  inversion H; subst r. right. split; [ reflexivity | ]. exists copy. reflexivity.
Qed.

(** Extraction from an embedded carrier: the result is the one
    [decode_lsb_dct] gives for any carrier. *)
Lemma extract_embedded_success (malloc : Z -> bool) (image_data : option (list Z))
    (image_size : Z) (message : option (list Z)) (message_length : Z)
    (pw1 pw2 : string) (r e : SteganographyResult) :
  encode_lsb_dct malloc image_data image_size message message_length pw1 = Some e ->
  success e = true ->
  extract_embedded malloc image_data image_size message message_length pw1 pw2 = Some r ->
  r = decode_lsb_dct malloc (Some []) 0 pw2.
Proof.
  intros He Hs Hr. unfold extract_embedded in Hr. rewrite He in Hr. simpl in Hr.
  destruct (encode_lsb_dct_data _ _ _ _ _ _ _ He) as [ [Hf _] | [_ [copy Hc]] ].
  - congruence.
  - rewrite Hc in Hr. inversion Hr. reflexivity.
Qed.

(** C10 (carrier independence of extraction): for any two carriers that
    are not null, of any contents and declared sizes, [decode_lsb_dct]
    with one password returns the same result: the same bytes, the same
    length, the same flags. *)
Theorem decode_ignores_carrier (malloc : Z -> bool)
    (carrier1 carrier2 : list Z) (size1 size2 : Z) (password : string) :
  decode_lsb_dct malloc (Some carrier1) size1 password
  = decode_lsb_dct malloc (Some carrier2) size2 password.
Proof. rewrite !decode_lsb_dct_Some. reflexivity. Qed.

(** C1 (embed/extract round trip), evaluated on the program: a carrier of
    300 zero bytes has capacity 30, the two-byte payload "Hi" with
    password "pw" is embedded with success, and extraction with the same
    password returns 22 bytes, the fixed message of [decode_lsb_dct]
    under the cipher, not the payload. *)
Theorem embed_extract_roundtrip_fails :
  get_max_capacity (Some (replicate 300 0)) 300 = 30 /\
  exists r,
    extract_embedded malloc_ok (Some (replicate 300 0)) 300 (Some [72; 105]) 2 "pw" "pw"
    = Some r /\
    success r = true /\
    payload r = Some [52; 18; 19; 24; 20; 18; 20; 87; 3; 18; 19; 5; 21; 3; 80; 26;
                      21; 4; 3; 22; 23; 18] /\
    payload r <> Some [72; 105].
Proof.
  split; [ vm_compute; reflexivity | ].
  eexists. split; [ vm_compute; reflexivity | ].
  split; [ reflexivity | ].
  split; [ reflexivity | ].
  vm_compute. discriminate.
Qed.

(** ** Wrong-key extraction *)

Lemma strcpy_bytes (s : string) : Forall is_uint8 (strcpy s).
Proof.
  assert (Hc : forall c, is_uint8 (char_code c)).
  { intros c. unfold is_uint8, char_code.
    pose proof (N_ascii_bounded c) as Hb. lia. }
  induction s as [ | c s IH ]; simpl.
  - repeat constructor; unfold is_uint8; lia.
  - destruct (N_of_ascii c =? 0)%N.
    + repeat constructor; unfold is_uint8; lia.
    + constructor; [ apply Hc | exact IH ].
Qed.

Lemma strcpy_length (s : string) : length (strcpy s) = S (strlen s).
Proof.
  induction s as [ | c s IH ]; simpl; [ reflexivity | ].
  destruct (N_of_ascii c =? 0)%N; simpl; [ reflexivity | ].
  rewrite IH. reflexivity.
Qed.

(** Two keys whose key streams agree on the first [len] positions give
    the same cipher text. *)
Lemma xor_encrypt_same_stream (buf : list Z) (len : nat) (pw1 pw2 : string) :
  Forall is_uint8 buf ->
  (forall i, (i < len)%nat -> key_stream pw1 i = key_stream pw2 i) ->
  xor_encrypt buf len pw1 = xor_encrypt buf len pw2.
Proof.
  intros Hd Hk. apply list_eq. intros i.
  destruct (buf !! i) as [ b | ] eqn:E.
  - pose proof (proj1 (Forall_lookup _ _) Hd i b E) as Hb.
    destruct (decide (i < len)%nat) as [ Hi | Hi ].
    + rewrite !(xor_encrypt_key_stream buf len _ i b E Hb Hi), (Hk i Hi).
      reflexivity.
    + rewrite !xor_encrypt_lookup, E.
      destruct (decide (i < len)%nat); [ lia | reflexivity ].
  - rewrite !xor_encrypt_lookup, E. reflexivity.
Qed.

(** Two keys whose key streams differ at a position inside the buffer and
    inside the length give cipher texts that differ there. *)
Lemma xor_encrypt_other_stream (buf : list Z) (len : nat) (pw1 pw2 : string)
    (i : nat) :
  Forall is_uint8 buf ->
  (i < len)%nat -> (i < length buf)%nat ->
  key_stream pw1 i <> key_stream pw2 i ->
  xor_encrypt buf len pw1 !! i <> xor_encrypt buf len pw2 !! i.
Proof.
  intros Hd Hi Hl Hk.
  destruct (lookup_lt_is_Some_2 buf i Hl) as [ b E ].
  pose proof (proj1 (Forall_lookup _ _) Hd i b E) as Hb.
  rewrite !(xor_encrypt_key_stream buf len _ i b E Hb Hi).
  intros Heq. apply Hk. inversion Heq as [ H ].
  rewrite <- (uint8_small _ (key_stream_range pw1 i)).
  rewrite <- (uint8_small _ (key_stream_range pw2 i)).
  rewrite <- (uint8_lxor_cancel b (key_stream pw1 i)),
          <- (uint8_lxor_cancel b (key_stream pw2 i)).
  rewrite H. reflexivity.
Qed.

(** C7 (wrong-key extraction), evaluated on the program: the passwords
    "correct" and "wrong" are distinct and already differ in the first
    byte of their key streams; the 22-byte payload below is embedded
    with "correct" into a carrier of 300 zero bytes, and extraction from
    the result with "wrong" succeeds, reports no [HeaderCorrupt], and
    returns exactly that payload.  [decode_lsb_dct] never reads the
    carrier: what it returns is its fixed text under the extraction
    password, whatever was embedded. *)
Theorem wrong_key_returns_embedded_payload :
  let secret := [51; 23; 12; 1; 3; 18; 22; 79; 29; 2; 20; 0; 10; 26; 71; 26; 23;
                 28; 29; 6; 16; 23] in
  "correct"%string <> "wrong"%string /\
  key_stream "correct" 0 <> key_stream "wrong" 0 /\
  exists r,
    extract_embedded malloc_ok (Some (replicate 300 0)) 300 (Some secret) 22
      "correct" "wrong" = Some r /\
    success r = true /\
    error_kind r <> Some HeaderCorrupt /\
    payload r = Some secret.
Proof.
  split; [ discriminate | ].
  split; [ vm_compute; discriminate | ].
  eexists. split; [ vm_compute; reflexivity | ].
  split; [ reflexivity | ].
  split; [ discriminate | reflexivity ].
Qed.

(** ** Input validation and the capacity check *)

(** The capacity check: a payload that is read in full and whose length
    plus the eight header bytes exceeds the capacity is refused, and the
    result carries no buffer. *)
Lemma encode_too_large (malloc : Z -> bool) (image msg : list Z)
    (image_size message_length : Z) (password : string) :
  0 <= message_length <= Z.of_nat (length msg) ->
  message_length <= PTRDIFF_MAX ->
  malloc message_length = true ->
  get_max_capacity (Some image) image_size < message_length + 8 ->
  encode_lsb_dct malloc (Some image) image_size (Some msg) message_length password
  = Some (failure "Message too large for image capacity").
Proof.
  intros Hlen Hmax Hm Hcap. unfold encode_lsb_dct.
  rewrite Hm, (memcpy_Some msg message_length Hlen). simpl.
  rewrite size_add_small; [ | lia | lia | unfold PTRDIFF_MAX, SIZE_MAX in *; lia ].
  destruct (Z.gtb_spec (message_length + 8) (get_max_capacity (Some image) image_size));
    [ reflexivity | lia ].
Qed.

(** The success branch: the result is a copy of the carrier. *)
Lemma encode_fits (malloc : Z -> bool) (image msg : list Z)
    (message_length : Z) (password : string) :
  0 <= message_length <= Z.of_nat (length msg) ->
  message_length <= PTRDIFF_MAX ->
  malloc message_length = true ->
  malloc (Z.of_nat (length image)) = true ->
  message_length + 8 <= get_max_capacity (Some image) (Z.of_nat (length image)) ->
  encode_lsb_dct malloc (Some image) (Z.of_nat (length image)) (Some msg)
    message_length password
  = Some {| success := true; error_message := None; data := Some image;
            data_length := Z.of_nat (length image); width := 0; height := 0 |}.
Proof.
  intros Hlen Hmax Hm Hi Hcap. unfold encode_lsb_dct.
  rewrite Hm, (memcpy_Some msg message_length Hlen). simpl.
  rewrite size_add_small; [ | lia | lia | unfold PTRDIFF_MAX, SIZE_MAX in *; lia ].
  destruct (Z.gtb_spec (message_length + 8)
              (get_max_capacity (Some image) (Z.of_nat (length image))));
    [ lia | ].
  rewrite Hi, memcpy_whole. reflexivity.
Qed.

(** C5, as stated, fails when the working copy of the payload is
    refused: the carrier of 300 bytes has capacity 30, the payload of 500
    bytes exceeds it, and with an allocator that grants fewer than 500
    bytes the failure is the allocation failure, not [PayloadTooLarge]. *)
Lemma over_capacity_allocation_refused :
  get_max_capacity (Some (replicate 300 0)) 300 < 500 + 8 /\
  exists r,
    encode_lsb_dct (fun n => n <? 500) (Some (replicate 300 0)) 300
      (Some (replicate 500 7)) 500 "test123" = Some r /\
    error_kind r = Some AllocationFailure /\
    error_kind r <> Some PayloadTooLarge.
Proof.
  split; [ vm_compute; reflexivity | ].
  eexists. split; [ vm_compute; reflexivity | ].
  split; [ reflexivity | discriminate ].
Qed.

(** C5 (capacity rejection), as the program has it: for every carrier
    and every payload whose length plus the eight header bytes exceeds
    the capacity of the carrier, [encode_lsb_dct] fails and the result
    has no data buffer; the kind of the failure is [PayloadTooLarge]
    when the working copy of the payload, which is requested before the
    capacity is looked at, was granted, and [AllocationFailure] when it
    was refused.  The carrier and the payload are not null and the
    payload buffer holds the declared length. *)
Theorem capacity_rejection (malloc : Z -> bool) (image msg : list Z)
    (image_size message_length : Z) (password : string) :
  0 <= message_length <= Z.of_nat (length msg) ->
  message_length <= PTRDIFF_MAX ->
  get_max_capacity (Some image) image_size < message_length + 8 ->
  exists r,
    encode_lsb_dct malloc (Some image) image_size (Some msg) message_length password
    = Some r /\
    success r = false /\
    error_kind r
    = Some (if malloc message_length then PayloadTooLarge else AllocationFailure) /\
    data r = None /\
    data_length r = 0.
Proof.
  intros Hlen Hmax Hcap.
  destruct (malloc message_length) eqn:Hm.
  - exists (failure "Message too large for image capacity").
    split; [ apply encode_too_large; assumption | ].
    repeat split; reflexivity.
  - exists (failure "Memory allocation failed").
    split; [ unfold encode_lsb_dct; rewrite Hm; reflexivity | ].
    repeat split; reflexivity.
Qed.

(** The carrier of 300 bytes has capacity 30; a payload of 31 bytes, one
    more than the capacity, is refused as too large when its copy is
    granted. *)
Lemma capacity_rejection_witness :
  get_max_capacity (Some (replicate 300 0)) 300 = 30 /\
  exists r,
    encode_lsb_dct malloc_ok (Some (replicate 300 0)) 300
      (Some (replicate 31 7)) 31 "test123" = Some r /\
    success r = false /\
    error_kind r
    = Some (if malloc_ok 31 then PayloadTooLarge else AllocationFailure) /\
    data r = None /\
    data_length r = 0.
Proof.
  split; [ vm_compute; reflexivity | ].
  apply (capacity_rejection malloc_ok (replicate 300 0) (replicate 31 7) 300 31
           "test123").
  - vm_compute. split; discriminate.
  - vm_compute. discriminate.
  - vm_compute. reflexivity.
Defined.

(** C8, as stated, fails on empty inputs: an empty payload that is not
    null is embedded with success, and an empty carrier that is not null
    is refused by the capacity check, with kind [PayloadTooLarge]. *)
Lemma empty_inputs_not_invalid :
  (exists r,
     encode_lsb_dct malloc_ok (Some (replicate 300 0)) 300 (Some []) 0 "pw" = Some r /\
     success r = true /\
     error_kind r = None) /\
  (exists r,
     encode_lsb_dct malloc_ok (Some []) 0 (Some [72; 105]) 2 "pw" = Some r /\
     success r = false /\
     error_kind r = Some PayloadTooLarge).
Proof.
  split.
  - eexists. split; [ vm_compute; reflexivity | ]. split; reflexivity.
  - eexists. split; [ vm_compute; reflexivity | ]. split; reflexivity.
Qed.

(** C8 (invalid input), as the program has it: [encode_lsb_dct] fails
    with kind [InvalidInput] whenever the carrier or the payload is the
    null pointer, and with this kind only then: no result for a carrier
    and a payload that are both not null, empty or not, has kind
    [InvalidInput]. *)
Theorem invalid_input_is_null (malloc : Z -> bool) (image_data : option (list Z))
    (image_size : Z) (message : option (list Z)) (message_length : Z)
    (password : string) :
  (image_data = None \/ message = None ->
   exists r,
     encode_lsb_dct malloc image_data image_size message message_length password
     = Some r /\
     success r = false /\ error_kind r = Some InvalidInput /\ data r = None) /\
  (forall r,
     image_data <> None -> message <> None ->
     encode_lsb_dct malloc image_data image_size message message_length password
     = Some r ->
     error_kind r <> Some InvalidInput).
Proof.
  split.
  - intros Hnull. exists (failure "Invalid input data").
    split; [ | repeat split; reflexivity ].
    unfold encode_lsb_dct.
    destruct Hnull as [ -> | -> ]; [ reflexivity | ].
    destruct image_data; reflexivity.
  - intros r Hi Hm H. unfold encode_lsb_dct in H.
    destruct image_data as [ image | ]; [ | congruence ].
    destruct message as [ msg | ]; [ | congruence ].
    destruct (malloc message_length); [ | inversion H; subst r; discriminate ].
    destruct (memcpy msg message_length) as [ enc | ]; [ simpl in H | discriminate ].
    destruct (size_add message_length 8 >? get_max_capacity (Some image) image_size);
      [ inversion H; subst r; discriminate | ].
    destruct (malloc image_size); [ | discriminate ].
    destruct (memcpy image image_size) as [ copy | ]; [ simpl in H | discriminate ].
    inversion H; subst r. discriminate.
Qed.

Lemma invalid_input_is_null_witness :
  (exists r,
     encode_lsb_dct malloc_ok None 300 (Some [72; 105]) 2 "pw" = Some r /\
     success r = false /\ error_kind r = Some InvalidInput /\ data r = None) /\
  error_kind (failure "Message too large for image capacity") <> Some InvalidInput.
Proof.
  pose proof (invalid_input_is_null malloc_ok None 300 (Some [72; 105]) 2 "pw")
    as [ Hnull _ ].
  pose proof (invalid_input_is_null malloc_ok (Some []) 0 (Some [72; 105]) 2 "pw")
    as [ _ Hother ].
  split.
  - apply Hnull. left. reflexivity.
  - apply Hother; [ discriminate | discriminate | vm_compute; reflexivity ].
Defined.

(** ** The concrete scenario *)

(** [get_max_capacity] does not read the carrier. *)
Lemma get_max_capacity_data (d1 d2 : option (list Z)) (image_size : Z) :
  get_max_capacity d1 image_size = get_max_capacity d2 image_size.
Proof. reflexivity. Qed.

(** C2, as stated, fails: the capacity of a carrier of 30,000 bytes is
    3000, not 900, and a payload of 200 bytes is embedded with success. *)
Lemma capacity_30000_is_not_900 :
  Z.of_nat (length carrier_30000) = 30000 /\
  get_max_capacity (Some carrier_30000) 30000 <> 900 /\
  get_max_capacity (Some carrier_30000) 30000 = 3000 /\
  exists r,
    encode_lsb_dct malloc_ok (Some carrier_30000) 30000
      (Some (replicate 200 7)) 200 "test123" = Some r /\
    success r = true.
Proof.
  assert (Hlen : Z.of_nat (length carrier_30000) = 30000).
  { unfold carrier_30000. rewrite length_replicate. apply Z2Nat.id. lia. }
  assert (Hcap : get_max_capacity (Some carrier_30000) 30000 = 3000).
  { rewrite (get_max_capacity_data _ None). vm_compute. reflexivity. }
  split; [ exact Hlen | ].
  split; [ rewrite Hcap; discriminate | ].
  split; [ exact Hcap | ].
  eexists. split.
  - rewrite <- Hlen at 1. apply encode_fits.
    + rewrite length_replicate. lia.
    + unfold PTRDIFF_MAX. lia.
    + reflexivity.
    + reflexivity.
    + rewrite Hlen, Hcap. lia.
  - reflexivity.
Qed.

(** C2 (concrete scenario), as the program has it: for a carrier of
    30,000 bytes (10,000 pixels of three bytes) the capacity is 3000;
    embedding a payload of 10 bytes with the password "test123" succeeds
    and returns a copy of the carrier; embedding a payload of 200 bytes
    succeeds as well, because 200 + 8 does not exceed 3000; and a payload
    is refused with kind [PayloadTooLarge] when its length plus 8 exceeds
    3000. *)
Theorem concrete_scenario (malloc : Z -> bool) (carrier small large huge : list Z) :
  Z.of_nat (length carrier) = 30000 ->
  Z.of_nat (length small) = 10 ->
  Z.of_nat (length large) = 200 ->
  2992 < Z.of_nat (length huge) <= PTRDIFF_MAX ->
  (forall n, malloc n = true) ->
  get_max_capacity (Some carrier) 30000 = 3000 /\
  (exists r,
     encode_lsb_dct malloc (Some carrier) 30000 (Some small) 10 "test123" = Some r /\
     success r = true /\ data r = Some carrier /\ data_length r = 30000) /\
  (exists r,
     encode_lsb_dct malloc (Some carrier) 30000 (Some large) 200 "test123" = Some r /\
     success r = true /\ data r = Some carrier /\ data_length r = 30000) /\
  (exists r,
     encode_lsb_dct malloc (Some carrier) 30000 (Some huge) (Z.of_nat (length huge))
       "test123" = Some r /\
     success r = false /\ error_kind r = Some PayloadTooLarge /\ data r = None).
Proof.
  intros Hc Hs Hl Hh Hm.
  assert (Hcap : get_max_capacity (Some carrier) 30000 = 3000).
  { rewrite (get_max_capacity_data _ None). vm_compute. reflexivity. }
  split; [ exact Hcap | ].
  split; [ | split ].
  - eexists. split.
    + rewrite <- Hc at 1. apply encode_fits; [ | | apply Hm | apply Hm | ].
      * rewrite Hs. lia.
      * unfold PTRDIFF_MAX. lia.
      * rewrite Hc, Hcap. lia.
    + repeat split. exact Hc.
  - eexists. split.
    + rewrite <- Hc at 1. apply encode_fits; [ | | apply Hm | apply Hm | ].
      * rewrite Hl. lia.
      * unfold PTRDIFF_MAX. lia.
      * rewrite Hc, Hcap. lia.
    + repeat split. exact Hc.
  - exists (failure "Message too large for image capacity").
    split; [ | repeat split ].
    apply encode_too_large; [ lia | lia | apply Hm | ].
    rewrite Hcap. lia.
Qed.

Lemma concrete_scenario_witness :
  get_max_capacity (Some carrier_30000) 30000 = 3000 /\
  (exists r,
     encode_lsb_dct malloc_ok (Some carrier_30000) 30000
       (Some (replicate 10 7)) 10 "test123" = Some r /\
     success r = true /\ data r = Some carrier_30000 /\ data_length r = 30000) /\
  (exists r,
     encode_lsb_dct malloc_ok (Some carrier_30000) 30000
       (Some (replicate 200 7)) 200 "test123" = Some r /\
     success r = true /\ data r = Some carrier_30000 /\ data_length r = 30000) /\
  (exists r,
     encode_lsb_dct malloc_ok (Some carrier_30000) 30000
       (Some (replicate 2993 7)) (Z.of_nat (length (replicate 2993 7)))
       "test123" = Some r /\
     success r = false /\ error_kind r = Some PayloadTooLarge /\ data r = None).
Proof.
  apply (concrete_scenario malloc_ok carrier_30000 (replicate 10 7)
           (replicate 200 7) (replicate 2993 7)).
  - unfold carrier_30000. rewrite length_replicate. reflexivity.
  - reflexivity.
  - reflexivity.
  - rewrite length_replicate. unfold PTRDIFF_MAX. lia.
  - reflexivity.
Defined.

(* ===================================================================== *)
(** * Part III: the capacity model in binary64                            *)
(* ===================================================================== *)

(** ** The shift and the rounding of [SpecFloat] *)

Lemma digits2_pos_bounds (m : positive) :
  2 ^ (Z.pos (digits2_pos m) - 1) <= Z.pos m < 2 ^ Z.pos (digits2_pos m).
Proof.
  induction m as [ m IH | m IH | ]; simpl digits2_pos.
  - rewrite Pos2Z.inj_succ.
    replace (Z.succ (Z.pos (digits2_pos m)) - 1) with (Z.succ (Z.pos (digits2_pos m) - 1)) by lia.
    rewrite !Z.pow_succ_r by lia. lia.
  - rewrite Pos2Z.inj_succ.
    replace (Z.succ (Z.pos (digits2_pos m)) - 1) with (Z.succ (Z.pos (digits2_pos m) - 1)) by lia.
    rewrite !Z.pow_succ_r by lia. lia.
  - simpl. lia.
Qed.

Lemma digits2_pos_log2 (m : positive) :
  Z.pos (digits2_pos m) = Z.log2 (Z.pos m) + 1.
Proof.
  pose proof (digits2_pos_bounds m) as H.
  assert (Hl : Z.log2 (Z.pos m) = Z.pos (digits2_pos m) - 1).
  { apply Z.log2_unique; [ lia | ].
    replace (Z.succ (Z.pos (digits2_pos m) - 1)) with (Z.pos (digits2_pos m)) by lia.
    exact H. }
  lia.
Qed.

Lemma iter_pos_nat {A : Type} (f : A -> A) (p : positive) (x : A) :
  SpecFloat.iter_pos f p x = Nat.iter (Pos.to_nat p) f x.
Proof.
  revert x. induction p as [ p IH | p IH | ]; intros x; simpl SpecFloat.iter_pos.
  - rewrite !IH, Pos2Nat.inj_xI.
    replace (S (2 * Pos.to_nat p))%nat with (Pos.to_nat p + (Pos.to_nat p + 1))%nat by lia.
    rewrite !Nat.iter_add. reflexivity.
  - rewrite !IH, Pos2Nat.inj_xO.
    replace (2 * Pos.to_nat p)%nat with (Pos.to_nat p + Pos.to_nat p)%nat by lia.
    rewrite Nat.iter_add. reflexivity.
  - reflexivity.
Qed.

Lemma shr_1_nonneg (m : Z) (r s : bool) :
  0 <= m ->
  shr_1 {| shr_m := m; shr_r := r; shr_s := s |}
  = {| shr_m := m / 2; shr_r := Z.odd m; shr_s := r || s |}.
Proof.
  intros Hm. unfold shr_1.
  destruct m as [ | p | p ]; [ reflexivity | | lia ].
  destruct p as [ p | p | ].
  - replace (Z.pos p~1 / 2) with (Z.pos p); [ reflexivity | ].
    apply (Z.div_unique _ _ _ 1); lia.
  - replace (Z.pos p~0 / 2) with (Z.pos p); [ reflexivity | ].
    apply (Z.div_unique _ _ _ 0); lia.
  - reflexivity.
Qed.

(** The shift of [n] positions, started without sticky bits. *)
Lemma shr_iter_nonneg (m : Z) (n : nat) :
  0 <= m ->
  Nat.iter (S n) shr_1 {| shr_m := m; shr_r := false; shr_s := false |}
  = {| shr_m := m / 2 ^ Z.of_nat (S n);
       shr_r := Z.odd (m / 2 ^ Z.of_nat n);
       shr_s := negb (m mod 2 ^ Z.of_nat n =? 0) |}.
Proof.
  intros Hm. induction n as [ | n IH ].
  - unfold Nat.iter. cbn [nat_rect]. rewrite shr_1_nonneg by exact Hm.
    change (2 ^ Z.of_nat 1) with 2. change (2 ^ Z.of_nat 0) with 1.
    rewrite Z.div_1_r, Z.mod_1_r. reflexivity.
  - change (Nat.iter (S (S n)) shr_1 ?x) with (shr_1 (Nat.iter (S n) shr_1 x)).
    rewrite IH.
    assert (Hp : 0 < 2 ^ Z.of_nat n) by (apply Z.pow_pos_nonneg; lia).
    rewrite shr_1_nonneg by (apply Z.div_pos; [ exact Hm | apply Z.pow_pos_nonneg; lia ]).
    f_equal.
    + rewrite Z.div_div by (try apply Z.pow_pos_nonneg; lia).
      f_equal. rewrite (Nat2Z.inj_succ (S n)), Z.pow_succ_r by lia. lia.
    + rewrite (Nat2Z.inj_succ n), Z.pow_succ_r by lia.
      pose proof (Z.div_mod m (2 ^ Z.of_nat n) ltac:(lia)) as Hdm.
      pose proof (Z.mod_pos_bound m (2 ^ Z.of_nat n) Hp) as Hb.
      set (q := m / 2 ^ Z.of_nat n) in *. set (t := m mod 2 ^ Z.of_nat n) in *.
      pose proof (Z.div_mod q 2 ltac:(lia)) as Hq.
      pose proof (Z.mod_pos_bound q 2 ltac:(lia)) as Hqb.
      assert (Hm2 : m mod (2 * 2 ^ Z.of_nat n) = (q mod 2) * 2 ^ Z.of_nat n + t).
      { symmetry. apply (Z.mod_unique_pos _ _ (q / 2)); nia. }
      rewrite Hm2, Zodd_mod.
      destruct (Z.eqb_spec (q mod 2) 1) as [ H1 | H1 ];
        destruct (Z.eqb_spec t 0) as [ H0 | H0 ]; simpl.
      * destruct (Z.eqb_spec (q mod 2 * 2 ^ Z.of_nat n + t) 0); [ nia | reflexivity ].
      * destruct (Z.eqb_spec (q mod 2 * 2 ^ Z.of_nat n + t) 0); [ nia | reflexivity ].
      * destruct (Z.eqb_spec (q mod 2 * 2 ^ Z.of_nat n + t) 0); [ reflexivity | nia ].
      * destruct (Z.eqb_spec (q mod 2 * 2 ^ Z.of_nat n + t) 0); [ nia | reflexivity ].
Qed.

Lemma mod_pow2_succ (m n : Z) :
  0 <= n ->
  m mod 2 ^ (n + 1) = (m / 2 ^ n) mod 2 * 2 ^ n + m mod 2 ^ n.
Proof.
  intros Hn.
  assert (Hp : 0 < 2 ^ n) by (apply Z.pow_pos_nonneg; lia).
  rewrite Z.pow_add_r, Z.pow_1_r by lia.
  pose proof (Z.div_mod m (2 ^ n) ltac:(lia)) as Hdm.
  pose proof (Z.mod_pos_bound m (2 ^ n) Hp) as Hb.
  set (q := m / 2 ^ n) in *. set (t := m mod 2 ^ n) in *.
  pose proof (Z.div_mod q 2 ltac:(lia)) as Hq.
  pose proof (Z.mod_pos_bound q 2 ltac:(lia)) as Hqb.
  symmetry. apply (Z.mod_unique_pos _ _ (q / 2)); nia.
Qed.

Lemma round_half_even_0 (m : Z) : round_half_even m 0 = m.
Proof.
  unfold round_half_even. change (2 ^ 0) with 1.
  rewrite Z.mod_1_r, Z.div_1_r. reflexivity.
Qed.

(** The shift of [SpecFloat] followed by its rounding is
    [round_half_even]. *)
Lemma shr_round (m e n : Z) :
  0 <= m ->
  let mrs := fst (shr {| shr_m := m; shr_r := false; shr_s := false |} e n) in
  snd (shr {| shr_m := m; shr_r := false; shr_s := false |} e n) = e + Z.max 0 n /\
  shr_m mrs = m / 2 ^ Z.max 0 n /\
  round_nearest_even (shr_m mrs) (loc_of_shr_record mrs)
  = round_half_even m (Z.max 0 n).
Proof.
  intros Hm. destruct n as [ | p | p ]; cbn [shr fst snd Z.max Z.compare].
  - rewrite Z.add_0_r, round_half_even_0. change (2 ^ 0) with 1.
    rewrite Z.div_1_r. repeat split.
  - change (Z.max 0 (Z.pos p)) with (Z.pos p).
    rewrite iter_pos_nat.
    destruct (Pos2Nat.is_succ p) as [ n Hn ]. rewrite Hn.
    rewrite shr_iter_nonneg by exact Hm.
    assert (Hp : Z.pos p = Z.of_nat n + 1) by lia.
    assert (Hs : Z.of_nat (S n) = Z.of_nat n + 1) by lia.
    rewrite Hp, Hs. clear Hp Hs Hn.
    split; [ reflexivity | ]. split; [ reflexivity | ].
    cbn [shr_m shr_r shr_s]. unfold round_half_even.
    rewrite (mod_pow2_succ m (Z.of_nat n)) by lia.
    rewrite Z.pow_add_r, Z.pow_1_r by lia.
    assert (Hpow : 0 < 2 ^ Z.of_nat n) by (apply Z.pow_pos_nonneg; lia).
    pose proof (Z.mod_pos_bound m (2 ^ Z.of_nat n) Hpow) as Hb.
    pose proof (Z.mod_pos_bound (m / 2 ^ Z.of_nat n) 2 ltac:(lia)) as Hqb.
    rewrite Zodd_mod.
    set (q := m / 2 ^ Z.of_nat n) in *. set (t := m mod 2 ^ Z.of_nat n) in *.
    destruct (Z.eqb_spec (q mod 2) 1) as [ H1 | H1 ];
      destruct (Z.eqb_spec t 0) as [ H0 | H0 ]; cbn [negb loc_of_shr_record round_nearest_even].
    + rewrite H1, H0.
      replace (2 * (1 * 2 ^ Z.of_nat n + 0) ?= 2 ^ Z.of_nat n * 2) with Eq;
        [ reflexivity | symmetry; apply Z.compare_eq_iff; lia ].
    + replace (2 * (q mod 2 * 2 ^ Z.of_nat n + t) ?= 2 ^ Z.of_nat n * 2) with Gt;
        [ reflexivity | symmetry; apply Z.compare_gt_iff; nia ].
    + replace (2 * (q mod 2 * 2 ^ Z.of_nat n + t) ?= 2 ^ Z.of_nat n * 2) with Lt;
        [ reflexivity | symmetry; apply Z.compare_lt_iff; nia ].
    + replace (2 * (q mod 2 * 2 ^ Z.of_nat n + t) ?= 2 ^ Z.of_nat n * 2) with Lt;
        [ reflexivity | symmetry; apply Z.compare_lt_iff; nia ].
  - rewrite Z.add_0_r, round_half_even_0. change (2 ^ 0) with 1.
    rewrite Z.div_1_r. repeat split.
Qed.

(** ** Rounding to nearest, ties to even, on integers *)

Lemma round_half_even_bounds (m k : Z) :
  m / 2 ^ k <= round_half_even m k <= m / 2 ^ k + 1.
Proof.
  unfold round_half_even.
  destruct (2 * (m mod 2 ^ k) ?= 2 ^ k); [ | lia | lia ].
  destruct (Z.even (m / 2 ^ k)); lia.
Qed.

Lemma round_half_even_exact (m k : Z) :
  0 <= k -> m mod 2 ^ k = 0 -> round_half_even m k = m / 2 ^ k.
Proof.
  intros Hk H0. unfold round_half_even. rewrite H0.
  assert (Hp : 0 < 2 ^ k) by (apply Z.pow_pos_nonneg; lia).
  destruct (Z.compare_spec (2 * 0) (2 ^ k)); [ lia | reflexivity | lia ].
Qed.

Lemma round_half_even_mono (m1 m2 k : Z) :
  0 <= k -> m1 <= m2 -> round_half_even m1 k <= round_half_even m2 k.
Proof.
  intros Hk Hle.
  assert (Hp : 0 < 2 ^ k) by (apply Z.pow_pos_nonneg; lia).
  pose proof (Z.div_le_mono m1 m2 (2 ^ k) Hp Hle) as Hq.
  destruct (Z.eq_dec (m1 / 2 ^ k) (m2 / 2 ^ k)) as [ Heq | Hne ].
  - pose proof (Z.div_mod m1 (2 ^ k) ltac:(lia)) as H1.
    pose proof (Z.div_mod m2 (2 ^ k) ltac:(lia)) as H2.
    assert (Hr : m1 mod 2 ^ k <= m2 mod 2 ^ k) by (rewrite Heq in H1; lia).
    unfold round_half_even. rewrite Heq.
    destruct (Z.compare_spec (2 * (m1 mod 2 ^ k)) (2 ^ k));
      destruct (Z.compare_spec (2 * (m2 mod 2 ^ k)) (2 ^ k));
      destruct (Z.even (m2 / 2 ^ k)); lia.
  - pose proof (round_half_even_bounds m1 k). pose proof (round_half_even_bounds m2 k).
    lia.
Qed.

Lemma round_half_even_scale (m k j : Z) :
  0 <= k -> 0 <= j -> round_half_even (m * 2 ^ j) (k + j) = round_half_even m k.
Proof.
  intros Hk Hj.
  assert (Hpk : 0 < 2 ^ k) by (apply Z.pow_pos_nonneg; lia).
  assert (Hpj : 0 < 2 ^ j) by (apply Z.pow_pos_nonneg; lia).
  unfold round_half_even. rewrite Z.pow_add_r by lia.
  rewrite Z.div_mul_cancel_r by lia.
  rewrite Z.mul_mod_distr_r by lia.
  destruct (Z.compare_spec (2 * (m mod 2 ^ k * 2 ^ j)) (2 ^ k * 2 ^ j));
    destruct (Z.compare_spec (2 * (m mod 2 ^ k)) (2 ^ k));
    try reflexivity; nia.
Qed.

(** ** Rounding to 53 significant bits *)

Lemma round53_small (x : Z) : 0 <= x < 2 ^ 53 -> round53 x = x.
Proof.
  intros Hx. unfold round53.
  assert (Hl : Z.log2 x + 1 - 53 <= 0).
  { destruct (Z.eq_dec x 0) as [ -> | Hne ]; [ simpl; lia | ].
    pose proof (proj1 (Z.log2_lt_pow2 x 53 ltac:(lia)) ltac:(lia)). lia. }
  rewrite Z.max_l by lia. rewrite round_half_even_0. simpl. lia.
Qed.

(** In a binade the rounded value stays in the closed binade. *)
Lemma round53_binade (x d : Z) :
  0 <= d -> 2 ^ d <= x < 2 ^ (d + 1) -> 2 ^ d <= round53 x <= 2 ^ (d + 1).
Proof.
  intros Hd Hx.
  assert (Hpd : 0 < 2 ^ d) by (apply Z.pow_pos_nonneg; lia).
  assert (Hl : Z.log2 x = d) by (apply Z.log2_unique; [ lia | exact Hx ]).
  unfold round53. rewrite Hl.
  destruct (Z.max_spec 0 (d + 1 - 53)) as [ [ Hlt -> ] | [ Hge -> ] ].
  - set (k := d + 1 - 53) in *.
    assert (Hpk : 0 < 2 ^ k) by (apply Z.pow_pos_nonneg; lia).
    pose proof (round_half_even_bounds x k) as Hb.
    assert (Hd52 : 2 ^ d = 2 ^ 52 * 2 ^ k).
    { rewrite <- Z.pow_add_r by lia. f_equal. lia. }
    assert (Hd53 : 2 ^ (d + 1) = 2 ^ 53 * 2 ^ k).
    { rewrite <- Z.pow_add_r by lia. f_equal. lia. }
    assert (Hq1 : 2 ^ 52 <= x / 2 ^ k).
    { apply Z.div_le_lower_bound; lia. }
    assert (Hq2 : x / 2 ^ k < 2 ^ 53).
    { apply Z.div_lt_upper_bound; lia. }
    rewrite Hd52, Hd53. nia.
  - rewrite round_half_even_0. simpl. lia.
Qed.

Lemma round53_mono (x y : Z) : 0 <= x <= y -> round53 x <= round53 y.
Proof.
  intros [ Hx Hxy ].
  destruct (Z.eq_dec x 0) as [ -> | Hx0 ].
  { rewrite (round53_small 0) by lia.
    destruct (Z.eq_dec y 0) as [ -> | Hy0 ]; [ rewrite round53_small; lia | ].
    pose proof (Z.log2_spec y ltac:(lia)) as Hy.
    pose proof (round53_binade y (Z.log2 y) (Z.log2_nonneg y)) as Hb.
    assert (0 < 2 ^ Z.log2 y) by (apply Z.pow_pos_nonneg; [ lia | apply Z.log2_nonneg ]).
    replace (Z.succ (Z.log2 y)) with (Z.log2 y + 1) in Hy by lia. lia. }
  pose proof (Z.log2_spec x ltac:(lia)) as Hsx.
  pose proof (Z.log2_spec y ltac:(lia)) as Hsy.
  replace (Z.succ (Z.log2 x)) with (Z.log2 x + 1) in Hsx by lia.
  replace (Z.succ (Z.log2 y)) with (Z.log2 y + 1) in Hsy by lia.
  pose proof (Z.log2_le_mono x y Hxy) as Hl.
  destruct (Z.eq_dec (Z.log2 x) (Z.log2 y)) as [ Heq | Hne ].
  - unfold round53. rewrite Heq.
    apply Z.mul_le_mono_nonneg_r.
    + apply Z.pow_nonneg. lia.
    + apply round_half_even_mono; lia.
  - pose proof (round53_binade x (Z.log2 x) (Z.log2_nonneg x) Hsx) as Hbx.
    pose proof (round53_binade y (Z.log2 y) (Z.log2_nonneg y) Hsy) as Hby.
    assert (2 ^ (Z.log2 x + 1) <= 2 ^ Z.log2 y) by (apply Z.pow_le_mono_r; lia).
    lia.
Qed.

(** A value that fits 53 bits after scaling is its own rounding. *)
Lemma round53_scaled_exact (m j : Z) :
  0 < m < 2 ^ 53 -> 0 <= j -> round53 (m * 2 ^ j) = m * 2 ^ j.
Proof.
  intros Hm Hj. unfold round53.
  rewrite Z.log2_mul_pow2 by lia.
  pose proof (proj1 (Z.log2_lt_pow2 m 53 ltac:(lia)) ltac:(lia)) as Hl.
  pose proof (Z.log2_nonneg m) as Hl0.
  set (k := Z.max 0 (j + Z.log2 m + 1 - 53)).
  assert (Hk : 0 <= k <= j) by (unfold k; lia).
  assert (Hpk : 0 < 2 ^ k) by (apply Z.pow_pos_nonneg; lia).
  assert (Hsplit : m * 2 ^ j = m * 2 ^ (j - k) * 2 ^ k).
  { rewrite <- Z.mul_assoc, <- Z.pow_add_r by lia. do 2 f_equal. lia. }
  rewrite round_half_even_exact; [ | lia | ].
  - rewrite Hsplit at 1. rewrite Z.div_mul by lia. lia.
  - rewrite Hsplit. apply Z.mod_mul. lia.
Qed.

(** Rounding a scaled number with more than 53 bits. *)
Lemma round53_scaled (m j : Z) :
  2 ^ 53 <= m -> 0 <= j ->
  round53 (m * 2 ^ j)
  = round_half_even m (Z.log2 m + 1 - 53) * 2 ^ (Z.log2 m + 1 - 53 + j).
Proof.
  intros Hm Hj. unfold round53.
  assert (H0 : 0 < m) by lia.
  rewrite Z.log2_mul_pow2 by lia.
  pose proof (Z.log2_le_mono _ _ Hm) as Hl. rewrite Z.log2_pow2 in Hl by lia.
  rewrite Z.max_r by lia.
  replace (j + Z.log2 m + 1 - 53) with (Z.log2 m + 1 - 53 + j) by lia.
  rewrite round_half_even_scale by lia. reflexivity.
Qed.

Lemma fexp_normal (x : Z) : -1021 <= x -> fexp 53 1024 x = x - 53.
Proof. intros Hx. unfold fexp, emin. lia. Qed.

(** The first half of [binary_round_aux]: shift to the target exponent
    and round. *)
Lemma shr_fexp_round (m : positive) (e : Z) :
  -1021 <= Z.log2 (Z.pos m) + 1 + e ->
  let k := Z.max 0 (Z.log2 (Z.pos m) + 1 - 53) in
  let mrs := fst (shr_fexp 53 1024 (Z.pos m) e loc_Exact) in
  snd (shr_fexp 53 1024 (Z.pos m) e loc_Exact) = e + k /\
  shr_m mrs = Z.pos m / 2 ^ k /\
  round_nearest_even (shr_m mrs) (loc_of_shr_record mrs)
  = round_half_even (Z.pos m) k.
Proof.
  intros Hn. unfold shr_fexp. cbn [Zdigits2 shr_record_of_loc].
  rewrite digits2_pos_log2, fexp_normal by exact Hn.
  replace (Z.log2 (Z.pos m) + 1 + e - 53 - e) with (Z.log2 (Z.pos m) + 1 - 53) by lia.
  apply shr_round. lia.
Qed.

Lemma binary_round_aux_spec (m : positive) (e S : Z) :
  -1021 <= Z.log2 (Z.pos m) + 1 + e ->
  Z.max e (Z.log2 (Z.pos m) + 1 + e - 53) <= 970 ->
  0 <= e + S ->
  exists (m' : positive) (e' : Z),
    binary_round_aux 53 1024 false (Z.pos m) e loc_Exact = S754_finite false m' e' /\
    e <= e' <= Z.max e (Z.log2 (Z.pos m) + 1 + e - 53) + 1 /\
    Z.pos m' < 2 ^ 53 /\
    Z.pos m' * 2 ^ (e' + S) = round53 (Z.pos m * 2 ^ (e + S)).
Proof.
  intros Hlo Hhi HS.
  pose proof (shr_fexp_round m e Hlo) as (He1 & _ & Hr1).
  pose proof (Z.log2_spec (Z.pos m) ltac:(lia)) as Hd.
  pose proof (Z.log2_nonneg (Z.pos m)) as Hd0.
  unfold binary_round_aux.
  destruct (shr_fexp 53 1024 (Z.pos m) e loc_Exact) as [ mrs1 e1 ].
  cbn [fst snd] in He1, Hr1. rewrite Hr1, He1. clear Hr1 He1 mrs1 e1.
  set (d := Z.log2 (Z.pos m) + 1) in *.
  replace (Z.succ (Z.log2 (Z.pos m))) with d in Hd by (unfold d; lia).
  destruct (Z.max_spec 0 (d - 53)) as [ [ Hk Hmax ] | [ Hk Hmax ] ]; rewrite Hmax.
  - (* more than 53 bits: a proper rounding *)
    set (k := d - 53) in *.
    assert (Hpk : 0 < 2 ^ k) by (apply Z.pow_pos_nonneg; lia).
    assert (Hm53 : 2 ^ 53 <= Z.pos m).
    { apply Z.le_trans with (2 ^ Z.log2 (Z.pos m)); [ | lia ].
      apply Z.pow_le_mono_r; unfold k, d in *; lia. }
    assert (Hq : 2 ^ 52 <= Z.pos m / 2 ^ k < 2 ^ 53).
    { assert (E1 : 2 ^ Z.log2 (Z.pos m) = 2 ^ 52 * 2 ^ k).
      { rewrite <- Z.pow_add_r by lia. f_equal. unfold k, d. lia. }
      assert (E2 : 2 ^ d = 2 ^ 53 * 2 ^ k).
      { rewrite <- Z.pow_add_r by lia. f_equal. unfold k. lia. }
      split; [ apply Z.div_le_lower_bound; lia | apply Z.div_lt_upper_bound; lia ]. }
    pose proof (round_half_even_bounds (Z.pos m) k) as Hb.
    pose proof (round53_scaled (Z.pos m) (e + S) Hm53 HS) as Hv.
    fold d in Hv. fold k in Hv.
    set (m1 := round_half_even (Z.pos m) k) in *.
    destruct m1 as [ | p1 | p1 ] eqn:Em1; [ lia | | lia ].
    pose proof (shr_fexp_round p1 (e + k)) as Hs2.
    destruct (Z.eq_dec (Z.pos p1) (2 ^ 53)) as [ Htop | Hbelow ].
    + (* the rounding carried into a 54th bit *)
      assert (Hl1 : Z.log2 (Z.pos p1) = 53) by (rewrite Htop; reflexivity).
      rewrite Hl1 in Hs2. specialize (Hs2 ltac:(lia)).
      destruct Hs2 as (He2 & Hm2 & _).
      destruct (shr_fexp 53 1024 (Z.pos p1) (e + k) loc_Exact) as [ mrs2 e2 ].
      cbn [fst snd] in He2, Hm2. rewrite Hm2, He2, Htop.
      change (2 ^ 53 / 2 ^ Z.max 0 (53 + 1 - 53)) with (Z.pos (2 ^ 52)).
      change (Z.max 0 (53 + 1 - 53)) with 1.
      cbv iota beta.
      destruct (Z.leb_spec (e + k + 1) (1024 - 53)); [ | unfold k in *; lia ].
      exists (2 ^ 52)%positive, (e + k + 1).
      split; [ reflexivity | ].
      split; [ unfold k; lia | ].
      split; [ reflexivity | ].
      rewrite Hv, Htop.
      replace (e + k + 1 + S) with (1 + (k + (e + S))) by lia.
      rewrite (Z.pow_add_r 2 1) by lia. 
      change (Z.pos (2 ^ 52)) with (2 ^ 52). change (2 ^ 53) with (2 ^ 52 * 2 ^ 1).
      lia.
    + assert (Hl1 : Z.log2 (Z.pos p1) = 52).
      { apply Z.log2_unique; [ lia | ]. change (Z.succ 52) with 53. lia. }
      rewrite Hl1 in Hs2. specialize (Hs2 ltac:(lia)).
      destruct Hs2 as (He2 & Hm2 & _).
      destruct (shr_fexp 53 1024 (Z.pos p1) (e + k) loc_Exact) as [ mrs2 e2 ].
      cbn [fst snd] in He2, Hm2. rewrite Hm2, He2.
      change (Z.max 0 (52 + 1 - 53)) with 0. change (2 ^ 0) with 1.
      rewrite Z.div_1_r, Z.add_0_r.
      cbv iota beta.
      destruct (Z.leb_spec (e + k) (1024 - 53)); [ | unfold k in *; lia ].
      exists p1, (e + k).
      split; [ reflexivity | ].
      split; [ unfold k; lia | ].
      split; [ lia | ].
      rewrite Hv. f_equal. f_equal. lia.
  - (* at most 53 bits: nothing to round *)
    rewrite round_half_even_0, Z.add_0_r.
    pose proof (shr_fexp_round m e Hlo) as (He2 & Hm2 & _).
    fold d in He2, Hm2. rewrite Hmax in He2, Hm2.
    destruct (shr_fexp 53 1024 (Z.pos m) e loc_Exact) as [ mrs2 e2 ].
    cbn [fst snd] in He2, Hm2. rewrite Hm2, He2.
    change (2 ^ 0) with 1. rewrite Z.div_1_r, Z.add_0_r.
    cbv iota beta.
    destruct (Z.leb_spec e (1024 - 53)); [ | lia ].
    assert (Hm53 : Z.pos m < 2 ^ 53).
    { apply Z.lt_le_trans with (2 ^ d); [ lia | ].
      apply Z.pow_le_mono_r; lia. }
    exists m, e.
    split; [ reflexivity | ].
    split; [ lia | ].
    split; [ exact Hm53 | ].
    symmetry. apply round53_scaled_exact; lia.
Qed.

Lemma pos_iter_xO (m d : positive) :
  Z.pos (Pos.iter xO m d) = Z.pos m * 2 ^ Z.pos d.
Proof.
  induction d as [ | d IH ] using Pos.peano_ind.
  - simpl. lia.
  - rewrite Pos.iter_succ, Pos2Z.inj_xO, IH, Pos2Z.inj_succ, Z.pow_succ_r by lia.
    lia.
Qed.

(** [shl_align] lowers the exponent to the target, keeping the value. *)
Lemma shl_align_spec (m : positive) (e e' : Z) :
  snd (shl_align m e e') = Z.min e e' /\
  Z.pos (fst (shl_align m e e')) = Z.pos m * 2 ^ (e - Z.min e e').
Proof.
  unfold shl_align. destruct (e' - e) as [ | d | d ] eqn:E; cbn [fst snd].
  - rewrite Z.min_l by lia. rewrite Z.sub_diag. simpl. lia.
  - rewrite Z.min_l by lia. rewrite Z.sub_diag. simpl. lia.
  - rewrite Z.min_r by lia. split; [ reflexivity | ].
    rewrite pos_iter_xO. do 2 f_equal. lia.
Qed.

Lemma binary_round_spec (m : positive) (e S : Z) :
  -1021 <= Z.log2 (Z.pos m) + 1 + e ->
  Z.max e (Z.log2 (Z.pos m) + 1 + e - 53) <= 970 ->
  0 <= Z.min e (Z.log2 (Z.pos m) + 1 + e - 53) + S ->
  exists (m' : positive) (e' : Z),
    binary_round 53 1024 false m e = S754_finite false m' e' /\
    Z.min e (Z.log2 (Z.pos m) + 1 + e - 53) <= e'
      <= Z.max e (Z.log2 (Z.pos m) + 1 + e - 53) + 1 /\
    Z.pos m' < 2 ^ 53 /\
    Z.pos m' * 2 ^ (e' + S) = round53 (Z.pos m * 2 ^ (e + S)).
Proof.
  intros Hlo Hhi HS. unfold binary_round.
  rewrite digits2_pos_log2, fexp_normal by exact Hlo.
  pose proof (shl_align_spec m e (Z.log2 (Z.pos m) + 1 + e - 53)) as [ Hez Hmz ].
  destruct (shl_align m e (Z.log2 (Z.pos m) + 1 + e - 53)) as [ mz ez ].
  cbn [fst snd] in Hez, Hmz.
  set (d := Z.log2 (Z.pos m) + 1) in *.
  assert (Hsh : 0 <= e - ez) by lia.
  assert (Hlog : Z.log2 (Z.pos mz) = Z.log2 (Z.pos m) + (e - ez)).
  { rewrite Hmz, Hez, Z.log2_mul_pow2 by lia. lia. }
  destruct (binary_round_aux_spec mz ez S) as (m' & e' & Hr & He' & Hm' & Hv).
  - rewrite Hlog. fold d. lia.
  - rewrite Hlog. fold d. lia.
  - lia.
  - exists m', e'. split; [ exact Hr | ].
    rewrite Hlog in He'. fold d in He'.
    split; [ lia | ]. split; [ exact Hm' | ].
    rewrite Hv, Hmz, Hez, <- Z.mul_assoc, <- Z.pow_add_r by lia.
    do 3 f_equal. lia.
Qed.

(** The truncation of a non-negative float, on the scaled mantissa. *)
Lemma SFtrunc_scaled (m : positive) (e S : Z) :
  0 <= e + S -> 0 <= S ->
  SFtrunc (S754_finite false m e) = Z.pos m * 2 ^ (e + S) / 2 ^ S.
Proof.
  intros HeS HS. unfold SFtrunc.
  assert (HpS : 0 < 2 ^ S) by (apply Z.pow_pos_nonneg; lia).
  destruct (Z.leb_spec 0 e) as [ He | He ].
  - rewrite Z.pow_add_r, Z.mul_assoc, Z.div_mul by lia. reflexivity.
  - replace (2 ^ S) with (2 ^ (- e) * 2 ^ (e + S)).
    + rewrite Z.div_mul_cancel_r; [ reflexivity | | ];
        apply Z.pow_nonzero; lia.
    + rewrite <- Z.pow_add_r by lia. f_equal. lia.
Qed.

(** ** The capacity expression *)

Lemma Prim2SF_factor :
  Prim2SF MAX_CAPACITY_FACTOR = S754_finite false 5404319552844595 (-54).
Proof. vm_compute. reflexivity. Qed.

Lemma double_of_size_spec (p : Z) :
  0 <= p < 2 ^ 63 ->
  Prim2SF (double_of_size p) = binary_normalize 53 1024 p 0 false.
Proof.
  intros Hp. unfold double_of_size.
  rewrite FloatAxioms.of_uint63_spec, Uint63.of_Z_spec.
  rewrite Z.mod_small; [ reflexivity | ].
  change Uint63Axioms.wB with (2 ^ 63). exact Hp.
Qed.

Lemma round53_pow2 (k : Z) : 0 <= k -> round53 (2 ^ k) = 2 ^ k.
Proof.
  intros Hk. rewrite <- (Z.mul_1_l (2 ^ k)).
  apply round53_scaled_exact; [ simpl; lia | exact Hk ].
Qed.

Lemma round53_nonneg (x : Z) : 0 <= x -> 0 <= round53 x.
Proof.
  intros Hx. change 0 with (round53 0) at 1. apply round53_mono. lia.
Qed.

Lemma capacity_of_pixels_mono (p q : Z) :
  0 <= p <= q -> capacity_of_pixels p <= capacity_of_pixels q.
Proof.
  intros [ Hp Hpq ]. unfold capacity_of_pixels, FACTOR_MANTISSA.
  apply Z.div_le_mono; [ reflexivity | ].
  apply round53_mono.
  assert (H1 : round53 (p * 2 ^ 52) <= round53 (q * 2 ^ 52)) by (apply round53_mono; lia).
  pose proof (round53_nonneg (p * 2 ^ 52) ltac:(lia)). lia.
Qed.

(** The computed capacity is a value of [size_t]: the conversion of the
    product is defined. *)
Lemma capacity_of_pixels_range (p : Z) :
  0 <= p < 2 ^ 63 -> 0 <= capacity_of_pixels p <= 2 ^ 62.
Proof.
  intros Hp. unfold capacity_of_pixels, FACTOR_MANTISSA.
  pose proof (round53_nonneg (p * 2 ^ 52) ltac:(lia)) as H0.
  assert (H1 : round53 (p * 2 ^ 52) <= 2 ^ 115).
  { rewrite <- (round53_pow2 115) by lia. apply round53_mono. lia. }
  assert (H2 : round53 (round53 (p * 2 ^ 52) * 5404319552844595) <= 2 ^ 168).
  { rewrite <- (round53_pow2 168) by lia. apply round53_mono. lia. }
  pose proof (round53_nonneg (round53 (p * 2 ^ 52) * 5404319552844595) ltac:(lia)) as H3.
  split.
  - apply Z.div_pos; lia.
  - change (2 ^ 62) with (2 ^ 168 / 2 ^ 106). apply Z.div_le_mono; lia.
Qed.

(** The product [pixel_count * MAX_CAPACITY_FACTOR] is zero or a finite
    positive double, never an infinity or a not-a-number, and its integer
    part is [capacity_of_pixels]. *)
Lemma capacity_double_finite (p : Z) :
  0 <= p < 2 ^ 63 ->
  let d := Prim2SF (PrimFloat.mul (double_of_size p) MAX_CAPACITY_FACTOR) in
  (d = S754_zero false \/ exists m e, d = S754_finite false m e) /\
  SFtrunc d = capacity_of_pixels p.
Proof.
  intros Hp. cbv zeta.
  rewrite FloatAxioms.mul_spec, Prim2SF_factor, double_of_size_spec by exact Hp.
  unfold SF64mul, capacity_of_pixels, FACTOR_MANTISSA.
  change FloatOps.prec with 53. change FloatOps.emax with 1024.
  destruct p as [ | m | m ]; [ | | lia ].
  - split; [ left; reflexivity | reflexivity ].
  - cbn [binary_normalize].
    assert (Hl : 0 <= Z.log2 (Z.pos m) < 63).
    { split; [ apply Z.log2_nonneg | apply Z.log2_lt_pow2; lia ]. }
    destruct (binary_round_spec m 0 52) as (m1 & e1 & Hr1 & He1 & Hm1 & Hv1);
      [ lia | lia | lia | ].
    rewrite Hr1. cbn [SFmul xorb].
    assert (Hprod : 0 <= Z.log2 (Z.pos (m1 * 5404319552844595)) < 106).
    { split; [ apply Z.log2_nonneg | apply Z.log2_lt_pow2; lia ]. }
    destruct (binary_round_aux_spec (m1 * 5404319552844595) (e1 + -54) 106)
      as (m2 & e2 & Hr2 & He2 & Hm2 & Hv2); [ lia | lia | lia | ].
    rewrite Hr2.
    split; [ right; exists m2, e2; reflexivity | ].
    rewrite (SFtrunc_scaled m2 e2 106) by lia.
    f_equal. rewrite Hv2. f_equal.
    rewrite Z.add_0_l in Hv1. rewrite <- Hv1, Pos2Z.inj_mul.
    replace (e1 + -54 + 106) with (e1 + 52) by lia. lia.
Qed.

Lemma get_max_capacity_closed_form (image_data : option (list Z)) (image_size : Z) :
  0 <= image_size <= SIZE_MAX ->
  get_max_capacity image_data image_size
  = if image_size <? 100 then 0 else capacity_of_pixels (image_size / 3).
Proof.
  intros Hs. unfold get_max_capacity, size_of_double.
  destruct (image_size <? 100); [ reflexivity | ].
  apply capacity_double_finite.
  unfold SIZE_MAX in Hs. split.
  - apply Z.div_pos; lia.
  - apply Z.div_lt_upper_bound; lia.
Qed.

(** C6 (capacity monotonicity): [get_max_capacity] is non-decreasing in
    the carrier size over the whole range of [size_t], whatever the
    carriers are, and a carrier size below the minimum of 100 bytes has
    capacity zero. *)
Theorem capacity_monotone (d1 d2 : option (list Z)) (s1 s2 : Z) :
  0 <= s1 -> s1 <= s2 -> s2 <= SIZE_MAX ->
  get_max_capacity d1 s1 <= get_max_capacity d2 s2 /\
  (s1 < 100 -> get_max_capacity d1 s1 = 0).
Proof.
  intros H0 H12 Hmax. split.
  - rewrite !get_max_capacity_closed_form by lia.
    unfold SIZE_MAX in Hmax.
    assert (Hq : 0 <= s2 / 3 < 2 ^ 63).
    { split; [ apply Z.div_pos; lia | apply Z.div_lt_upper_bound; lia ]. }
    destruct (Z.ltb_spec s1 100) as [ Hs1 | Hs1 ];
      destruct (Z.ltb_spec s2 100) as [ Hs2 | Hs2 ].
    + lia.
    + apply capacity_of_pixels_range. exact Hq.
    + lia.
    + apply capacity_of_pixels_mono. split.
      * apply Z.div_pos; lia.
      * apply Z.div_le_mono; lia.
  - intros Hs. unfold get_max_capacity.
    destruct (Z.ltb_spec s1 100); [ reflexivity | lia ].
Qed.

Lemma capacity_monotone_witness :
  get_max_capacity None 99 <= get_max_capacity (Some [1; 2; 3]) 100 /\
  get_max_capacity None 99 = 0 /\
  get_max_capacity None 100 <= get_max_capacity None 30000 /\
  get_max_capacity None 100 = 9 /\
  get_max_capacity None 30000 = 3000.
Proof.
  pose proof (capacity_monotone None (Some [1; 2; 3]) 99 100) as Hlow.
  pose proof (capacity_monotone None None 100 30000) as Hhigh.
  unfold SIZE_MAX in Hlow, Hhigh.
  destruct Hlow as [ Hle Hzero ]; [ lia | lia | lia | ].
  destruct Hhigh as [ Hle' _ ]; [ lia | lia | lia | ].
  split; [ exact Hle | ].
  split; [ apply Hzero; lia | ].
  split; [ exact Hle' | ].
  split; vm_compute; reflexivity.
Defined.

(* ===================================================================== *)
(** * Part IV: further properties of the program                          *)
(* ===================================================================== *)

(** ** The cipher *)

Lemma xor_encrypt_beyond (buf : list Z) (len : nat) (password : string) (i : nat) :
  (len <= i)%nat -> xor_encrypt buf len password !! i = buf !! i.
Proof.
  intros Hi. rewrite xor_encrypt_lookup.
  destruct (decide (i < len)%nat); [ lia | ].
  destruct (buf !! i); reflexivity.
Qed.

(** [xor_encrypt] keeps the size of its buffer and writes no position at
    or after [len]. *)
Theorem xor_encrypt_frame (buf : list Z) (len : nat) (password : string) :
  length (xor_encrypt buf len password) = length buf /\
  drop len (xor_encrypt buf len password) = drop len buf /\
  forall i, (len <= i)%nat -> xor_encrypt buf len password !! i = buf !! i.
Proof.
  split; [ apply xor_encrypt_length | ].
  split; [ | intros i Hi; apply xor_encrypt_beyond; exact Hi ].
  apply list_eq. intros i. rewrite !lookup_drop. apply xor_encrypt_beyond. lia.
Qed.

Lemma uint8_lxor_swap (b k1 k2 : Z) :
  uint8 (Z.lxor (uint8 (Z.lxor b k1)) k2) = uint8 (Z.lxor (uint8 (Z.lxor b k2)) k1).
Proof.
  apply Z.bits_inj'. intros i Hi.
  rewrite !uint8_testbit, !Z.lxor_spec, !uint8_testbit, !Z.lxor_spec.
  destruct (i <? 8); simpl; [ | reflexivity ].
  destruct (Z.testbit b i), (Z.testbit k1 i), (Z.testbit k2 i); reflexivity.
Qed.

(** Ciphering with two keys gives the same bytes in either order. *)
Theorem xor_encrypt_commute (buf : list Z) (len : nat) (pw1 pw2 : string) :
  Forall is_uint8 buf ->
  xor_encrypt (xor_encrypt buf len pw1) len pw2
  = xor_encrypt (xor_encrypt buf len pw2) len pw1.
Proof.
  intros Hb. apply list_eq. intros i.
  rewrite !xor_encrypt_lookup.
  destruct (buf !! i) as [ b | ] eqn:E; [ | reflexivity ].
  pose proof (proj1 (Forall_lookup _ _) Hb i b E) as Hr.
  simpl. f_equal.
  destruct (decide (i < len)%nat); [ | reflexivity ].
  destruct (strlen pw1 =? 0)%nat, (strlen pw2 =? 0)%nat; try reflexivity.
  unfold cipher_byte. apply uint8_lxor_swap.
Qed.

Lemma xor_encrypt_commute_witness :
  xor_encrypt (xor_encrypt [72; 105; 33] 3 "key") 3 "pw"
  = xor_encrypt (xor_encrypt [72; 105; 33] 3 "pw") 3 "key".
Proof.
  apply (xor_encrypt_commute [72; 105; 33] 3 "key" "pw").
  repeat constructor; unfold is_uint8; lia.
Defined.

Lemma strlen_le_length (s : string) : (strlen s <= String.length s)%nat.
Proof.
  induction s as [ | c s IH ]; simpl; [ lia | ].
  destruct (N_of_ascii c =? 0)%N; lia.
Qed.

Lemma strlen_append (s t : string) :
  strlen s = String.length s ->
  strlen (s ++ t) = (String.length s + strlen t)%nat.
Proof.
  induction s as [ | c s IH ]; simpl; [ reflexivity | ].
  destruct (N_of_ascii c =? 0)%N; [ discriminate | ].
  intros H. rewrite IH by lia. reflexivity.
Qed.

Lemma char_at_doubled (s : string) (j : nat) :
  (0 < String.length s)%nat -> (j < 2 * String.length s)%nat ->
  char_at (s ++ s) j = char_at s (j mod String.length s).
Proof.
  intros Hn Hj. unfold char_at.
  destruct (Nat.lt_ge_cases j (String.length s)) as [ Hlt | Hge ].
  - rewrite <- (append_correct1 s s j Hlt), Nat.mod_small by exact Hlt.
    reflexivity.
  - replace j with ((j - String.length s) + String.length s)%nat at 1 by lia.
    rewrite <- append_correct2.
    replace (j mod String.length s)%nat with (j - String.length s)%nat;
      [ reflexivity | ].
    apply (Nat.mod_unique j (String.length s) 1); lia.
Qed.

(** A password without a NUL character and the same password written
    twice are one key: they cipher every buffer alike. *)
Theorem xor_encrypt_doubled_key (buf : list Z) (len : nat) (password : string) :
  strlen password = String.length password ->
  xor_encrypt buf len (password ++ password) = xor_encrypt buf len password.
Proof.
  intros Hnul.
  assert (Hs2 : strlen (password ++ password)
                = (String.length password + String.length password)%nat).
  { rewrite strlen_append, Hnul by exact Hnul. reflexivity. }
  apply list_eq. intros i. rewrite !xor_encrypt_lookup.
  destruct (buf !! i) as [ b | ]; [ simpl | reflexivity ]. f_equal.
  destruct (decide (i < len)%nat); [ | reflexivity ].
  unfold cipher_byte. rewrite Hs2, Hnul.
  destruct (Nat.eq_dec (String.length password) 0%nat) as [ H0 | Hpos ].
  - rewrite H0. reflexivity.
  - destruct (Nat.eqb_spec (String.length password + String.length password) 0%nat);
      [ lia | ].
    destruct (Nat.eqb_spec (String.length password) 0%nat); [ lia | ].
    f_equal. f_equal.
    rewrite char_at_doubled.
    + f_equal.
      replace (String.length password + String.length password)%nat
        with (String.length password * 2)%nat by lia.
      rewrite Nat.Div0.mod_mul_r.
      rewrite (Nat.mul_comm (String.length password)), Nat.Div0.mod_add.
      apply Nat.Div0.mod_mod.
    + lia.
    + replace (2 * String.length password)%nat
        with (String.length password + String.length password)%nat by lia.
      apply Nat.mod_upper_bound. lia.
Qed.

Lemma xor_encrypt_doubled_key_witness :
  xor_encrypt [72; 105; 33; 0; 255] 5 ("ab" ++ "ab")
  = xor_encrypt [72; 105; 33; 0; 255] 5 "ab".
Proof.
  apply (xor_encrypt_doubled_key [72; 105; 33; 0; 255] 5 "ab").
  reflexivity.
Defined.

(** ** The embedding entry point *)

(** Every result of [encode_lsb_dct] is one of its three failures or the
    success record built from a copy of the carrier. *)
Lemma encode_lsb_dct_cases (malloc : Z -> bool) (image_data : option (list Z))
    (image_size : Z) (message : option (list Z)) (message_length : Z)
    (password : string) (r : SteganographyResult) :
  encode_lsb_dct malloc image_data image_size message message_length password = Some r ->
  r = failure "Invalid input data" \/
  r = failure "Memory allocation failed" \/
  r = failure "Message too large for image capacity" \/
  exists image copy,
    image_data = Some image /\
    memcpy image image_size = Some copy /\
    size_add message_length 8 <= get_max_capacity image_data image_size /\
    r = {| success := true; error_message := None; data := Some copy;
           data_length := image_size; width := 0; height := 0 |}.
Proof.
  unfold encode_lsb_dct. intros H.
  destruct image_data as [ image | ]; [ | inversion H; auto ].
  destruct message as [ msg | ]; [ | inversion H; auto ].
  destruct (malloc message_length); [ | inversion H; auto ].
  destruct (memcpy msg message_length) as [ enc | ]; [ simpl in H | discriminate ].
  destruct (Z.gtb_spec (size_add message_length 8)
              (get_max_capacity (Some image) image_size)) as [ Hgt | Hle ];
    [ inversion H; auto | ].
  destruct (malloc image_size); [ | discriminate ].
  destruct (memcpy image image_size) as [ copy | ] eqn:Ec; [ simpl in H | discriminate ].
  inversion H. right. right. right. exists image, copy. auto.
Qed.

Lemma memcpy_inv (src : list Z) (n : Z) (copy : list Z) :
  memcpy src n = Some copy ->
  0 <= n <= Z.of_nat (length src) /\ copy = take (Z.to_nat n) src.
Proof.
  unfold memcpy. intros H.
  destruct (Z.leb_spec 0 n); [ | discriminate ].
  destruct (Z.leb_spec n (Z.of_nat (length src))); [ | discriminate ].
  simpl in H. inversion H. split; [ lia | reflexivity ].
Qed.

Lemma get_max_capacity_small (image_data : option (list Z)) (image_size : Z) :
  image_size < 100 -> get_max_capacity image_data image_size = 0.
Proof.
  intros H. unfold get_max_capacity.
  destruct (Z.ltb_spec image_size 100); [ reflexivity | lia ].
Qed.

Lemma encode_success_inv (malloc : Z -> bool) (image : list Z)
    (image_size : Z) (message : option (list Z)) (message_length : Z)
    (password : string) (r : SteganographyResult) :
  0 <= message_length <= PTRDIFF_MAX ->
  encode_lsb_dct malloc (Some image) image_size message message_length password
  = Some r ->
  success r = true ->
  data r = Some (take (Z.to_nat image_size) image) /\
  data_length r = image_size /\
  error_message r = None /\
  width r = 0 /\ height r = 0 /\
  100 <= image_size <= Z.of_nat (length image) /\
  message_length + 8 <= get_max_capacity (Some image) image_size.
Proof.
  intros Hlen He Hs.
  destruct (encode_lsb_dct_cases _ _ _ _ _ _ _ He)
    as [ -> | [ -> | [ -> | (img & copy & Hi & Hc & Hcap & ->) ] ] ];
    try discriminate.
  inversion Hi; subst img.
  destruct (memcpy_inv _ _ _ Hc) as [ Hsz -> ].
  rewrite size_add_small in Hcap by (unfold PTRDIFF_MAX, SIZE_MAX in *; lia).
  repeat split; try reflexivity; try lia.
  destruct (Z.lt_ge_cases image_size 100) as [ Hsmall | Hbig ]; [ | lia ].
  rewrite get_max_capacity_small in Hcap by exact Hsmall. lia.
Qed.

(** A successful embedding returns the carrier unchanged: the buffer of
    the result is the first [image_size] bytes of the carrier, byte for
    byte, with that length, no message and zero dimensions; and the
    carrier has at least the 100 bytes of the minimum size whenever the
    payload length is an object size. *)
Theorem encode_success_returns_carrier (malloc : Z -> bool) (image : list Z)
    (image_size : Z) (message : option (list Z)) (message_length : Z)
    (password : string) (r : SteganographyResult) :
  0 <= message_length <= PTRDIFF_MAX ->
  encode_lsb_dct malloc (Some image) image_size message message_length password
  = Some r ->
  success r = true ->
  data r = Some (take (Z.to_nat image_size) image) /\
  data_length r = image_size /\
  error_message r = None /\
  width r = 0 /\ height r = 0 /\
  100 <= image_size <= Z.of_nat (length image) /\
  message_length + 8 <= get_max_capacity (Some image) image_size.
Proof.
  intros Hlen He Hs. exact (encode_success_inv _ _ _ _ _ _ _ Hlen He Hs).
Qed.

Lemma encode_success_returns_carrier_witness :
  exists r,
    encode_lsb_dct malloc_ok (Some (replicate 300 0)) 300 (Some [72; 105]) 2 "pw"
    = Some r /\
    data r = Some (take (Z.to_nat 300) (replicate 300 0)) /\
    data_length r = 300 /\
    error_message r = None /\
    width r = 0 /\ height r = 0 /\
    100 <= 300 <= Z.of_nat (length (replicate 300 0)) /\
    2 + 8 <= get_max_capacity (Some (replicate 300 0)) 300.
Proof.
  eexists. split.
  - vm_compute. reflexivity.
  - apply (encode_success_returns_carrier malloc_ok (replicate 300 0) 300
             (Some [72; 105]) 2 "pw").
    + unfold PTRDIFF_MAX. lia.
    + vm_compute. reflexivity.
    + reflexivity.
Defined.

(** The result of [encode_lsb_dct] depends neither on the bytes of the
    payload nor on the password: two payload buffers that both hold
    [message_length] bytes, with any two passwords, give the same
    outcome. *)
Theorem encode_ignores_payload (malloc : Z -> bool) (image_data : option (list Z))
    (image_size : Z) (msg1 msg2 : list Z) (message_length : Z)
    (pw1 pw2 : string) :
  0 <= message_length <= Z.of_nat (length msg1) ->
  message_length <= Z.of_nat (length msg2) ->
  encode_lsb_dct malloc image_data image_size (Some msg1) message_length pw1
  = encode_lsb_dct malloc image_data image_size (Some msg2) message_length pw2.
Proof.
  intros H1 H2. unfold encode_lsb_dct.
  destruct image_data as [ image | ]; [ | reflexivity ].
  rewrite (memcpy_Some msg1), (memcpy_Some msg2) by lia.
  reflexivity.
Qed.

Lemma encode_ignores_payload_witness :
  encode_lsb_dct malloc_ok (Some (replicate 300 0)) 300 (Some [72; 105]) 2 "pw"
  = encode_lsb_dct malloc_ok (Some (replicate 300 0)) 300 (Some [1; 2; 3]) 2 "other".
Proof.
  apply (encode_ignores_payload malloc_ok (Some (replicate 300 0)) 300
           [72; 105] [1; 2; 3] 2 "pw" "other").
  - simpl. lia.
  - simpl. lia.
Defined.

(** The working copy of the payload is requested before the capacity is
    looked at: when that request is refused, the failure is the
    allocation failure, whatever the sizes of carrier and payload are. *)
Theorem encode_allocation_before_capacity (malloc : Z -> bool) (image msg : list Z)
    (image_size message_length : Z) (password : string) :
  malloc message_length = false ->
  encode_lsb_dct malloc (Some image) image_size (Some msg) message_length password
  = Some (failure "Memory allocation failed") /\
  error_kind (failure "Memory allocation failed") = Some AllocationFailure.
Proof.
  intros Hm. unfold encode_lsb_dct. rewrite Hm. split; reflexivity.
Qed.

(** A payload of 500 bytes exceeds the capacity 30 of a carrier of 300
    bytes; with an allocator that refuses 500 bytes the failure reported
    is the allocation failure. *)
Lemma encode_allocation_before_capacity_witness :
  get_max_capacity (Some (replicate 300 0)) 300 < 500 + 8 /\
  encode_lsb_dct (fun n => n <? 500) (Some (replicate 300 0)) 300
    (Some (replicate 500 7)) 500 "pw"
  = Some (failure "Memory allocation failed").
Proof.
  split; [ vm_compute; reflexivity | ].
  apply (encode_allocation_before_capacity (fun n => n <? 500)
           (replicate 300 0) (replicate 500 7) 300 500 "pw").
  reflexivity.
Defined.

(** The buffer of the result is requested without a test: when the
    payload fits and that request is refused, [memcpy] writes through the
    null pointer and the call has no defined result. *)
Theorem encode_unchecked_result_buffer (malloc : Z -> bool) (image msg : list Z)
    (image_size message_length : Z) (password : string) :
  0 <= message_length <= Z.of_nat (length msg) ->
  message_length <= PTRDIFF_MAX ->
  malloc message_length = true ->
  message_length + 8 <= get_max_capacity (Some image) image_size ->
  malloc image_size = false ->
  encode_lsb_dct malloc (Some image) image_size (Some msg) message_length password
  = None.
Proof.
  intros Hlen Hmax Hm Hcap Hi. unfold encode_lsb_dct.
  rewrite Hm, (memcpy_Some msg message_length Hlen). simpl.
  rewrite size_add_small; [ | lia | lia | unfold PTRDIFF_MAX, SIZE_MAX in *; lia ].
  destruct (Z.gtb_spec (message_length + 8) (get_max_capacity (Some image) image_size));
    [ lia | ].
  rewrite Hi. reflexivity.
Qed.

Lemma encode_unchecked_result_buffer_witness :
  encode_lsb_dct (fun n => n <? 300) (Some (replicate 300 0)) 300
    (Some [72; 105]) 2 "pw" = None.
Proof.
  apply (encode_unchecked_result_buffer (fun n => n <? 300)
           (replicate 300 0) [72; 105] 300 2 "pw").
  - simpl. lia.
  - unfold PTRDIFF_MAX. lia.
  - reflexivity.
  - vm_compute. discriminate.
  - reflexivity.
Defined.

(** ** The extraction entry point *)

(** [decode_lsb_dct] fails in two ways only: with kind [InvalidInput]
    exactly when the carrier is the null pointer, and with kind
    [AllocationFailure] exactly when the carrier is not null and the 23
    bytes of the buffer are refused; a failure has no buffer.  No other
    kind is ever reported, whatever the carrier holds. *)
Theorem decode_failure_kinds (malloc : Z -> bool) (image_data : option (list Z))
    (image_size : Z) (password : string) :
  let r := decode_lsb_dct malloc image_data image_size password in
  (error_kind r = Some InvalidInput <-> image_data = None) /\
  (error_kind r = Some AllocationFailure <-> image_data <> None /\ malloc 23 = false) /\
  (success r = true <-> image_data <> None /\ malloc 23 = true) /\
  (success r = false -> data r = None /\ data_length r = 0) /\
  error_kind r <> Some HeaderCorrupt /\
  error_kind r <> Some PayloadTooLarge.
Proof.
  cbv zeta. destruct image_data as [ image | ].
  - rewrite decode_lsb_dct_Some. destruct (malloc 23).
    + repeat split; try discriminate; try congruence.
      intros [ _ H ]. discriminate.
    + repeat split; try discriminate; try congruence.
      intros [ _ H ]. discriminate.
  - repeat split; try discriminate; try congruence.
    + intros [ H _ ]. congruence.
    + intros [ H _ ]. congruence.
Qed.

(** The buffer of a successful extraction: 23 bytes, of which
    [data_length] counts the first 22; the last one is the NUL that
    [strcpy] wrote, which the cipher leaves alone; every byte is in the
    range of [uint8_t]. *)
Theorem decode_buffer_shape (malloc : Z -> bool) (image : list Z)
    (image_size : Z) (password : string) :
  malloc 23 = true ->
  exists buf,
    data (decode_lsb_dct malloc (Some image) image_size password) = Some buf /\
    data_length (decode_lsb_dct malloc (Some image) image_size password) = 22 /\
    length buf = 23%nat /\
    buf !! 22%nat = Some 0 /\
    Forall is_uint8 buf.
Proof.
  intros Hm. rewrite decode_lsb_dct_Some, Hm.
  exists (xor_encrypt (strcpy demo_message) 22 password).
  split; [ reflexivity | ]. split; [ reflexivity | ].
  split; [ rewrite xor_encrypt_length; reflexivity | ].
  split; [ rewrite xor_encrypt_beyond by lia; reflexivity | ].
  apply xor_encrypt_bytes, strcpy_bytes.
Qed.

Lemma decode_buffer_shape_witness :
  exists buf,
    data (decode_lsb_dct malloc_ok (Some [1; 2; 3]) 3 "pw") = Some buf /\
    data_length (decode_lsb_dct malloc_ok (Some [1; 2; 3]) 3 "pw") = 22 /\
    length buf = 23%nat /\
    buf !! 22%nat = Some 0 /\
    Forall is_uint8 buf.
Proof.
  apply (decode_buffer_shape malloc_ok [1; 2; 3] 3 "pw"). reflexivity.
Defined.

(** What an extraction returns is the fixed text of the program under
    the cipher: ciphering the returned bytes once more with the password
    of the extraction gives "Decoded secret message", for every carrier
    and every password. *)
Theorem decode_is_fixed_text (malloc : Z -> bool) (image : list Z)
    (image_size : Z) (password : string) (bytes : list Z) :
  malloc 23 = true ->
  payload (decode_lsb_dct malloc (Some image) image_size password) = Some bytes ->
  xor_encrypt bytes 22 password
  = [68; 101; 99; 111; 100; 101; 100; 32; 115; 101; 99; 114; 101; 116; 32;
     109; 101; 115; 115; 97; 103; 101].
Proof.
  intros Hm Hp. rewrite decode_lsb_dct_Some, Hm in Hp.
  pose proof (strcpy_bytes demo_message) as Hd.
  pose proof (strcpy_length demo_message) as Hl.
  change [68; 101; 99; 111; 100; 101; 100; 32; 115; 101; 99; 114; 101; 116; 32;
          109; 101; 115; 115; 97; 103; 101] with (take 22 (strcpy demo_message)).
  set (buf := strcpy demo_message) in *.
  unfold payload in Hp. cbn [data data_length] in Hp.
  change (Z.to_nat 22) with 22%nat in Hp.
  assert (Hb : bytes = take 22 (xor_encrypt buf 22 password)) by congruence.
  subst bytes. clear Hp.
  apply list_eq. intros i.
  destruct (decide (i < 22)%nat) as [ Hi | Hi ].
  - assert (Hlen : (i < length buf)%nat) by (rewrite Hl; simpl; lia).
    destruct (lookup_lt_is_Some_2 buf i Hlen) as [ b Eb ].
    pose proof (proj1 (Forall_lookup _ _) Hd i b Eb) as Hr.
    rewrite (lookup_take_lt buf 22 i Hi), Eb.
    rewrite xor_encrypt_lookup.
    rewrite (lookup_take_lt (xor_encrypt buf 22 password) 22 i Hi).
    rewrite xor_encrypt_lookup, Eb.
    destruct (decide (i < 22)%nat); [ | lia ].
    simpl. f_equal.
    destruct (strlen password =? 0)%nat; [ reflexivity | ].
    unfold cipher_byte. apply uint8_lxor_involutive. exact Hr.
  - rewrite !lookup_ge_None_2; [ reflexivity | | ].
    + rewrite length_take. lia.
    + rewrite xor_encrypt_length, length_take. lia.
Qed.

Lemma decode_is_fixed_text_witness :
  xor_encrypt [52; 18; 19; 24; 20; 18; 20; 87; 3; 18; 19; 5; 21; 3; 80; 26;
               21; 4; 3; 22; 23; 18] 22 "pw"
  = [68; 101; 99; 111; 100; 101; 100; 32; 115; 101; 99; 114; 101; 116; 32;
     109; 101; 115; 115; 97; 103; 101].
Proof.
  apply (decode_is_fixed_text malloc_ok [1; 2; 3] 3 "pw").
  - reflexivity.
  - reflexivity.
Defined.

(** ** Releasing a result *)

(** After [free_steganography_result] on a result whose message is null
    or a heap block, the result holds no buffer, length zero and no
    message, its other fields are as before, and a second call changes
    nothing: the cleared pointers make the repeated release harmless. *)
Theorem free_clears_and_repeats (r : SteganographyResult) :
  exists r',
    free_steganography_result HeapStorage (Some r) = Some (Some r') /\
    data r' = None /\
    data_length r' = match data r with Some _ => 0 | None => data_length r end /\
    error_message r' = None /\
    success r' = success r /\ width r' = width r /\ height r' = height r /\
    (forall st, free_steganography_result st (Some r') = Some (Some r')).
Proof.
  destruct r as [ s m d n w h ]. unfold free_steganography_result.
  destruct d as [ buf | ], m as [ msg | ]; cbn [data error_message];
    eexists; (split; [ reflexivity | ]);
    cbn [data data_length error_message success width height];
    repeat split; intros st; reflexivity.
Qed.

(** The null result pointer is accepted and nothing is released. *)
Lemma free_null_result (st : storage) :
  free_steganography_result st None = Some None.
Proof. reflexivity. Qed.

(** ** The capacity in exact arithmetic *)

(** A value within less than half a unit below a multiple of [2^k] rounds
    up to it. *)
Lemma round_half_even_up (x k c : Z) :
  0 <= k -> x <= c * 2 ^ k -> 2 * (c * 2 ^ k - x) < 2 ^ k ->
  round_half_even x k = c.
Proof.
  intros Hk Hle Hnear.
  assert (Hp : 0 < 2 ^ k) by (apply Z.pow_pos_nonneg; lia).
  destruct (Z.eq_dec x (c * 2 ^ k)) as [ -> | Hne ].
  - rewrite round_half_even_exact; [ apply Z.div_mul; lia | lia | apply Z.mod_mul; lia ].
  - unfold round_half_even.
    assert (Hq : x / 2 ^ k = c - 1).
    { symmetry. apply (Z.div_unique_pos x (2 ^ k) (c - 1) (x - (c - 1) * 2 ^ k)); lia. }
    assert (Hr : x mod 2 ^ k = x - (c - 1) * 2 ^ k).
    { symmetry. apply (Z.mod_unique_pos x (2 ^ k) (c - 1)); lia. }
    rewrite Hq, Hr.
    destruct (Z.compare_spec (2 * (x - (c - 1) * 2 ^ k)) (2 ^ k)); lia.
Qed.

Lemma round53_fixed (n j : Z) :
  0 <= n < 2 ^ 53 -> 0 <= j -> round53 (n * 2 ^ j) = n * 2 ^ j.
Proof.
  intros Hn Hj. destruct (Z.eq_dec n 0) as [ -> | Hne ].
  - rewrite Z.mul_0_l. apply round53_small. lia.
  - apply round53_scaled_exact; lia.
Qed.

(** Below [2^50] pixels the two binary64 roundings do not show: the
    capacity is the integer part of three tenths of the pixel count. *)
Lemma capacity_of_pixels_exact (p : Z) :
  0 <= p < 2 ^ 50 -> capacity_of_pixels p = 3 * p / 10.
Proof.
  intros Hp. unfold capacity_of_pixels, FACTOR_MANTISSA.
  rewrite (round53_fixed p 52) by lia.
  pose proof (Z.div_mod (3 * p) 10 ltac:(lia)) as Hdm.
  pose proof (Z.mod_pos_bound (3 * p) 10 ltac:(lia)) as Hrem.
  set (n := 3 * p / 10) in *. set (r := (3 * p) mod 10) in *.
  set (x := p * 2 ^ 52 * 5404319552844595).
  assert (Hn : 0 <= n < 2 ^ 49).
  { split; [ apply Z.div_pos; lia | apply Z.div_lt_upper_bound; lia ]. }
  assert (Hx : 10 * x = (10 * n + r) * 2 ^ 106 - p * 2 ^ 53).
  { unfold x. rewrite <- Hdm. lia. }
  assert (Hfix : round53 (n * 2 ^ 106) = n * 2 ^ 106) by (apply round53_fixed; lia).
  assert (Hx0 : 0 <= x) by (unfold x; lia).
  symmetry. apply (Z.div_unique_pos _ _ _ (round53 x - n * 2 ^ 106)); [ | lia ].
  cut (n * 2 ^ 106 <= round53 x < (n + 1) * 2 ^ 106); [ lia | ].
  destruct (Z.eq_dec r 0) as [ Hr0 | Hr1 ].
  - (* three tenths is an integer: the product lies just below it and
       rounds up to it *)
    rewrite Hr0 in Hx.
    split; [ | pose proof (round53_mono x (n * 2 ^ 106)) as Hm; rewrite Hfix in Hm; lia ].
    destruct (Z.eq_dec p 0) as [ Hp0 | Hp1 ].
    { assert (x = 0) by (unfold x; lia). assert (n = 0) by lia. subst x n.
      rewrite H, H0. rewrite round53_small; lia. }
    assert (Hxlo : 2 ^ 106 <= x) by lia.
    pose proof (Z.log2_spec x ltac:(lia)) as Hlog.
    pose proof (Z.log2_le_mono _ _ Hxlo) as Hl1. rewrite Z.log2_pow2 in Hl1 by lia.
    assert (Hl2 : Z.log2 x < 159) by (apply Z.log2_lt_pow2; lia).
    unfold round53. rewrite Z.max_r by lia.
    set (k := Z.log2 x + 1 - 53) in *.
    assert (Hpk : 0 < 2 ^ k) by (apply Z.pow_pos_nonneg; lia).
    assert (Hsplit : 2 ^ 106 = 2 ^ (106 - k) * 2 ^ k).
    { rewrite <- Z.pow_add_r by lia. f_equal. lia. }
    assert (Hpow : 2 ^ Z.succ (Z.log2 x) = 2 ^ 53 * 2 ^ k).
    { rewrite <- Z.pow_add_r by lia. f_equal. lia. }
    assert (Hc : n * 2 ^ (106 - k) * 2 ^ k = n * 2 ^ 106).
    { rewrite <- Z.mul_assoc, <- Hsplit. reflexivity. }
    rewrite Hpow in Hlog.
    rewrite (round_half_even_up x k (n * 2 ^ (106 - k))); rewrite ?Hc; lia.
  - (* otherwise the product stays strictly inside the unit interval *)
    split.
    + rewrite <- Hfix. apply round53_mono. lia.
    + assert (Htop : round53 ((16 * n + 15) * 2 ^ 102) = (16 * n + 15) * 2 ^ 102)
        by (apply round53_fixed; lia).
      pose proof (round53_mono x ((16 * n + 15) * 2 ^ 102)) as Hm.
      rewrite Htop in Hm.
      assert (x <= (16 * n + 15) * 2 ^ 102) by lia.
      lia.
Qed.

Lemma get_max_capacity_three_tenths (image_data : option (list Z)) (image_size : Z) :
  100 <= image_size < 3 * 2 ^ 50 ->
  get_max_capacity image_data image_size = 3 * (image_size / 3) / 10.
Proof.
  intros Hs. rewrite get_max_capacity_closed_form by (unfold SIZE_MAX; lia).
  destruct (Z.ltb_spec image_size 100); [ lia | ].
  apply capacity_of_pixels_exact. split.
  - apply Z.div_pos; lia.
  - apply Z.div_lt_upper_bound; lia.
Qed.

(** For every carrier size from the minimum of 100 bytes up to
    [3 * 2^50] bytes the binary64 computation of [get_max_capacity]
    agrees with integer arithmetic: the capacity is the integer part of
    three tenths of the number of whole pixels. *)
Theorem get_max_capacity_exact (image_data : option (list Z)) (image_size : Z) :
  100 <= image_size < 3 * 2 ^ 50 ->
  get_max_capacity image_data image_size = 3 * (image_size / 3) / 10.
Proof.
  intros Hs. apply get_max_capacity_three_tenths. exact Hs.
Qed.

Lemma get_max_capacity_exact_witness :
  get_max_capacity None 1000000 = 3 * (1000000 / 3) / 10 /\
  3 * (1000000 / 3) / 10 = 99999.
Proof.
  split; [ | reflexivity ].
  apply (get_max_capacity_exact None 1000000). lia.
Defined.

(** With every allocation granted, an embedding into a carrier of less
    than [3 * 2^50] bytes succeeds exactly when the carrier has at least
    100 bytes and the payload length plus the eight header bytes is at
    most three tenths of the pixel count; nothing else about the carrier,
    the payload or the password matters. *)
Theorem encode_succeeds_iff (malloc : Z -> bool) (image msg : list Z)
    (message_length : Z) (password : string) :
  (forall n, malloc n = true) ->
  0 <= message_length <= Z.of_nat (length msg) ->
  message_length <= PTRDIFF_MAX ->
  Z.of_nat (length image) < 3 * 2 ^ 50 ->
  (exists r,
     encode_lsb_dct malloc (Some image) (Z.of_nat (length image)) (Some msg)
       message_length password = Some r /\
     success r = true)
  <->
  100 <= Z.of_nat (length image) /\
  message_length + 8 <= 3 * (Z.of_nat (length image) / 3) / 10.
Proof.
  intros Hm Hlen Hmax Hsize. split.
  - intros (r & He & Hs).
    assert (Hobj : 0 <= message_length <= PTRDIFF_MAX) by lia.
    destruct (encode_success_inv malloc image _ _ _ _ r Hobj He Hs)
      as (_ & _ & _ & _ & _ & Hsz & Hcap).
    rewrite get_max_capacity_three_tenths in Hcap by lia. lia.
  - intros [ Hmin Hfit ]. eexists. split.
    + apply encode_fits; [ exact Hlen | exact Hmax | apply Hm | apply Hm | ].
      rewrite get_max_capacity_three_tenths by lia. exact Hfit.
    + reflexivity.
Qed.

(** A carrier of 300 bytes takes a payload of 22 bytes (capacity 30) and
    no more. *)
Lemma encode_succeeds_iff_witness :
  ((exists r,
      encode_lsb_dct malloc_ok (Some (replicate 300 0))
        (Z.of_nat (length (replicate 300 0))) (Some (replicate 22 7)) 22 "pw"
      = Some r /\ success r = true)
   <-> 100 <= Z.of_nat (length (replicate 300 0)) /\
       22 + 8 <= 3 * (Z.of_nat (length (replicate 300 0)) / 3) / 10) /\
  ((exists r,
      encode_lsb_dct malloc_ok (Some (replicate 300 0))
        (Z.of_nat (length (replicate 300 0))) (Some (replicate 23 7)) 23 "pw"
      = Some r /\ success r = true)
   <-> 100 <= Z.of_nat (length (replicate 300 0)) /\
       23 + 8 <= 3 * (Z.of_nat (length (replicate 300 0)) / 3) / 10).
Proof.
  split.
  - apply (encode_succeeds_iff malloc_ok (replicate 300 0) (replicate 22 7) 22 "pw").
    + reflexivity.
    + simpl. lia.
    + unfold PTRDIFF_MAX. lia.
    + simpl. lia.
  - apply (encode_succeeds_iff malloc_ok (replicate 300 0) (replicate 23 7) 23 "pw").
    + reflexivity.
    + simpl. lia.
    + unfold PTRDIFF_MAX. lia.
    + simpl. lia.
Defined.

(** ** The demonstration digest *)

Lemma sha3_512_update_cons (ctx : SHA3_CTX) (byte : Z) (data : list Z) :
  sha3_512_update ctx (byte :: data)
  = sha3_absorb ctx byte ≫= fun c => sha3_512_update c data.
Proof.
  unfold sha3_512_update. simpl foldl.
  destruct (sha3_absorb ctx byte) as [ c | ]; [ reflexivity | ].
  simpl. induction data as [ | b d IH ]; [ reflexivity | exact IH ].
Qed.

Lemma sha3_512_update_app (ctx : SHA3_CTX) (d1 d2 : list Z) :
  sha3_512_update ctx (d1 ++ d2)
  = sha3_512_update ctx d1 ≫= fun c => sha3_512_update c d2.
Proof.
  revert ctx. induction d1 as [ | b d1 IH ]; intros ctx; [ reflexivity | ].
  simpl app. rewrite !sha3_512_update_cons.
  destruct (sha3_absorb ctx b) as [ c | ]; [ simpl; apply IH | reflexivity ].
Qed.

Lemma is_uint64_lxor (a b : Z) : is_uint64 a -> is_uint64 b -> is_uint64 (Z.lxor a b).
Proof.
  unfold is_uint64. intros Ha Hb.
  assert (Hmod : Z.lxor a b = Z.lxor a b mod 2 ^ 64).
  { apply Z.bits_inj'. intros i Hi.
    rewrite Z.testbit_mod_pow2 by lia.
    destruct (Z.ltb_spec i 64) as [ Hlt | Hge ]; [ reflexivity | ].
    rewrite Z.lxor_spec.
    rewrite <- (Z.mod_small a (2 ^ 64)), <- (Z.mod_small b (2 ^ 64)) by lia.
    rewrite !Z.mod_pow2_bits_high by lia. reflexivity. }
  rewrite Hmod. apply Z.mod_pos_bound. lia.
Qed.

Lemma sha3_next_pt (p : Z) : 0 <= p < 72 -> uint32 (p + 1) mod 72 = (p + 1) mod 72.
Proof.
  intros Hp. unfold uint32. rewrite (Z.mod_small (p + 1)) by lia. reflexivity.
Qed.

Lemma sha3_absorb_ok (ctx : SHA3_CTX) (byte : Z) :
  sha3_ctx_ok ctx ->
  exists ctx',
    sha3_absorb ctx byte = Some ctx' /\
    sha3_ctx_ok ctx' /\
    pt ctx' = (pt ctx + 1) mod 72.
Proof.
  intros (Hlen & Hw & Hrate & Hpt). unfold sha3_absorb. rewrite Hrate.
  change (72 =? 0) with false. cbv iota.
  eexists. split; [ reflexivity | ].
  cbn [pt state rate]. rewrite sha3_next_pt by exact Hpt.
  split; [ | reflexivity ].
  unfold sha3_ctx_ok. cbn [pt state rate].
  split; [ rewrite length_alter; exact Hlen | ].
  split; [ | split; [ reflexivity | apply Z.mod_pos_bound; lia ] ].
  apply Forall_lookup. intros i w Hi.
  destruct (decide (i = Z.to_nat (pt ctx mod 25))) as [ -> | Hne ].
  - rewrite list_lookup_alter_eq in Hi.
    destruct (state ctx !! Z.to_nat (pt ctx mod 25)) as [ w0 | ] eqn:E;
      [ | discriminate ].
    simpl in Hi. inversion Hi; subst w.
    apply is_uint64_lxor.
    + exact (proj1 (Forall_lookup _ _) Hw _ _ E).
    + unfold is_uint64, uint64. apply Z.mod_pos_bound. lia.
  - rewrite list_lookup_alter_ne in Hi by congruence.
    exact (proj1 (Forall_lookup _ _) Hw _ _ Hi).
Qed.

Lemma sha3_512_init_ok (ctx : SHA3_CTX) : sha3_ctx_ok (sha3_512_init ctx).
Proof.
  unfold sha3_ctx_ok, sha3_512_init. cbn [state rate pt].
  split; [ reflexivity | ].
  split; [ | lia ].
  apply Forall_replicate. unfold is_uint64. lia.
Qed.

Lemma sha3_update_ok (data : list Z) (ctx : SHA3_CTX) :
  sha3_ctx_ok ctx ->
  exists ctx',
    sha3_512_update ctx data = Some ctx' /\
    sha3_ctx_ok ctx' /\
    pt ctx' = (pt ctx + Z.of_nat (length data)) mod 72.
Proof.
  revert ctx. induction data as [ | b d IH ]; intros ctx Hok.
  - exists ctx. split; [ reflexivity | ]. split; [ exact Hok | ].
    destruct Hok as (_ & _ & _ & Hpt). simpl.
    rewrite Z.add_0_r, Z.mod_small by exact Hpt. reflexivity.
  - destruct (sha3_absorb_ok ctx b Hok) as (c1 & Ha & Hok1 & Hp1).
    destruct (IH c1 Hok1) as (c2 & Hu & Hok2 & Hp2).
    exists c2. rewrite sha3_512_update_cons, Ha. simpl.
    split; [ exact Hu | ]. split; [ exact Hok2 | ].
    rewrite Hp2, Hp1, Zplus_mod_idemp_l. f_equal.
    change (length (b :: d)) with (S (length d)). lia.
Qed.

(** From any context in the shape that [sha3_512_init] sets up,
    [sha3_512_update] is defined for every input (the remainder by the
    rate never divides by zero), keeps the 25 words within 64 bits and
    the rate at 72, and leaves the position at the old position plus the
    number of bytes, modulo 72. *)
Theorem sha3_update_keeps_shape (ctx : SHA3_CTX) (data : list Z) :
  sha3_ctx_ok ctx ->
  exists ctx',
    sha3_512_update ctx data = Some ctx' /\
    sha3_ctx_ok ctx' /\
    pt ctx' = (pt ctx + Z.of_nat (length data)) mod 72.
Proof. intros Hok. apply sha3_update_ok. exact Hok. Qed.

Lemma sha3_update_keeps_shape_witness :
  exists ctx',
    sha3_512_update (sha3_512_init (mkCtx [] 0 0)) (replicate 100 255) = Some ctx' /\
    sha3_ctx_ok ctx' /\
    pt ctx' = (pt (sha3_512_init (mkCtx [] 0 0))
               + Z.of_nat (length (replicate 100 255))) mod 72.
Proof.
  apply (sha3_update_keeps_shape (sha3_512_init (mkCtx [] 0 0)) (replicate 100 255)).
  unfold sha3_ctx_ok. cbn [state rate pt sha3_512_init].
  split; [ reflexivity | ].
  split; [ | lia ].
  apply Forall_replicate. unfold is_uint64. lia.
Defined.

Lemma sha3_512_final_shape (ctx : SHA3_CTX) :
  length (sha3_512_final ctx) = 64%nat /\ Forall is_uint8 (sha3_512_final ctx).
Proof.
  unfold sha3_512_final. split.
  - rewrite length_map, length_seq. reflexivity.
  - apply Forall_map, Forall_forall. intros i _. cbv beta.
    unfold is_uint8. change 255 with (Z.ones 8).
    rewrite Z.land_ones by lia. change (2 ^ 8) with 256.
    apply Z.mod_pos_bound. lia.
Qed.

(** The three calls in a row are defined for every message, whatever its
    bytes and its length, and the digest is 64 bytes in the range of
    [uint8_t]. *)
Theorem sha3_512_digest_shape (data : list Z) :
  exists digest,
    sha3_512 data = Some digest /\
    length digest = 64%nat /\
    Forall is_uint8 digest.
Proof.
  destruct (sha3_update_ok data _ (sha3_512_init_ok (mkCtx [] 0 0)))
    as (ctx & Hu & _ & _).
  exists (sha3_512_final ctx). unfold sha3_512. rewrite Hu.
  split; [ reflexivity | apply sha3_512_final_shape ].
Qed.

(** *** Bytes that never reach the digest *)

Lemma sha3_512_final_take (c1 c2 : SHA3_CTX) :
  take 8 (state c1) = take 8 (state c2) ->
  sha3_512_final c1 = sha3_512_final c2.
Proof.
  intros Ht. unfold sha3_512_final. apply map_ext_in. intros i Hi.
  apply in_seq in Hi.
  assert (Hw : (i / 8 < 8)%nat) by (apply Nat.Div0.div_lt_upper_bound; lia).
  rewrite !nth_lookup.
  rewrite <- (lookup_take_lt (state c1) 8 (i / 8) Hw).
  rewrite <- (lookup_take_lt (state c2) 8 (i / 8) Hw).
  rewrite Ht. reflexivity.
Qed.

Lemma sha3_word_index (k : nat) :
  Z.to_nat (Z.of_nat (k mod 72) mod 25) = ((k mod 72) mod 25)%nat.
Proof.
  change 25 with (Z.of_nat 25). rewrite <- Nat2Z.inj_mod. apply Nat2Z.id.
Qed.

Lemma sha3_update_agree (d1 : list Z) :
  forall (d2 : list Z) (c1 c2 : SHA3_CTX) (k : nat),
    length d1 = length d2 ->
    rate c1 = 72 -> rate c2 = 72 ->
    pt c1 = Z.of_nat (k mod 72) -> pt c2 = pt c1 ->
    take 8 (state c1) = take 8 (state c2) ->
    (forall i, reaches_digest (k + i) = true -> d1 !! i = d2 !! i) ->
    exists c1' c2',
      sha3_512_update c1 d1 = Some c1' /\
      sha3_512_update c2 d2 = Some c2' /\
      take 8 (state c1') = take 8 (state c2').
Proof.
  induction d1 as [ | b1 d1 IH ]; intros d2 c1 c2 k Hlen Hr1 Hr2 Hp1 Hp2 Ht Hd.
  - destruct d2; [ | discriminate ].
    exists c1, c2. repeat split; [ exact Ht ].
  - destruct d2 as [ | b2 d2 ]; [ discriminate | ].
    rewrite !sha3_512_update_cons. unfold sha3_absorb.
    rewrite Hr1, Hr2, Hp2, Hp1. change (72 =? 0) with false. cbv iota.
    cbn [mbind option_bind].
    rewrite sha3_word_index.
    apply IH with (k := S k).
    + simpl in Hlen. lia.
    + reflexivity.
    + reflexivity.
    + cbn [pt]. rewrite sha3_next_pt.
      * replace (Z.of_nat (k mod 72) + 1) with (Z.of_nat (k mod 72 + 1)) by lia.
        assert (Hs : (S k mod 72 = (k mod 72 + 1) mod 72)%nat).
        { replace (S k) with (k + 1)%nat by lia.
          rewrite Nat.Div0.add_mod_idemp_l. reflexivity. }
        rewrite Hs, Nat2Z.inj_mod. reflexivity.
      * pose proof (Nat.mod_upper_bound k 72). lia.
    + reflexivity.
    + cbn [state].
      destruct (reaches_digest k) eqn:Ek.
      * assert (Hb : b1 = b2).
        { specialize (Hd 0%nat). rewrite Nat.add_0_r in Hd.
          specialize (Hd Ek). simpl in Hd. congruence. }
        subst b2. unfold reaches_digest in Ek. apply Nat.ltb_lt in Ek.
        rewrite !take_alter_lt by exact Ek. rewrite Ht. reflexivity.
      * unfold reaches_digest in Ek. apply Nat.ltb_ge in Ek.
        rewrite !take_alter_ge by exact Ek. exact Ht.
    + intros i Hi. apply (Hd (S i)).
      replace (k + S i)%nat with (S k + i)%nat by lia. exact Hi.
Qed.

(** The digest cannot see most of the message: of every 72 bytes only the
    24 whose word index [(i mod 72) mod 25] is below 8 count.  Two
    messages of one length that agree on those positions have the same
    digest, whatever their other bytes are. *)
Theorem sha3_512_blind_positions (d1 d2 : list Z) :
  length d1 = length d2 ->
  (forall i, reaches_digest i = true -> d1 !! i = d2 !! i) ->
  sha3_512 d1 = sha3_512 d2.
Proof.
  intros Hlen Hd. unfold sha3_512.
  destruct (sha3_update_agree d1 d2 (sha3_512_init (mkCtx [] 0 0))
              (sha3_512_init (mkCtx [] 0 0)) 0)
    as (c1 & c2 & H1 & H2 & Ht); try reflexivity; try assumption.
  rewrite H1, H2. simpl. f_equal. apply sha3_512_final_take. exact Ht.
Qed.

(** Byte 8 of a message goes to word 8, which the digest does not read:
    changing it leaves the digest as it is. *)
Lemma sha3_512_blind_positions_witness :
  reaches_digest 8 = false /\
  sha3_512 [1; 2; 3; 4; 5; 6; 7; 8; 9; 10] = sha3_512 [1; 2; 3; 4; 5; 6; 7; 8; 200; 10].
Proof.
  split; [ reflexivity | ].
  apply (sha3_512_blind_positions [1; 2; 3; 4; 5; 6; 7; 8; 9; 10]
           [1; 2; 3; 4; 5; 6; 7; 8; 200; 10]).
  - reflexivity.
  - intros i Hi.
    do 8 (destruct i as [ | i ]; [ reflexivity | ]).
    destruct i as [ | i ]; [ discriminate Hi | ].
    destruct i as [ | i ]; reflexivity.
Defined.

(** *** Repeated blocks cancel *)

(** The state with a constant list of words XORed into it. *)
Lemma alter_lxor_zip (s t : list Z) (j : nat) (word : Z) :
  alter (fun w => Z.lxor w word) j (zip_with Z.lxor s t)
  = zip_with Z.lxor s (alter (fun w => Z.lxor w word) j t).
Proof.
  apply list_eq. intros i.
  destruct (decide (i = j)) as [ -> | Hne ].
  - rewrite list_lookup_alter_eq, !lookup_zip_with, list_lookup_alter_eq.
    destruct (s !! j) as [ a | ]; [ | reflexivity ].
    destruct (t !! j) as [ b | ]; [ | reflexivity ].
    simpl. rewrite Z.lxor_assoc. reflexivity.
  - rewrite list_lookup_alter_ne, !lookup_zip_with, list_lookup_alter_ne by congruence.
    reflexivity.
Qed.

Lemma sha3_update_xor (data : list Z) :
  forall (s : list Z) (c : SHA3_CTX),
    sha3_512_update {| state := zip_with Z.lxor s (state c);
                       rate := rate c; pt := pt c |} data
    = (fun c' => {| state := zip_with Z.lxor s (state c');
                    rate := rate c'; pt := pt c' |})
      <$> sha3_512_update c data.
Proof.
  induction data as [ | b d IH ]; intros s c; [ reflexivity | ].
  rewrite !sha3_512_update_cons. unfold sha3_absorb. cbn [state rate pt].
  destruct (rate c =? 0); [ reflexivity | ].
  cbn [mbind option_bind]. rewrite alter_lxor_zip.
  exact (IH s {| state := alter (fun w => Z.lxor w (uint64 (Z.shiftl b (pt c mod 8 * 8))))
                            (Z.to_nat (pt c mod 25)) (state c);
                 rate := rate c; pt := uint32 (pt c + 1) mod rate c |}).
Qed.

Lemma zip_lxor_zeros (s : list Z) :
  zip_with Z.lxor s (replicate (length s) 0) = s.
Proof.
  induction s as [ | a s IH ]; [ reflexivity | ].
  simpl. rewrite Z.lxor_0_r, IH. reflexivity.
Qed.

Lemma zip_lxor_twice (s : list Z) :
  forall d, length d = length s ->
  zip_with Z.lxor (zip_with Z.lxor s d) d = s.
Proof.
  induction s as [ | a s IH ]; intros [ | b d ] Hl; try discriminate; [ reflexivity | ].
  simpl. rewrite Z.lxor_assoc, Z.lxor_nilpotent, Z.lxor_0_r, IH; [ reflexivity | ].
  simpl in Hl. lia.
Qed.

(** A block whose length is a multiple of 72, absorbed twice in a row,
    leaves the context exactly as it was. *)
Lemma sha3_update_twice (ctx : SHA3_CTX) (block : list Z) :
  sha3_ctx_ok ctx ->
  (length block mod 72 = 0)%nat ->
  sha3_512_update ctx (block ++ block) = Some ctx.
Proof.
  intros Hok Hblock.
  pose proof Hok as (Hlen & Hw & Hrate & Hpt).
  destruct ctx as [ s r p ]. cbn [state rate pt] in *. subst r.
  set (zero := {| state := replicate 25 0; rate := 72; pt := p |}).
  assert (Hzok : sha3_ctx_ok zero).
  { unfold sha3_ctx_ok, zero. cbn [state rate pt].
    split; [ reflexivity | ]. split; [ | lia ].
    apply Forall_replicate. unfold is_uint64. lia. }
  destruct (sha3_update_ok block zero Hzok) as (cz & Hu & (Hzl & _ & Hzr & _) & Hzp).
  assert (Hback : pt cz = p).
  { rewrite Hzp. unfold zero. cbn [pt].
    assert (Hm : Z.of_nat (length block) mod 72 = 0).
    { change 72 with (Z.of_nat 72). rewrite <- Nat2Z.inj_mod, Hblock. reflexivity. }
    rewrite <- Zplus_mod_idemp_r, Hm, Z.add_0_r. apply Z.mod_small. exact Hpt. }
  assert (Hstep : forall t, length t = 25%nat ->
            sha3_512_update {| state := t; rate := 72; pt := p |} block
            = Some {| state := zip_with Z.lxor t (state cz); rate := 72; pt := p |}).
  { intros t Ht.
    pose proof (sha3_update_xor block t zero) as Hx.
    unfold zero in Hx at 1 2 3. cbn [state rate pt] in Hx.
    replace 25%nat with (length t) in Hx at 1 by exact Ht.
    rewrite zip_lxor_zeros, Hu in Hx. simpl in Hx.
    rewrite Hzr, Hback in Hx. exact Hx. }
  rewrite sha3_512_update_app, (Hstep s Hlen). simpl.
  rewrite Hstep by (rewrite length_zip_with_l_eq; [ exact Hlen | lia ]).
  rewrite zip_lxor_twice by lia. reflexivity.
Qed.

(** The digest is blind to doubled blocks: a block whose length is a
    multiple of 72 bytes, written twice in a row anywhere in a message,
    can be cut out without changing the digest.  In particular a block
    of 72 bytes written twice has the digest of the empty message. *)
Theorem sha3_512_doubled_block (before block after : list Z) :
  (length block mod 72 = 0)%nat ->
  sha3_512 (before ++ block ++ block ++ after) = sha3_512 (before ++ after).
Proof.
  intros Hblock. unfold sha3_512.
  destruct (sha3_update_ok before _ (sha3_512_init_ok (mkCtx [] 0 0)))
    as (c & Hu & Hok & _).
  rewrite !sha3_512_update_app, Hu. simpl.
  rewrite (app_assoc block block after), sha3_512_update_app.
  rewrite (sha3_update_twice c block Hok Hblock). reflexivity.
Qed.

Lemma sha3_512_doubled_block_witness :
  sha3_512 ([1; 2; 3] ++ replicate 72 171 ++ replicate 72 171 ++ [4; 5])
  = sha3_512 ([1; 2; 3] ++ [4; 5]).
Proof.
  apply (sha3_512_doubled_block [1; 2; 3] (replicate 72 171) [4; 5]).
  reflexivity.
Defined.

(** ** The conversion in the capacity model *)

(** Over the whole range of [size_t] the conversion [(size_t)] in
    [get_max_capacity] is defined: the product it converts is a zero or
    a positive finite double, never an infinity or a not-a-number, and
    the capacity lies between 0 and [2^62]. *)
Theorem get_max_capacity_conversion_defined (image_data : option (list Z))
    (image_size : Z) :
  0 <= image_size <= SIZE_MAX ->
  let product :=
    Prim2SF (PrimFloat.mul (double_of_size (image_size / 3)) MAX_CAPACITY_FACTOR) in
  (product = S754_zero false \/ exists m e, product = S754_finite false m e) /\
  0 <= get_max_capacity image_data image_size <= 2 ^ 62.
Proof.
  intros Hs. cbv zeta.
  assert (Hp : 0 <= image_size / 3 < 2 ^ 63).
  { unfold SIZE_MAX in Hs. split.
    - apply Z.div_pos; lia.
    - apply Z.div_lt_upper_bound; lia. }
  split; [ exact (proj1 (capacity_double_finite _ Hp)) | ].
  rewrite get_max_capacity_closed_form by exact Hs.
  destruct (image_size <? 100); [ lia | ].
  apply capacity_of_pixels_range. exact Hp.
Qed.

Lemma get_max_capacity_conversion_defined_witness :
  0 <= get_max_capacity None SIZE_MAX <= 2 ^ 62.
Proof.
  apply (get_max_capacity_conversion_defined None SIZE_MAX).
  unfold SIZE_MAX. lia.
Defined.

(** ** Instances *)

Lemma xor_encrypt_frame_witness :
  length (xor_encrypt [72; 105; 33; 0; 255] 3 "key") = 5%nat /\
  drop 3 (xor_encrypt [72; 105; 33; 0; 255] 3 "key") = [0; 255] /\
  xor_encrypt [72; 105; 33; 0; 255] 3 "key" !! 4%nat = Some 255.
Proof.
  destruct (xor_encrypt_frame [72; 105; 33; 0; 255] 3 "key") as (Hl & Hd & Hfar).
  split; [ exact Hl | ].
  split; [ exact Hd | ].
  rewrite Hfar by lia. reflexivity.
Defined.

Lemma decode_failure_kinds_witness :
  error_kind (decode_lsb_dct malloc_ok None 0 "pw") = Some InvalidInput /\
  error_kind (decode_lsb_dct (fun _ => false) (Some [1; 2; 3]) 3 "pw")
  = Some AllocationFailure /\
  success (decode_lsb_dct malloc_ok (Some [1; 2; 3]) 3 "pw") = true.
Proof.
  destruct (decode_failure_kinds malloc_ok None 0 "pw") as (Hnull & _).
  destruct (decode_failure_kinds (fun _ => false) (Some [1; 2; 3]) 3 "pw")
    as (_ & Halloc & _).
  destruct (decode_failure_kinds malloc_ok (Some [1; 2; 3]) 3 "pw")
    as (_ & _ & Hok & _).
  split; [ apply Hnull; reflexivity | ].
  split; [ apply Halloc; split; [ discriminate | reflexivity ] | ].
  apply Hok. split; [ discriminate | reflexivity ].
Defined.

(* ===================================================================== *)
(** * Part V: the block transforms                                        *)
(* ===================================================================== *)

(** ** Rounding to binary64, in general *)

(** Part III follows the rounding of positive numbers of the normal
    range.  The transforms need every finite number: both signs, and
    results in the subnormal range. *)

Lemma round_half_even_error (m k : Z) :
  0 <= k -> 2 * Z.abs (round_half_even m k * 2 ^ k - m) <= 2 ^ k.
Proof.
  intros Hk.
  assert (Hp : 0 < 2 ^ k) by (apply Z.pow_pos_nonneg; lia).
  pose proof (Z.div_mod m (2 ^ k) ltac:(lia)) as Hdm.
  pose proof (Z.mod_pos_bound m (2 ^ k) Hp) as Hb.
  unfold round_half_even.
  destruct (Z.compare_spec (2 * (m mod 2 ^ k)) (2 ^ k));
    [ destruct (Z.even (m / 2 ^ k)) | | ]; nia.
Qed.

Lemma round_half_even_nonneg (m k : Z) : 0 <= m -> 0 <= round_half_even m k.
Proof.
  intros Hm. destruct (Z_lt_le_dec k 0) as [ Hk | Hk ].
  - unfold round_half_even. rewrite Z.pow_neg_r by lia.
    rewrite Z.div_0_r, Z.mod_0_r. destruct (2 * m ?= 0); simpl; lia.
  - pose proof (round_half_even_bounds m k).
    assert (0 <= m / 2 ^ k) by (apply Z.div_pos; [ lia | apply Z.pow_pos_nonneg; lia ]).
    lia.
Qed.

Lemma fexp_unfold (x : Z) : fexp 53 1024 x = Z.max (x - 53) (-1074).
Proof. reflexivity. Qed.

(** [shr_fexp] on a non-negative mantissa without sticky bits. *)
Lemma shr_fexp_general (m e : Z) :
  0 <= m ->
  let k := Z.max 0 (fexp 53 1024 (Zdigits2 m + e) - e) in
  let mrs := fst (shr_fexp 53 1024 m e loc_Exact) in
  snd (shr_fexp 53 1024 m e loc_Exact) = e + k /\
  shr_m mrs = m / 2 ^ k /\
  round_nearest_even (shr_m mrs) (loc_of_shr_record mrs) = round_half_even m k.
Proof.
  intros Hm. unfold shr_fexp. cbn [shr_record_of_loc].
  apply shr_round. exact Hm.
Qed.

Lemma Zdigits2_log2 (m : Z) : 0 < m -> Zdigits2 m = Z.log2 m + 1.
Proof.
  intros Hm. destruct m as [ | p | p ]; try lia.
  cbn [Zdigits2]. apply digits2_pos_log2.
Qed.

Lemma log2_lt_pow2_pos (m w : Z) : 0 < m -> m < 2 ^ w -> Z.log2 m + 1 <= w.
Proof.
  intros H0 Hm. assert (0 <= w).
  { destruct (Z_lt_le_dec w 0); [ | lia ]. rewrite Z.pow_neg_r in Hm; lia. }
  pose proof (proj1 (Z.log2_lt_pow2 m w H0) Hm). lia.
Qed.

Lemma binary_round_aux_value (s : bool) (m : positive) (e : Z) :
  let d := Z.log2 (Z.pos m) + 1 in
  let E := Z.max (d + e - 53) (-1074) in
  let k := Z.max 0 (E - e) in
  e <= 971 -> d + e <= 1000 ->
  exists (m2 e2 : Z),
    0 <= m2 /\ e <= e2 /\
    m2 * 2 ^ (e2 - e) = round_half_even (Z.pos m) k * 2 ^ k /\
    binary_round_aux 53 1024 s (Z.pos m) e loc_Exact
    = match m2 with Z.pos p => S754_finite s p e2 | _ => S754_zero s end.
Proof.
  intros d E k He Hde.
  pose proof (Z.log2_spec (Z.pos m) ltac:(lia)) as Hd.
  pose proof (Z.log2_nonneg (Z.pos m)) as Hd0.
  replace (Z.succ (Z.log2 (Z.pos m))) with d in Hd by (unfold d; lia).
  pose proof (shr_fexp_general (Z.pos m) e ltac:(lia)) as (He1 & _ & Hr1).
  rewrite Zdigits2_log2, fexp_unfold in He1, Hr1 by lia.
  fold d in He1, Hr1. fold E in He1, Hr1. fold k in He1, Hr1.
  unfold binary_round_aux.
  destruct (shr_fexp 53 1024 (Z.pos m) e loc_Exact) as [ mrs1 e1 ].
  cbn [fst snd] in He1, Hr1. rewrite Hr1, He1. clear Hr1 He1 mrs1 e1.
  set (m1 := round_half_even (Z.pos m) k).
  assert (Hm1 : 0 <= m1) by (apply round_half_even_nonneg; lia).
  assert (Hk0 : 0 <= k) by (unfold k; lia).
  assert (HE : -1074 <= E) by (unfold E; lia).
  assert (He1 : -1074 <= e + k) by (unfold k; lia).
  pose proof (shr_fexp_general m1 (e + k) Hm1) as (He2 & Hm2 & _).
  rewrite fexp_unfold in He2, Hm2.
  (* the second shift divides exactly and stays in range *)
  assert (Hk2 : let k2 := Z.max 0 (Z.max (Zdigits2 m1 + (e + k) - 53) (-1074) - (e + k)) in
                m1 mod 2 ^ k2 = 0 /\ (0 < m1 -> e + k + k2 <= 971)).
  { cbv zeta.
    destruct (Z.eq_dec m1 0) as [ H0 | Hpos ].
    { rewrite H0. cbn [Zdigits2]. split; [ apply Z.mod_0_l, Z.pow_nonzero; lia | lia ]. }
    rewrite Zdigits2_log2 by lia.
    destruct (Z.eq_dec k 0) as [ Hkz | Hkp ].
    { (* nothing was shifted *)
      assert (Hm1m : m1 = Z.pos m) by (unfold m1; rewrite Hkz; apply round_half_even_0).
      rewrite Hm1m, Hkz, Z.add_0_r. fold d.
      assert (E <= e) by (unfold k in Hkz; lia). fold E.
      rewrite Z.max_l by lia. split; [ apply Z.mod_1_r | lia ]. }
    assert (Hek : e + k = E) by (unfold k in *; lia).
    assert (Hpk : 0 < 2 ^ k) by (apply Z.pow_pos_nonneg; lia).
    pose proof (round_half_even_bounds (Z.pos m) k) as Hb. fold m1 in Hb.
    (* the mantissa keeps [w = d - k] digits *)
    assert (Hw : 0 <= d - k /\ m1 <= 2 ^ (d - k)).
    { destruct (Z_lt_le_dec d k) as [ Hlt | Hge ].
      - exfalso.
        assert (Hsmall : Z.pos m < 2 ^ (k - 1)).
        { apply Z.lt_le_trans with (2 ^ d); [ lia | apply Z.pow_le_mono_r; lia ]. }
        assert (Hkk : 2 ^ k = 2 * 2 ^ (k - 1)).
        { rewrite <- Z.pow_succ_r by lia. f_equal. lia. }
        apply Hpos. unfold m1, round_half_even.
        rewrite Z.div_small, Z.mod_small by lia.
        destruct (Z.compare_spec (2 * Z.pos m) (2 ^ k)); lia.
      - split; [ lia | ].
        assert (Hq : Z.pos m / 2 ^ k < 2 ^ (d - k)).
        { apply Z.div_lt_upper_bound; [ lia | ].
          rewrite <- Z.pow_add_r by lia. replace (k + (d - k)) with d by lia. lia. }
        lia. }
    destruct Hw as [ Hw0 Hw ].
    destruct (Z.eq_dec m1 (2 ^ (d - k))) as [ Htop | Hbelow ].
    - rewrite Htop, Z.log2_pow2 by lia. rewrite Hek.
      destruct (Z_le_gt_dec (Z.max (d - k + 1 + E - 53) (-1074) - E) 0) as [ Hn | Hn ].
      + rewrite Z.max_l by lia. split; [ apply Z.mod_1_r | lia ].
      + assert (HEn : E = d + e - 53) by (unfold E in *; lia).
        assert (Hw53 : d - k = 53) by lia.
        replace (Z.max (d - k + 1 + E - 53) (-1074) - E) with 1 by lia.
        rewrite Hw53. split; [ reflexivity | lia ].
    - assert (Hl : Z.log2 m1 + 1 <= d - k) by (apply log2_lt_pow2_pos; lia).
      rewrite Hek. rewrite Z.max_l by (unfold E in *; lia).
      split; [ apply Z.mod_1_r | unfold E in *; lia ]. }
  cbv zeta in Hk2. destruct Hk2 as [ Hdiv Hrange ].
  set (k2 := Z.max 0 (Z.max (Zdigits2 m1 + (e + k) - 53) (-1074) - (e + k))) in *.
  assert (Hk20 : 0 <= k2) by (unfold k2; lia).
  assert (Hpk2 : 0 < 2 ^ k2) by (apply Z.pow_pos_nonneg; lia).
  destruct (shr_fexp 53 1024 m1 (e + k) loc_Exact) as [ mrs2 e2 ].
  cbn [fst snd] in He2, Hm2. rewrite Hm2, He2.
  exists (m1 / 2 ^ k2), (e + k + k2).
  assert (Hq0 : 0 <= m1 / 2 ^ k2) by (apply Z.div_pos; lia).
  split; [ exact Hq0 | ]. split; [ lia | ].
  split.
  - replace (e + k + k2 - e) with (k2 + k) by lia.
    rewrite Z.pow_add_r, Z.mul_assoc by lia. f_equal.
    pose proof (Z.div_mod m1 (2 ^ k2) ltac:(lia)). lia.
  - destruct (m1 / 2 ^ k2) as [ | p | p ] eqn:Eq; [ reflexivity | | lia ].
    assert (0 < m1).
    { destruct (Z.eq_dec m1 0) as [ H0 | ]; [ | lia ].
      rewrite H0, Z.div_0_l in Eq by lia. discriminate. }
    destruct (Z.leb_spec (e + k + k2) (1024 - 53)); [ reflexivity | ].
    specialize (Hrange ltac:(lia)). lia.
Qed.

Module DCT_facts.
Import Reals Lra DCT DCT_real.
Local Open Scope R_scope.

(** ** The constant pi *)

Lemma PI_enclosure :
  3141592653589793 / 1000000000000000 <= PI <= 3141592653589794 / 1000000000000000.
Proof.
  pose proof (PI_2_3_7_ineq 8) as [Hlo Hhi].
  cbv [sum_f_R0 tg_alt PI_2_3_7_tg Ratan_seq Nat.mul Nat.add INR pow] in Hlo, Hhi.
  split; lra.
Qed.

(** ** Powers of two and the value of a rounded number *)

Lemma bpow_pos (e : Z) : 0 < bpow e.
Proof. unfold bpow. apply powerRZ_lt. lra. Qed.

Lemma bpow_add (a b : Z) : bpow (a + b) = bpow a * bpow b.
Proof. unfold bpow. apply powerRZ_add. lra. Qed.

Lemma bpow_1 : bpow 1 = 2.
Proof. unfold bpow. simpl. lra. Qed.

Lemma bpow_IZR (k : Z) : (0 <= k)%Z -> bpow k = IZR (2 ^ k).
Proof.
  intros Hk. unfold bpow. rewrite <- (Z2Nat.id k Hk).
  rewrite <- pow_powerRZ, pow_IZR. reflexivity.
Qed.

Lemma bpow_ge_1 (k : Z) : (0 <= k)%Z -> 1 <= bpow k.
Proof.
  intros Hk. rewrite bpow_IZR by exact Hk. apply IZR_le.
  assert (0 < 2 ^ k)%Z by (apply Z.pow_pos_nonneg; lia). lia.
Qed.

Lemma bpow_le (a b : Z) : (a <= b)%Z -> bpow a <= bpow b.
Proof.
  intros Hab. replace b with (a + (b - a))%Z by lia. rewrite bpow_add.
  pose proof (bpow_pos a). pose proof (bpow_ge_1 (b - a) ltac:(lia)). nra.
Qed.

Lemma bpow_lt (a b : Z) : (a < b)%Z -> bpow a < bpow b.
Proof.
  intros Hab. replace b with (a + 1 + (b - a - 1))%Z by lia. rewrite !bpow_add.
  pose proof (bpow_pos a). pose proof (bpow_ge_1 (b - a - 1) ltac:(lia)).
  rewrite bpow_1. nra.
Qed.

Lemma sgR_abs (s : bool) : Rabs (sgR s) = 1.
Proof. destruct s; simpl; unfold Rabs; destruct Rcase_abs; lra. Qed.

Lemma sgR_xorb (a b : bool) : sgR (xorb a b) = sgR a * sgR b.
Proof. destruct a, b; simpl; lra. Qed.

(** A bound on the value bounds the exponent of the leading bit. *)
Lemma value_bound_digits (m : positive) (e B : Z) :
  IZR (Z.pos m) * bpow e < bpow B -> (Z.log2 (Z.pos m) + e < B)%Z.
Proof.
  intros Hv. destruct (Z_lt_le_dec (Z.log2 (Z.pos m) + e) B) as [ | Hge ]; [ assumption | ].
  exfalso.
  pose proof (Z.log2_spec (Z.pos m) ltac:(lia)) as [ Hlo _ ].
  pose proof (Z.log2_nonneg (Z.pos m)) as Hl0.
  apply IZR_le in Hlo. rewrite <- bpow_IZR in Hlo by exact Hl0.
  pose proof (bpow_le B (Z.log2 (Z.pos m) + e) Hge) as Hb.
  rewrite bpow_add in Hb. pose proof (bpow_pos e). nra.
Qed.

Lemma binary_round_aux_R (s : bool) (m : positive) (e : Z) :
  (e <= 971)%Z -> (Z.log2 (Z.pos m) + 1 + e <= 1000)%Z ->
  SF_finite (binary_round_aux 53 1024 s (Z.pos m) e loc_Exact) = true /\
  Rabs (SF2R (binary_round_aux 53 1024 s (Z.pos m) e loc_Exact)
        - sgR s * IZR (Z.pos m) * bpow e)
  <= rnd_u * (IZR (Z.pos m) * bpow e) + rnd_eta.
Proof.
  intros He Hde.
  destruct (binary_round_aux_value s m e He Hde) as (m2 & e2 & Hm2 & He2 & Hval & Hf).
  rewrite Hf. clear Hf.
  set (d := (Z.log2 (Z.pos m) + 1)%Z) in *.
  set (E := Z.max (d + e - 53) (-1074)) in *.
  set (k := Z.max 0 (E - e)) in *.
  assert (Hk0 : (0 <= k)%Z) by (unfold k; lia).
  assert (Hfin : SF_finite match m2 with
                           | Z.pos p => S754_finite s p e2
                           | _ => S754_zero s
                           end = true) by (destruct m2; reflexivity).
  split; [ exact Hfin | ].
  assert (Hv : SF2R match m2 with
                    | Z.pos p => S754_finite s p e2
                    | _ => S754_zero s
                    end = sgR s * IZR (round_half_even (Z.pos m) k * 2 ^ k) * bpow e).
  { rewrite <- Hval, mult_IZR, <- bpow_IZR by lia.
    destruct m2 as [ | p | p ]; [ simpl; lra | | lia ].
    simpl SF2R. replace e2 with (e2 - e + e)%Z at 1 by lia.
    rewrite bpow_add. ring. }
  rewrite Hv. clear Hv Hfin.
  replace (sgR s * IZR (round_half_even (Z.pos m) k * 2 ^ k) * bpow e
           - sgR s * IZR (Z.pos m) * bpow e)
    with (sgR s * (IZR (round_half_even (Z.pos m) k * 2 ^ k - Z.pos m) * bpow e))
    by (rewrite minus_IZR; ring).
  rewrite Rabs_mult, sgR_abs, Rmult_1_l, Rabs_mult, Rabs_Zabs.
  pose proof (bpow_pos e) as Hbe. rewrite (Rabs_pos_eq (bpow e)) by lra.
  pose proof (bpow_pos (-1075)) as Heta. fold rnd_eta in Heta.
  pose proof (bpow_pos (-53)) as Hu. fold rnd_u in Hu.
  assert (Hmpos : 0 < IZR (Z.pos m)) by (apply IZR_lt; lia).
  assert (Hmb : 0 < IZR (Z.pos m) * bpow e) by (apply Rmult_lt_0_compat; assumption).
  assert (Humb : 0 < rnd_u * (IZR (Z.pos m) * bpow e)) by (apply Rmult_lt_0_compat; assumption).
  destruct (Z.eq_dec k 0) as [ Hkz | Hkp ].
  - rewrite Hkz, round_half_even_0. replace (Z.pos m * 2 ^ 0 - Z.pos m)%Z with 0%Z by lia.
    change (Z.abs 0) with 0%Z. lra.
  - pose proof (round_half_even_error (Z.pos m) k Hk0) as Herr.
    apply IZR_le in Herr. rewrite mult_IZR, <- bpow_IZR in Herr by exact Hk0.
    assert (Hek : (e + k = E)%Z) by (unfold k in *; lia).
    assert (Hhalf : bpow k * bpow e = 2 * bpow (E - 1)).
    { rewrite <- bpow_add. replace (k + e)%Z with (1 + (E - 1))%Z by lia.
      rewrite bpow_add, bpow_1. reflexivity. }
    set (a := IZR (Z.abs (round_half_even (Z.pos m) k * 2 ^ k - Z.pos m))) in *.
    assert (Ha : a * bpow e <= bpow (E - 1)) by nra.
    destruct (Z.eq_dec E (-1074)) as [ Hsub | Hnorm ].
    + rewrite Hsub in Ha. change (-1074 - 1)%Z with (-1075)%Z in Ha.
      fold rnd_eta in Ha. nra.
    + assert (HE : (E = d + e - 53)%Z) by (unfold E in *; lia).
      pose proof (Z.log2_spec (Z.pos m) ltac:(lia)) as [ Hlo _ ].
      apply IZR_le in Hlo. rewrite <- bpow_IZR in Hlo by apply Z.log2_nonneg.
      assert (Hsplit : bpow (E - 1) = rnd_u * (bpow (Z.log2 (Z.pos m)) * bpow e)).
      { unfold rnd_u. rewrite <- !bpow_add. f_equal. unfold d in HE. lia. }
      rewrite Hsplit in Ha. nra.
Qed.

(** ** Multiplication and addition of finite doubles *)

Lemma valid_finite_inv (s : bool) (m : positive) (e : Z) :
  SpecFloat.valid_binary 53 1024 (S754_finite s m e) = true ->
  (e <= 971 /\ -1074 <= e /\ Z.log2 (Z.pos m) + 1 <= 53 /\
   (Z.log2 (Z.pos m) + 1 = 53 \/ e = -1074))%Z.
Proof.
  unfold SpecFloat.valid_binary, bounded, canonical_mantissa. intros H.
  apply andb_prop in H as [ Hc Hb ].
  apply Z.leb_le in Hb. apply Z.eqb_eq in Hc.
  rewrite digits2_pos_log2, fexp_unfold in Hc. lia.
Qed.

Lemma SF2R_abs_finite (s : bool) (m : positive) (e : Z) :
  Rabs (SF2R (S754_finite s m e)) = IZR (Z.pos m) * bpow e.
Proof.
  simpl. rewrite !Rabs_mult, sgR_abs, Rmult_1_l.
  rewrite (Rabs_pos_eq (bpow e)) by (pose proof (bpow_pos e); lra).
  rewrite Rabs_pos_eq by (apply IZR_le; lia). reflexivity.
Qed.

Lemma binary_round_R (s : bool) (p : positive) (e : Z) :
  (e <= 971)%Z -> IZR (Z.pos p) * bpow e < bpow 999 ->
  SF_finite (binary_round 53 1024 s p e) = true /\
  Rabs (SF2R (binary_round 53 1024 s p e) - sgR s * IZR (Z.pos p) * bpow e)
  <= rnd_u * (IZR (Z.pos p) * bpow e) + rnd_eta.
Proof.
  intros He Hv. unfold binary_round.
  pose proof (shl_align_spec p e (fexp 53 1024 (Z.pos (digits2_pos p) + e))) as [ He' Hm' ].
  destruct (shl_align p e (fexp 53 1024 (Z.pos (digits2_pos p) + e))) as [ mz ez ].
  cbn [fst snd] in He', Hm'.
  set (t := fexp 53 1024 (Z.pos (digits2_pos p) + e)) in *.
  pose proof (value_bound_digits p e 999 Hv) as Hd.
  assert (Hlog : Z.log2 (Z.pos mz) = (Z.log2 (Z.pos p) + (e - ez))%Z).
  { rewrite Hm', He', Z.log2_mul_pow2 by lia. lia. }
  assert (Hval : IZR (Z.pos mz) * bpow ez = IZR (Z.pos p) * bpow e).
  { rewrite Hm', He', mult_IZR, <- bpow_IZR by lia.
    rewrite Rmult_assoc, <- bpow_add. do 2 f_equal. lia. }
  destruct (binary_round_aux_R s mz ez ltac:(lia) ltac:(lia)) as [ Hfin Herr ].
  split; [ exact Hfin | ].
  rewrite Rmult_assoc, Hval, <- Rmult_assoc in Herr. exact Herr.
Qed.

Lemma IZR_cond_Zopp (s : bool) (z : Z) : IZR (cond_Zopp s z) = sgR s * IZR z.
Proof. destruct s; simpl; [ rewrite opp_IZR | ]; lra. Qed.

Lemma binary_normalize_R (S e : Z) :
  (e <= 971)%Z -> Rabs (IZR S * bpow e) < bpow 999 ->
  SF_finite (binary_normalize 53 1024 S e false) = true /\
  Rabs (SF2R (binary_normalize 53 1024 S e false) - IZR S * bpow e)
  <= rnd_u * Rabs (IZR S * bpow e) + rnd_eta.
Proof.
  intros He Hv. pose proof (bpow_pos e) as Hbe.
  pose proof (bpow_pos (-1075)) as Heta. fold rnd_eta in Heta.
  assert (Hb : Rabs (bpow e) = bpow e) by (apply Rabs_pos_eq; lra).
  rewrite Rabs_mult, Hb in Hv |- *.
  destruct S as [ | p | p ]; unfold binary_normalize.
  - split; [ reflexivity | ]. simpl SF2R. rewrite Rabs_R0, Rmult_0_l, Rminus_0_r, Rabs_R0.
    lra.
  - assert (Hp : Rabs (IZR (Z.pos p)) = IZR (Z.pos p))
      by (apply Rabs_pos_eq, IZR_le; lia).
    rewrite Hp in Hv |- *.
    destruct (binary_round_R false p e He Hv) as [ Hfin Herr ].
    split; [ exact Hfin | ]. simpl sgR in Herr. rewrite Rmult_1_l in Herr. exact Herr.
  - assert (Hp : Rabs (IZR (Z.neg p)) = IZR (Z.pos p)).
    { change (Z.neg p) with (- Z.pos p)%Z. rewrite opp_IZR, Rabs_Ropp.
      apply Rabs_pos_eq, IZR_le. lia. }
    rewrite Hp in Hv |- *.
    destruct (binary_round_R true p e He Hv) as [ Hfin Herr ].
    split; [ exact Hfin | ]. simpl sgR in Herr.
    replace (IZR (Z.neg p) * bpow e) with (-1 * IZR (Z.pos p) * bpow e)
      by (change (Z.neg p) with (- Z.pos p)%Z; rewrite opp_IZR; lra).
    exact Herr.
Qed.

(** Multiplication of two finite doubles whose exact product is below
    the overflow range: the result is finite, within one relative
    rounding error and one underflow error of the exact product. *)
Lemma SFmul_R (x y : spec_float) :
  SpecFloat.valid_binary 53 1024 x = true -> SpecFloat.valid_binary 53 1024 y = true ->
  SF_finite x = true -> SF_finite y = true ->
  Rabs (SF2R x * SF2R y) < bpow 999 ->
  SF_finite (SFmul 53 1024 x y) = true /\
  Rabs (SF2R (SFmul 53 1024 x y) - SF2R x * SF2R y)
  <= rnd_u * Rabs (SF2R x * SF2R y) + rnd_eta.
Proof.
  intros Vx Vy Fx Fy Hv.
  pose proof (bpow_pos (-1075)) as Heta. fold rnd_eta in Heta.
  assert (Hzero : forall s r, r = 0 ->
            SF_finite (S754_zero s) = true /\
            Rabs (SF2R (S754_zero s) - r) <= rnd_u * Rabs r + rnd_eta).
  { intros s r ->. split; [ reflexivity | ]. simpl SF2R.
    rewrite Rminus_0_r, Rabs_R0, Rmult_0_r. lra. }
  destruct x as [ sx | sx | | sx mx ex ], y as [ sy | sy | | sy my ey ];
    try discriminate; unfold SFmul.
  - apply Hzero. simpl. lra.
  - apply Hzero. simpl. lra.
  - apply Hzero. simpl. lra.
  - rewrite Rabs_mult, !SF2R_abs_finite in Hv.
    rewrite Rabs_mult, !SF2R_abs_finite.
    apply valid_finite_inv in Vx as (Hex & Hex' & Hdx & Hcx).
    apply valid_finite_inv in Vy as (Hey & Hey' & Hdy & Hcy).
    assert (Hprod : IZR (Z.pos (mx * my)) * bpow (ex + ey)
                    = IZR (Z.pos mx) * bpow ex * (IZR (Z.pos my) * bpow ey)).
    { rewrite Pos2Z.inj_mul, mult_IZR, bpow_add. ring. }
    rewrite <- Hprod in Hv.
    pose proof (value_bound_digits _ _ _ Hv) as Hd.
    pose proof (Z.log2_mul_below (Z.pos mx) (Z.pos my) ltac:(lia) ltac:(lia)) as Hl.
    rewrite <- Pos2Z.inj_mul in Hl.
    destruct (binary_round_aux_R (xorb sx sy) (mx * my) (ex + ey) ltac:(lia) ltac:(lia))
      as [ Hfin Herr ].
    split; [ exact Hfin | ].
    rewrite <- Hprod. simpl SF2R.
    replace (sgR sx * IZR (Z.pos mx) * bpow ex * (sgR sy * IZR (Z.pos my) * bpow ey))
      with (sgR (xorb sx sy) * IZR (Z.pos (mx * my)) * bpow (ex + ey))
      by (rewrite sgR_xorb, Pos2Z.inj_mul, mult_IZR, bpow_add; ring).
    exact Herr.
Qed.

(** Addition of two finite doubles whose exact sum is below the
    overflow range. *)
Lemma SFadd_R (x y : spec_float) :
  SpecFloat.valid_binary 53 1024 x = true -> SpecFloat.valid_binary 53 1024 y = true ->
  SF_finite x = true -> SF_finite y = true ->
  Rabs (SF2R x + SF2R y) < bpow 999 ->
  SF_finite (SFadd 53 1024 x y) = true /\
  Rabs (SF2R (SFadd 53 1024 x y) - (SF2R x + SF2R y))
  <= rnd_u * Rabs (SF2R x + SF2R y) + rnd_eta.
Proof.
  intros Vx Vy Fx Fy Hv.
  pose proof (bpow_pos (-1075)) as Heta. fold rnd_eta in Heta.
  pose proof (bpow_pos (-53)) as Hu. fold rnd_u in Hu.
  assert (Hexact : forall f r, SF_finite f = true -> SF2R f = r ->
            SF_finite f = true /\ Rabs (SF2R f - r) <= rnd_u * Rabs r + rnd_eta).
  { intros f r Hf <-. split; [ exact Hf | ].
    rewrite Rminus_diag, Rabs_R0. pose proof (Rabs_pos (SF2R f)). nra. }
  destruct x as [ sx | sx | | sx mx ex ], y as [ sy | sy | | sy my ey ];
    try discriminate; unfold SFadd.
  - destruct sx, sy; apply Hexact; simpl; try reflexivity; lra.
  - apply Hexact; [ reflexivity | simpl; lra ].
  - apply Hexact; [ reflexivity | simpl; lra ].
  - apply valid_finite_inv in Vx as (Hex & Hex' & Hdx & Hcx).
    apply valid_finite_inv in Vy as (Hey & Hey' & Hdy & Hcy).
    cbv zeta.
    pose proof (shl_align_spec mx ex (Z.min ex ey)) as [ _ Hmx ].
    pose proof (shl_align_spec my ey (Z.min ex ey)) as [ _ Hmy ].
    rewrite Hmx, Hmy. clear Hmx Hmy.
    set (ez := Z.min ex ey).
    replace (Z.min ex ez) with ez by (unfold ez; lia).
    replace (Z.min ey ez) with ez by (unfold ez; lia).
    set (S := (cond_Zopp sx (Z.pos mx * 2 ^ (ex - ez))
               + cond_Zopp sy (Z.pos my * 2 ^ (ey - ez)))%Z).
    assert (HS : IZR S * bpow ez
                 = SF2R (S754_finite sx mx ex) + SF2R (S754_finite sy my ey)).
    { unfold S. rewrite plus_IZR, !IZR_cond_Zopp, !mult_IZR.
      rewrite <- !bpow_IZR by (unfold ez; lia). simpl SF2R.
      replace (bpow ex) with (bpow (ex - ez) * bpow ez)
        by (rewrite <- bpow_add; f_equal; lia).
      replace (bpow ey) with (bpow (ey - ez) * bpow ez)
        by (rewrite <- bpow_add; f_equal; lia).
      ring. }
    rewrite <- HS in *.
    apply binary_normalize_R; [ unfold ez; lia | exact Hv ].
Qed.

Lemma FR_mul (x y : float) :
  finite x = true -> finite y = true ->
  Rabs (FR x * FR y) < bpow 999 ->
  finite (x * y) = true /\
  Rabs (FR (x * y) - FR x * FR y) <= rnd_u * Rabs (FR x * FR y) + rnd_eta.
Proof.
  unfold finite, FR. rewrite FloatAxioms.mul_spec.
  apply SFmul_R; apply FloatAxioms.Prim2SF_valid.
Qed.

Lemma FR_add (x y : float) :
  finite x = true -> finite y = true ->
  Rabs (FR x + FR y) < bpow 999 ->
  finite (x + y) = true /\
  Rabs (FR (x + y) - (FR x + FR y)) <= rnd_u * Rabs (FR x + FR y) + rnd_eta.
Proof.
  unfold finite, FR. rewrite FloatAxioms.add_spec.
  apply SFadd_R; apply FloatAxioms.Prim2SF_valid.
Qed.

(** ** Approximations and running sums *)

Lemma bpow_neg (k : Z) : (0 <= k)%Z -> bpow (- k) = / IZR (2 ^ k).
Proof.
  intros Hk. rewrite <- bpow_IZR by exact Hk.
  pose proof (bpow_pos k) as Hp.
  apply Rmult_eq_reg_r with (bpow k); [ | lra ].
  rewrite <- bpow_add, Rinv_l by lra.
  replace (- k + k)%Z with 0%Z by lia. reflexivity.
Qed.

Lemma rnd_u_val : rnd_u = / 9007199254740992.
Proof. exact (bpow_neg 53 ltac:(lia)). Qed.

Lemma rnd_u_bounds : 0 < rnd_u <= / 9007199254740992.
Proof. rewrite rnd_u_val. lra. Qed.

Lemma rnd_eta_pos : 0 < rnd_eta.
Proof. apply bpow_pos. Qed.

Lemma Rabs_mul_bound (a b A B : R) :
  Rabs a <= A -> Rabs b <= B -> Rabs (a * b) <= A * B.
Proof.
  intros Ha Hb. rewrite Rabs_mult.
  apply Rmult_le_compat; auto using Rabs_pos.
Qed.

Lemma approx_bound (x : float) (r delta R0 : R) :
  approx x r delta -> Rabs r <= R0 -> Rabs (FR x) <= R0 + delta.
Proof.
  intros [ _ Hx ] Hr.
  replace (FR x) with (r + (FR x - r)) by ring.
  eapply Rle_trans; [ apply Rabs_triang | lra ].
Qed.

Lemma approx_weaken (x : float) (r d d' : R) :
  approx x r d -> d <= d' -> approx x r d'.
Proof. intros [ Hf Hx ] Hd. split; [ exact Hf | lra ]. Qed.

(** The product of two approximations. *)
Lemma approx_mul (x y : float) (r s dx dy R0 S0 P d : R) :
  approx x r dx -> approx y s dy ->
  Rabs r <= R0 -> Rabs s <= S0 ->
  (R0 + dx) * (S0 + dy) <= P -> P < bpow 999 ->
  R0 * dy + S0 * dx + dx * dy + rnd_u * P + rnd_eta <= d ->
  approx (x * y) (r * s) d.
Proof.
  intros Hx Hy Hr Hs HP Hover Hd.
  pose proof (approx_bound _ _ _ _ Hx Hr) as Hbx.
  pose proof (approx_bound _ _ _ _ Hy Hs) as Hby.
  destruct Hx as [ Hfx Hx ], Hy as [ Hfy Hy ].
  pose proof (Rabs_mul_bound _ _ _ _ Hbx Hby) as Hprod.
  destruct (FR_mul x y Hfx Hfy ltac:(lra)) as [ Hfin Herr ].
  split; [ exact Hfin | ].
  pose proof (bpow_pos (-53)) as Hu. fold rnd_u in Hu.
  assert (Hu1 : rnd_u * Rabs (FR x * FR y) <= rnd_u * P)
    by (apply Rmult_le_compat_l; lra).
  pose proof (Rabs_pos r) as Hr0.
  pose proof (Rabs_pos (FR x - r)) as Hdx0.
  pose proof (Rabs_pos (FR y - s)) as Hdy0.
  assert (Hsplit : Rabs (FR x * FR y - r * s) <= dx * (S0 + dy) + R0 * dy).
  { replace (FR x * FR y - r * s) with ((FR x - r) * FR y + r * (FR y - s)) by ring.
    eapply Rle_trans; [ apply Rabs_triang | ].
    apply Rplus_le_compat; apply Rabs_mul_bound; assumption. }
  replace (FR (x * y) - r * s)
    with ((FR (x * y) - FR x * FR y) + (FR x * FR y - r * s)) by ring.
  eapply Rle_trans; [ apply Rabs_triang | ]. lra.
Qed.

(** The running sum of a loop of at most 64 additions. *)
Section Accumulate.
Variables (T d E W : R).
Hypothesis HT : 0 <= T.
Hypothesis Hd : 0 <= d.
Hypothesis HE : d + rnd_u * W + rnd_eta <= E.
Hypothesis HW : 64 * (T + E) <= W.
Hypothesis Hover : W < bpow 999.


Lemma E_nonneg : 0 <= E.
Proof using HT Hd HE HW.
  pose proof (bpow_pos (-53)) as Hu. fold rnd_u in Hu.
  pose proof (bpow_pos (-1075)) as Heta. fold rnd_eta in Heta.
  destruct (Rle_lt_dec 0 E) as [ | Hneg ]; [ assumption | ].
  pose proof rnd_u_bounds as Hub.
  assert (rnd_u * (64 * (T + E)) <= rnd_u * W) by (apply Rmult_le_compat_l; lra).
  assert (0 <= rnd_u * T) by (apply Rmult_le_pos; lra).
  assert (E / 128 <= rnd_u * E) by nra.
  lra.
Qed.

Lemma Inv_start : Inv T E 0 0%float 0.
Proof.
  unfold Inv. split; [ reflexivity | ].
  replace (FR 0%float) with 0 by (unfold FR; simpl; reflexivity).
  simpl INR. rewrite Rminus_diag, Rabs_R0. lra.
Qed.

Lemma Inv_step (j : nat) (s t : float) (r rt : R) :
  (j < 64)%nat -> Inv T E j s r -> approx t rt d -> Rabs rt <= T ->
  Inv T E (S j) (s + t) (r + rt).
Proof using HT Hd HE HW Hover.
  intros Hj (Hfs & Hs & Hr) Ht Hrt.
  pose proof E_nonneg as HE0.
  pose proof (approx_bound _ _ _ _ Ht Hrt) as Hbt.
  destruct Ht as [ Hft Ht ].
  assert (Hbs : Rabs (FR s) <= INR j * T + INR j * E).
  { replace (FR s) with (r + (FR s - r)) by ring.
    eapply Rle_trans; [ apply Rabs_triang | lra ]. }
  assert (Hj' : INR j + 1 <= 64).
  { rewrite <- S_INR. replace 64 with (INR 64) by (simpl; lra). apply le_INR. lia. }
  pose proof (pos_INR j) as Hj0.
  pose proof rnd_u_bounds as Hu. pose proof rnd_eta_pos as Heta.
  assert (HuW : 0 <= rnd_u * W) by (apply Rmult_le_pos; lra).
  assert (Hsum : Rabs (FR s + FR t) <= W).
  { eapply Rle_trans; [ apply Rabs_triang | ].
    assert ((INR j + 1) * (T + E) <= 64 * (T + E))
      by (apply Rmult_le_compat_r; lra).
    lra. }
  destruct (FR_add s t Hfs Hft ltac:(lra)) as [ Hfin Herr ].
  assert (Hu1 : rnd_u * Rabs (FR s + FR t) <= rnd_u * W)
    by (apply Rmult_le_compat_l; lra).
  split; [ exact Hfin | ]. rewrite S_INR. split.
  - replace (FR (s + t) - (r + rt))
      with ((FR (s + t) - (FR s + FR t)) + ((FR s - r) + (FR t - rt))) by ring.
    eapply Rle_trans; [ apply Rabs_triang | ].
    eapply Rle_trans; [ apply Rplus_le_compat_l, Rabs_triang | ]. lra.
  - eapply Rle_trans; [ apply Rabs_triang | ]. lra.
Qed.

Lemma Inv_fold {A : Type} (f : A -> float) (g : A -> R) (l : list A) :
  (forall i, In i l -> approx (f i) (g i) d /\ Rabs (g i) <= T) ->
  forall (j : nat) (s : float) (r : R),
    Inv T E j s r -> (j + length l <= 64)%nat ->
    Inv T E (j + length l)
        (foldl (fun s i => (s + f i)%float) s l)
        (foldl (fun r i => r + g i) r l).
Proof using HT Hd HE HW Hover.
  induction l as [ | a l IH ]; intros Hl j s r HI Hlen; simpl in *.
  - rewrite Nat.add_0_r. exact HI.
  - replace (j + S (length l))%nat with (S j + length l)%nat by lia.
    apply IH; [ intros i Hi; apply Hl; right; exact Hi | | lia ].
    destruct (Hl a (or_introl eq_refl)) as [ Ha Hga ].
    apply Inv_step; [ lia | exact HI | exact Ha | exact Hga ].
Qed.

Lemma Inv_fold2 {A B : Type} (f : A -> B -> float) (g : A -> B -> R)
    (xs : list A) (ys : list B) :
  (forall x y, In x xs -> In y ys -> approx (f x y) (g x y) d /\ Rabs (g x y) <= T) ->
  forall (j : nat) (s : float) (r : R),
    Inv T E j s r -> (j + length xs * length ys <= 64)%nat ->
    Inv T E (j + length xs * length ys)
        (foldl (fun s x => foldl (fun s y => (s + f x y)%float) s ys) s xs)
        (foldl (fun r x => foldl (fun r y => r + g x y) r ys) r xs).
Proof using HT Hd HE HW Hover.
  induction xs as [ | a xs IH ]; intros Hl j s r HI Hlen; simpl in *.
  - rewrite Nat.add_0_r. exact HI.
  - replace (j + (length ys + length xs * length ys))%nat
      with ((j + length ys) + length xs * length ys)%nat by lia.
    apply IH; [ intros x y Hx Hy; apply Hl; [ right; exact Hx | exact Hy ] | | lia ].
    apply Inv_fold; [ intros y Hy; apply Hl; [ left; reflexivity | exact Hy ] | exact HI | lia ].
Qed.
End Accumulate.

Lemma get_map2 (f : nat -> nat -> float) (i j : nat) :
  (i < 8)%nat -> (j < 8)%nat ->
  get (map (fun u => map (fun v => f u v) indices) indices) i j = f i j.
Proof.
  intros Hi Hj. unfold get, indices.
  do 8 (destruct i as [ | i ]; [ do 8 (destruct j as [ | j ]; [ reflexivity | ]); lia | ]).
  lia.
Qed.

(** ** Orthogonality of the cosine basis *)

Lemma sin_cos_telescope (k n0 n1 phi : R) :
  n1 = 2 * k + 1 -> n0 = 2 * k - 1 ->
  2 * sin (phi / 2) * cos (k * phi) = sin (n1 * (phi / 2)) - sin (n0 * (phi / 2)).
Proof.
  intros -> ->.
  replace ((2 * k + 1) * (phi / 2)) with (k * phi + phi / 2) by field.
  replace ((2 * k - 1) * (phi / 2)) with (k * phi - phi / 2) by field.
  rewrite sin_plus, sin_minus. ring.
Qed.

Lemma dirichlet_closed (phi : R) :
  2 * sin (phi / 2) * dirichlet phi = sin (15 * (phi / 2)).
Proof.
  unfold dirichlet.
  pose proof (sin_cos_telescope 1 1 3 phi ltac:(lra) ltac:(lra)) as H1.
  pose proof (sin_cos_telescope 2 3 5 phi ltac:(lra) ltac:(lra)) as H2.
  pose proof (sin_cos_telescope 3 5 7 phi ltac:(lra) ltac:(lra)) as H3.
  pose proof (sin_cos_telescope 4 7 9 phi ltac:(lra) ltac:(lra)) as H4.
  pose proof (sin_cos_telescope 5 9 11 phi ltac:(lra) ltac:(lra)) as H5.
  pose proof (sin_cos_telescope 6 11 13 phi ltac:(lra) ltac:(lra)) as H6.
  pose proof (sin_cos_telescope 7 13 15 phi ltac:(lra) ltac:(lra)) as H7.
  assert (H0 : sin (1 * (phi / 2)) = sin (phi / 2)) by (f_equal; ring).
  lra.
Qed.

Lemma sin_npi_minus (n : nat) (t : R) :
  sin (INR n * PI - t) = - (-1) ^ n * sin t.
Proof.
  induction n as [ | n IH ].
  - simpl. rewrite Rmult_0_l, Rminus_0_l, sin_neg. ring.
  - rewrite S_INR.
    replace ((INR n + 1) * PI - t) with ((INR n * PI - t) + PI) by ring.
    rewrite neg_sin, IH. simpl. ring.
Qed.

(** The Dirichlet kernel at the multiples of [pi/8]. *)
Lemma dirichlet_value (j : nat) :
  (1 <= j <= 15)%nat -> dirichlet (INR j * PI / 8) = - (-1) ^ j / 2.
Proof.
  intros Hj.
  pose proof (dirichlet_closed (INR j * PI / 8)) as H.
  replace (15 * (INR j * PI / 8 / 2)) with (INR j * PI - INR j * PI / 8 / 2) in H by field.
  rewrite sin_npi_minus in H.
  assert (Hpos : 0 < sin (INR j * PI / 8 / 2)).
  { pose proof PI_RGT_0 as Hpi.
    assert (1 <= INR j <= 15).
    { split; [ replace 1 with (INR 1) by reflexivity
             | replace 15 with (INR 15) by (simpl; lra) ]; apply le_INR; lia. }
    apply sin_gt_0; nra. }
  apply Rmult_eq_reg_l with (2 * sin (INR j * PI / 8 / 2)); [ | lra ].
  rewrite H. field.
Qed.

Lemma dirichlet_0 : dirichlet 0 = 15 / 2.
Proof. unfold dirichlet. rewrite !Rmult_0_r, cos_0. lra. Qed.

Lemma cos_cos (w a b : R) :
  w * cos a * cos b = w * (cos (a - b) + cos (a + b)) / 2.
Proof. rewrite cos_minus, cos_plus. field. Qed.

Lemma kappa_0_sqr : kappa 0 * kappa 0 = 1 / 2.
Proof. unfold kappa. simpl. apply sqrt_sqrt. lra. Qed.

Lemma angle_sub (x x' k : nat) (kr : R) :
  (x' <= x)%nat -> INR k = kr ->
  cos (INR ((2 * x + 1) * k) * PI / 16 - INR ((2 * x' + 1) * k) * PI / 16)
  = cos (kr * (INR (x - x') * PI / 8)).
Proof.
  intros Hle <-. f_equal.
  rewrite minus_INR by exact Hle.
  rewrite !mult_INR, !plus_INR, !mult_INR. simpl (INR 2). simpl (INR 1). field.
Qed.

Lemma angle_add (x x' k : nat) (kr : R) :
  INR k = kr ->
  cos (INR ((2 * x + 1) * k) * PI / 16 + INR ((2 * x' + 1) * k) * PI / 16)
  = cos (kr * (INR (x + x' + 1) * PI / 8)).
Proof.
  intros <-. f_equal.
  rewrite !mult_INR, !plus_INR, !mult_INR. simpl (INR 2). simpl (INR 1). field.
Qed.

Lemma gram_dirichlet (x x' : nat) :
  (x' <= x)%nat ->
  gram x x' = (dirichlet (INR (x - x') * PI / 8) + dirichlet (INR (x + x' + 1) * PI / 8)) / 8.
Proof.
  intros Hle. unfold gram, sum8, weight, dirichlet, ideal_cos.
  rewrite kappa_0_sqr. change (kappa 1) with 1. change (kappa 2) with 1.
  change (kappa 3) with 1. change (kappa 4) with 1. change (kappa 5) with 1.
  change (kappa 6) with 1. change (kappa 7) with 1.
  rewrite !Nat.mul_0_r. simpl (INR 0). rewrite !Rmult_0_l.
  replace (0 / 16) with 0 by field. rewrite cos_0.
  rewrite !cos_cos.
  rewrite (angle_sub x x' 1 1 Hle), (angle_add x x' 1 1) by (simpl; lra).
  rewrite (angle_sub x x' 2 2 Hle), (angle_add x x' 2 2) by (simpl; lra).
  rewrite (angle_sub x x' 3 3 Hle), (angle_add x x' 3 3) by (simpl; lra).
  rewrite (angle_sub x x' 4 4 Hle), (angle_add x x' 4 4) by (simpl; lra).
  rewrite (angle_sub x x' 5 5 Hle), (angle_add x x' 5 5) by (simpl; lra).
  rewrite (angle_sub x x' 6 6 Hle), (angle_add x x' 6 6) by (simpl; lra).
  rewrite (angle_sub x x' 7 7 Hle), (angle_add x x' 7 7) by (simpl; lra).
  field.
Qed.

Lemma pow_m1_shift (d n : nat) : (-1) ^ (d + 2 * n + 1) = - (-1) ^ d.
Proof.
  rewrite !pow_add, pow_1_even. simpl. ring.
Qed.

Lemma gram_sym (x x' : nat) : gram x x' = gram x' x.
Proof. unfold gram, sum8. ring. Qed.

(** The cosine basis is orthogonal under the weights of the transform. *)
Lemma gram_delta (x x' : nat) :
  (x < 8)%nat -> (x' < 8)%nat -> gram x x' = if Nat.eqb x x' then 1 else 0.
Proof.
  assert (Hle : forall a b, (a < 8)%nat -> (b <= a)%nat ->
            gram a b = if Nat.eqb a b then 1 else 0).
  { intros a b Ha Hb. rewrite gram_dirichlet by exact Hb.
    destruct (Nat.eqb_spec a b) as [ -> | Hne ].
    - rewrite Nat.sub_diag. simpl (INR 0). rewrite Rmult_0_l.
      replace (0 / 8) with 0 by field.
      rewrite dirichlet_0, dirichlet_value by lia.
      replace (b + b + 1)%nat with (0 + 2 * b + 1)%nat by lia.
      rewrite pow_m1_shift. simpl. field.
    - rewrite !dirichlet_value by lia.
      replace (a + b + 1)%nat with ((a - b) + 2 * b + 1)%nat by lia.
      rewrite pow_m1_shift. field. }
  intros Hx Hx'. destruct (Nat.le_ge_cases x' x) as [ H | H ].
  - apply Hle; assumption.
  - rewrite gram_sym, Nat.eqb_sym. apply Hle; assumption.
Qed.

(** ** The angles passed to the cosine *)

Lemma Rabs_sin_le (t : R) : Rabs (sin t) <= Rabs t.
Proof.
  assert (Hpos : forall x, 0 < x -> Rabs (sin x) <= x).
  { intros x Hx. pose proof (sin_lt_x x Hx) as Hlt.
    apply Rabs_le. split; [ | lra ].
    destruct (Rle_lt_dec x 1) as [ H1 | H1 ].
    - pose proof PI_RGT_0. pose proof (PI_2_3_7_ineq 0) as [ Hlo _ ].
      pose proof (sin_ge_0 x ltac:(lra)) as Hs.
      assert (x <= PI) by (pose proof PI2_3_2; unfold PI2 in *; lra).
      lra.
    - pose proof (SIN_bound x). lra. }
  destruct (Rtotal_order t 0) as [ Hneg | [ -> | Hp ] ].
  - replace t with (- (- t)) at 1 by ring.
    rewrite sin_neg, Rabs_Ropp, (Rabs_left t) by exact Hneg.
    apply Hpos. lra.
  - rewrite sin_0, Rabs_R0. lra.
  - rewrite (Rabs_right t) by lra. apply Hpos. exact Hp.
Qed.

Lemma cos_lipschitz (p q : R) : Rabs (cos p - cos q) <= Rabs (p - q).
Proof.
  rewrite form2.
  replace (-2 * sin ((p - q) / 2) * sin ((p + q) / 2))
    with (2 * sin ((p - q) / 2) * - sin ((p + q) / 2)) by ring.
  rewrite !Rabs_mult, Rabs_Ropp, (Rabs_right 2) by lra.
  pose proof (Rabs_sin_le ((p - q) / 2)) as H1.
  assert (H2 : Rabs (sin ((p + q) / 2)) <= 1).
  { apply Rabs_le. pose proof (SIN_bound ((p + q) / 2)). lra. }
  assert (H3 : Rabs ((p - q) / 2) = Rabs (p - q) / 2).
  { unfold Rdiv. rewrite Rabs_mult, (Rabs_right (/ 2)) by lra. reflexivity. }
  pose proof (Rabs_pos (sin ((p - q) / 2))). pose proof (Rabs_pos (sin ((p + q) / 2))).
  nra.
Qed.

(** The angle that the code passes to [cos], against the exact angle. *)
Lemma dct_angle_accuracy (x u : nat) :
  (x < 8)%nat -> (u < 8)%nat ->
  finite (dct_angle x u) = true /\
  Rabs (FR (dct_angle x u) - INR ((2 * x + 1) * u) * PI / 16) <= / 35184372088832.
Proof.
  intros Hx Hu. pose proof PI_enclosure as [ Hlo Hhi ].
  do 8 (destruct x as [ | x ]; [
    do 8 (destruct u as [ | u ]; [
      split; [ vm_compute; reflexivity | ];
      unfold FR;
      match goal with
      | |- context [ Prim2SF ?a ] =>
          let v := eval vm_compute in (Prim2SF a) in
          replace (Prim2SF a) with v by (vm_compute; reflexivity)
      end;
      unfold SF2R, sgR, bpow; simpl powerRZ; simpl INR;
      apply Rabs_le; lra | ]); lia | ]).
  lia.
Qed.

(** ** The exact round trip *)

Lemma sum8_ext (f g : nat -> R) :
  (forall i, (i < 8)%nat -> f i = g i) -> sum8 f = sum8 g.
Proof. intros H. unfold sum8. rewrite !H by lia. reflexivity. Qed.

Lemma foldl2_sum8 (g : nat -> nat -> R) :
  foldl (fun r x => foldl (fun r y => r + g x y) r indices) 0 indices
  = sum8 (fun x => sum8 (fun y => g x y)).
Proof. unfold indices, sum8. simpl. ring. Qed.

Lemma In_indices (i : nat) : In i indices -> (i < 8)%nat.
Proof. unfold indices. rewrite in_seq. lia. Qed.

(** The one-dimensional inversion: the weighted cosine sums undo each
    other. *)
Lemma invert1 (f : nat -> R) (x' : nat) :
  (x' < 8)%nat ->
  sum8 (fun u => weight u * ideal_cos x' u * sum8 (fun x => f x * ideal_cos x u)) = f x'.
Proof.
  intros Hx'.
  transitivity (sum8 (fun x => f x * gram x x')).
  { unfold gram, sum8. ring. }
  unfold sum8. rewrite !gram_delta by lia.
  do 8 (destruct x' as [ | x' ]; [ simpl; ring | ]). lia.
Qed.

(** The exact inverse transform undoes the exact forward transform. *)
Lemma real_round_trip (m : nat -> nat -> R) (x' y' : nat) :
  (x' < 8)%nat -> (y' < 8)%nat -> real_idct (real_dct m) x' y' = m x' y'.
Proof.
  intros Hx' Hy'.
  set (A := fun (u y : nat) => sum8 (fun x => m x y * ideal_cos x u)).
  assert (HS : forall u v, real_dct_sum m u v = sum8 (fun y => A u y * ideal_cos y v)).
  { intros u v. unfold real_dct_sum, A, sum8. ring. }
  transitivity
    (sum8 (fun u => weight u * ideal_cos x' u *
       sum8 (fun v => weight v * ideal_cos y' v * real_dct_sum m u v))).
  { unfold real_idct, real_idct_sum, real_dct, weight, sum8. field. }
  transitivity (sum8 (fun u => weight u * ideal_cos x' u * A u y')).
  { apply sum8_ext. intros u Hu. f_equal.
    transitivity (sum8 (fun v => weight v * ideal_cos y' v *
                    sum8 (fun y => A u y * ideal_cos y v))).
    - apply sum8_ext. intros v Hv. rewrite HS. reflexivity.
    - apply invert1. exact Hy'. }
  unfold A. apply (invert1 (fun x => m x y')). exact Hx'.
Qed.

Lemma ideal_cos_bound (x u : nat) : Rabs (ideal_cos x u) <= 1.
Proof. unfold ideal_cos. apply Rabs_le. apply COS_bound. Qed.

Lemma kappa_0_bounds : 7 / 10 <= kappa 0 <= 1.
Proof.
  pose proof kappa_0_sqr as Hs.
  assert (H0 : 0 <= kappa 0) by (unfold kappa; simpl; apply sqrt_pos).
  split; nra.
Qed.

Lemma kappa_bound (u : nat) : Rabs (kappa u) <= 1.
Proof.
  destruct u as [ | u ].
  - apply Rabs_le. pose proof kappa_0_bounds. lra.
  - unfold kappa. simpl. rewrite Rabs_R1. lra.
Qed.

Lemma coef_approx (u : nat) : approx (coef u) (kappa u) (/ 9007199254740992).
Proof.
  destruct u as [ | u ].
  - split; [ vm_compute; reflexivity | ].
    unfold FR.
    let v := eval vm_compute in (Prim2SF (coef 0)) in
    replace (Prim2SF (coef 0)) with v by (vm_compute; reflexivity).
    unfold SF2R, sgR, bpow. simpl powerRZ.
    pose proof kappa_0_sqr as Hs. pose proof kappa_0_bounds as Hb.
    apply Rabs_le. split; nra.
  - split; [ vm_compute; reflexivity | ].
    unfold FR. change (coef (S u)) with 1%float. change (kappa (S u)) with 1.
    replace (Prim2SF 1) with (S754_finite false 4503599627370496 (-52))
      by (vm_compute; reflexivity).
    unfold SF2R, sgR, bpow. simpl powerRZ. apply Rabs_le. lra.
Qed.

Lemma quarter_approx : approx 0.25%float (1 / 4) 0.
Proof.
  split; [ vm_compute; reflexivity | ].
  unfold FR.
  replace (Prim2SF 0.25) with (S754_finite false 4503599627370496 (-54))
    by (vm_compute; reflexivity).
  unfold SF2R, sgR, bpow. simpl powerRZ. apply Rabs_le. lra.
Qed.

Lemma Rabs_mul_le (a b A B C : R) :
  Rabs a <= A -> Rabs b <= B -> A * B <= C -> Rabs (a * b) <= C.
Proof. intros Ha Hb HC. pose proof (Rabs_mul_bound a b A B Ha Hb). lra. Qed.

(** ** The computed round trip *)

Section RoundTrip.
Variable fcos : float -> float.
Variables (eps B : R).
Variable M : block.
Hypothesis Heps : 0 <= eps <= 1.
Hypothesis HB : bpow (-900) <= B <= bpow 900.
Hypothesis Hcos : cos_accurate fcos eps.
Hypothesis HM : block_bounded M B.

(** The numbers the error budget is counted in: every bound below is a
    multiple of [B * unit_error eps], which dominates the rounding
    errors [rnd_u * B] and the underflow error [rnd_eta]. *)
Lemma budget :
  0 < B /\ / 1099511627776 <= unit_error eps <= 2 /\
  B / 1099511627776 <= B * unit_error eps <= 2 * B /\
  0 <= B * unit_error eps * unit_error eps <= 2 * (B * unit_error eps) /\
  0 < rnd_eta <= B / 1267650600228229401496703205376 /\
  1099511627776 * B < bpow 999 /\
  rnd_eta <= / 1267650600228229401496703205376 /\ 2 < bpow 999.
Proof using Heps HB.
  pose proof (bpow_pos (-900)) as Hp.
  assert (H0 : 0 < B) by lra.
  assert (Ht : / 1099511627776 <= unit_error eps <= 2) by (unfold unit_error; lra).
  assert (Hz : B / 1099511627776 <= B * unit_error eps <= 2 * B) by nra.
  assert (Hzz : 0 <= B * unit_error eps * unit_error eps <= 2 * (B * unit_error eps)) by nra.
  assert (Heta : rnd_eta <= B / 1267650600228229401496703205376).
  { unfold rnd_eta. replace (-1075)%Z with (-900 + -75 + - (100))%Z by lia.
    rewrite !bpow_add, (bpow_neg 100) by lia.
    pose proof (bpow_le (-75) 0 ltac:(lia)) as H75. change (bpow 0) with 1 in H75.
    pose proof (bpow_pos (-75)).
    change (2 ^ 100)%Z with 1267650600228229401496703205376%Z.
    assert (bpow (-900) * bpow (-75) <= B) by nra.
    unfold Rdiv. apply Rmult_le_compat_r; lra. }
  assert (Hbig : 1099511627776 * B < bpow 999).
  { pose proof (bpow_IZR 40 ltac:(lia)) as H40.
    change (2 ^ 40)%Z with 1099511627776%Z in H40. rewrite <- H40.
    pose proof (bpow_lt 940 999 ltac:(lia)).
    replace 940%Z with (40 + 900)%Z in * by lia. rewrite bpow_add in *.
    pose proof (bpow_pos 40). nra. }
  assert (Habs : rnd_eta <= / 1267650600228229401496703205376).
  { unfold rnd_eta. pose proof (bpow_le (-1075) (- (100)) ltac:(lia)) as Hle.
    rewrite (bpow_neg 100) in Hle by lia. exact Hle. }
  assert (Htwo : 2 < bpow 999) by (rewrite <- bpow_1; apply bpow_lt; lia).
  pose proof rnd_eta_pos. repeat split; lra.
Qed.

(** A computed cosine against the cosine of the exact angle. *)
Lemma cos_approx (x u : nat) :
  (x < 8)%nat -> (u < 8)%nat -> approx (fcos (dct_angle x u)) (ideal_cos x u) (unit_error eps).
Proof using Hcos.
  intros Hx Hu. destruct (Hcos x u Hx Hu) as [ Hf He ].
  destruct (dct_angle_accuracy x u Hx Hu) as [ _ Ha ].
  split; [ exact Hf | ]. unfold ideal_cos, unit_error.
  pose proof (cos_lipschitz (FR (dct_angle x u)) (INR ((2 * x + 1) * u) * PI / 16)) as Hl.
  replace (FR (fcos (dct_angle x u)) - cos (INR ((2 * x + 1) * u) * PI / 16))
    with ((FR (fcos (dct_angle x u)) - cos (FR (dct_angle x u)))
          + (cos (FR (dct_angle x u)) - cos (INR ((2 * x + 1) * u) * PI / 16))) by ring.
  eapply Rle_trans; [ apply Rabs_triang | ]. lra.
Qed.

Lemma entry_approx (x y : nat) :
  (x < 8)%nat -> (y < 8)%nat -> approx (get M x y) (block_value M x y) 0 /\ Rabs (block_value M x y) <= B.
Proof using HM.
  intros Hx Hy. destruct (HM x y Hx Hy) as [ Hf Hb ].
  split; [ | exact Hb ]. split; [ exact Hf | ].
  unfold block_value. rewrite Rminus_diag, Rabs_R0. lra.
Qed.


(** One term [block[x][y] * cos1 * cos2] of the forward sum. *)
Lemma dct_term_approx (x y u v : nat) :
  (x < 8)%nat -> (y < 8)%nat -> (u < 8)%nat -> (v < 8)%nat ->
  approx (get M x y * fcos (dct_angle x u) * fcos (dct_angle y v))
         (block_value M x y * ideal_cos x u * ideal_cos y v) (8 * (B * unit_error eps)) /\
  Rabs (block_value M x y * ideal_cos x u * ideal_cos y v) <= B.
Proof using Heps HB Hcos HM.
  intros Hx Hy Hu Hv.
  destruct budget as (H0 & Ht & Hz & Hzz & Heta & Hbig & Habs & Htwo).
  destruct (entry_approx x y Hx Hy) as [ Ha Hb ].
  pose proof (cos_approx x u Hx Hu) as Hc1.
  pose proof (cos_approx y v Hy Hv) as Hc2.
  pose proof (ideal_cos_bound x u) as Hi1.
  pose proof (ideal_cos_bound y v) as Hi2.
  assert (H1 : approx (get M x y * fcos (dct_angle x u)) (block_value M x y * ideal_cos x u)
                 (2 * (B * unit_error eps))).
  { refine (approx_mul _ _ _ _ 0 (unit_error eps) B 1 (3 * B) _ Ha Hc1 Hb Hi1 _ _ _); (rewrite ?rnd_u_val; lra). }
  assert (Hb1 : Rabs (block_value M x y * ideal_cos x u) <= B).
  { apply (Rabs_mul_le _ _ B 1); [ assumption | assumption | lra ]. }
  split.
  - refine (approx_mul _ _ _ _ (2 * (B * unit_error eps)) (unit_error eps) B 1 (15 * B) _ H1 Hc2 Hb1 Hi2 _ _ _); (rewrite ?rnd_u_val; lra).
  - apply (Rabs_mul_le _ _ B 1); [ assumption | assumption | lra ].
Qed.

(** The forward sum of 64 terms. *)
Lemma dct_sum_approx (u v : nat) :
  (u < 8)%nat -> (v < 8)%nat ->
  approx (dct_sum fcos M u v) (real_dct_sum (block_value M) u v) (576 * (B * unit_error eps)) /\
  Rabs (real_dct_sum (block_value M) u v) <= 64 * B.
Proof using Heps HB Hcos HM.
  intros Hu Hv.
  destruct budget as (H0 & Ht & Hz & Hzz & Heta & Hbig & Habs & Htwo).
  pose proof (Inv_fold2 B (8 * (B * unit_error eps)) (9 * (B * unit_error eps)) (1216 * B)
    ltac:(lra) ltac:(lra) ltac:(rewrite ?rnd_u_val; lra) ltac:(lra) ltac:(lra)
    (fun x y => (get M x y * fcos (dct_angle x u) * fcos (dct_angle y v))%float)
    (fun x y => block_value M x y * ideal_cos x u * ideal_cos y v)
    indices indices) as HI.
  specialize (HI ltac:(intros x y Hx Hy; apply dct_term_approx;
                       auto using In_indices)).
  specialize (HI 0%nat 0%float 0 (Inv_start _ _) ltac:(simpl; lia)).
  rewrite foldl2_sum8 in HI.
  destruct HI as (Hf & He & Hr).
  change (0 + length indices * length indices)%nat with 64%nat in He, Hr.
  replace (INR 64) with 64 in He, Hr by (simpl; lra).
  split; [ split; [ exact Hf | ] | ].
  - unfold real_dct_sum. fold (dct_sum fcos M u v) in He. lra.
  - unfold real_dct_sum. lra.
Qed.

(** One entry [0.25 * cu * cv * sum] of the forward transform. *)
Lemma dct_entry_approx (u v : nat) :
  (u < 8)%nat -> (v < 8)%nat ->
  approx (get (dct_transform fcos M) u v) (real_dct (block_value M) u v) (145 * (B * unit_error eps)) /\
  Rabs (real_dct (block_value M) u v) <= 16 * B.
Proof using Heps HB Hcos HM.
  intros Hu Hv.
  destruct budget as (H0 & Ht & Hz & Hzz & Heta & Hbig & Habs & Htwo).
  destruct (dct_sum_approx u v Hu Hv) as [ Hs Hsb ].
  unfold dct_transform.
  rewrite (get_map2 (fun u v => (0.25 * coef u * coef v * dct_sum fcos M u v)%float))
    by assumption.
  unfold real_dct.
  assert (Hq : Rabs (1 / 4) <= 1 / 4) by (rewrite Rabs_right; lra).
  assert (H1 : approx (0.25 * coef u) (1 / 4 * kappa u) (/ 4503599627370496)).
  { refine (approx_mul _ _ _ _ 0 (/ 9007199254740992) (1 / 4) 1 1 _
              quarter_approx (coef_approx u) Hq (kappa_bound u) _ _ _); (rewrite ?rnd_u_val; lra). }
  assert (Hb1 : Rabs (1 / 4 * kappa u) <= 1 / 4).
  { apply (Rabs_mul_le _ _ (1 / 4) 1); [ exact Hq | apply kappa_bound | lra ]. }
  assert (H2 : approx (0.25 * coef u * coef v) (1 / 4 * kappa u * kappa v)
                 (/ 2251799813685248)).
  { refine (approx_mul _ _ _ _ (/ 4503599627370496) (/ 9007199254740992) (1 / 4) 1 1 _
              H1 (coef_approx v) Hb1 (kappa_bound v) _ _ _); (rewrite ?rnd_u_val; lra). }
  assert (Hb2 : Rabs (1 / 4 * kappa u * kappa v) <= 1 / 4).
  { apply (Rabs_mul_le _ _ (1 / 4) 1); [ exact Hb1 | apply kappa_bound | lra ]. }
  split.
  - refine (approx_mul _ _ _ _ (/ 2251799813685248) (576 * (B * unit_error eps)) (1 / 4) (64 * B)
              (608 * B) _ H2 Hs Hb2 Hsb _ _ _); (rewrite ?rnd_u_val; lra).
  - apply (Rabs_mul_le _ _ (1 / 4) (64 * B)); [ exact Hb2 | exact Hsb | lra ].
Qed.

(** One term [cu * cv * block[u][v] * cos1 * cos2] of the inverse sum. *)
Lemma idct_term_approx (x y u v : nat) :
  (x < 8)%nat -> (y < 8)%nat -> (u < 8)%nat -> (v < 8)%nat ->
  approx (coef u * coef v * get (dct_transform fcos M) u v
          * fcos (dct_angle x u) * fcos (dct_angle y v))
         (kappa u * kappa v * real_dct (block_value M) u v * ideal_cos x u * ideal_cos y v)
         (1382 * (B * unit_error eps)) /\
  Rabs (kappa u * kappa v * real_dct (block_value M) u v * ideal_cos x u * ideal_cos y v) <= 16 * B.
Proof using Heps HB Hcos HM.
  intros Hx Hy Hu Hv.
  destruct budget as (H0 & Ht & Hz & Hzz & Heta & Hbig & Habs & Htwo).
  destruct (dct_entry_approx u v Hu Hv) as [ Hd Hdb ].
  pose proof (cos_approx x u Hx Hu) as Hc1.
  pose proof (cos_approx y v Hy Hv) as Hc2.
  pose proof (ideal_cos_bound x u) as Hi1.
  pose proof (ideal_cos_bound y v) as Hi2.
  assert (H1 : approx (coef u * coef v) (kappa u * kappa v) (/ 1125899906842624)).
  { refine (approx_mul _ _ _ _ (/ 9007199254740992) (/ 9007199254740992) 1 1 2 _
              (coef_approx u) (coef_approx v) (kappa_bound u) (kappa_bound v) _ _ _); (rewrite ?rnd_u_val; lra). }
  assert (Hb1 : Rabs (kappa u * kappa v) <= 1).
  { apply (Rabs_mul_le _ _ 1 1); [ apply kappa_bound | apply kappa_bound | lra ]. }
  assert (H2 : approx (coef u * coef v * get (dct_transform fcos M) u v)
                 (kappa u * kappa v * real_dct (block_value M) u v) (146 * (B * unit_error eps))).
  { refine (approx_mul _ _ _ _ (/ 1125899906842624) (145 * (B * unit_error eps)) 1 (16 * B)
              (612 * B) _ H1 Hd Hb1 Hdb _ _ _); (rewrite ?rnd_u_val; lra). }
  assert (Hb2 : Rabs (kappa u * kappa v * real_dct (block_value M) u v) <= 16 * B).
  { apply (Rabs_mul_le _ _ 1 (16 * B)); [ exact Hb1 | exact Hdb | lra ]. }
  assert (H3 : approx (coef u * coef v * get (dct_transform fcos M) u v
                       * fcos (dct_angle x u))
                 (kappa u * kappa v * real_dct (block_value M) u v * ideal_cos x u) (455 * (B * unit_error eps))).
  { refine (approx_mul _ _ _ _ (146 * (B * unit_error eps)) (unit_error eps) (16 * B) 1 (924 * B) _
              H2 Hc1 Hb2 Hi1 _ _ _); (rewrite ?rnd_u_val; lra). }
  assert (Hb3 : Rabs (kappa u * kappa v * real_dct (block_value M) u v * ideal_cos x u) <= 16 * B).
  { apply (Rabs_mul_le _ _ (16 * B) 1); [ exact Hb2 | exact Hi1 | lra ]. }
  split.
  - refine (approx_mul _ _ _ _ (455 * (B * unit_error eps)) (unit_error eps) (16 * B) 1 (2778 * B) _
              H3 Hc2 Hb3 Hi2 _ _ _); (rewrite ?rnd_u_val; lra).
  - apply (Rabs_mul_le _ _ (16 * B) 1); [ exact Hb3 | exact Hi2 | lra ].
Qed.

(** The inverse sum of 64 terms. *)
Lemma idct_sum_approx (x y : nat) :
  (x < 8)%nat -> (y < 8)%nat ->
  approx (idct_sum fcos (dct_transform fcos M) x y)
         (real_idct_sum (real_dct (block_value M)) x y) (89920 * (B * unit_error eps)) /\
  Rabs (real_idct_sum (real_dct (block_value M)) x y) <= 1024 * B.
Proof using Heps HB Hcos HM.
  intros Hx Hy.
  destruct budget as (H0 & Ht & Hz & Hzz & Heta & Hbig & Habs & Htwo).
  pose proof (Inv_fold2 (16 * B) (1382 * (B * unit_error eps)) (1405 * (B * unit_error eps)) (180864 * B)
    ltac:(lra) ltac:(lra) ltac:(rewrite ?rnd_u_val; lra) ltac:(lra) ltac:(lra)
    (fun u v => (coef u * coef v * get (dct_transform fcos M) u v
                 * fcos (dct_angle x u) * fcos (dct_angle y v))%float)
    (fun u v => kappa u * kappa v * real_dct (block_value M) u v * ideal_cos x u * ideal_cos y v)
    indices indices) as HI.
  specialize (HI ltac:(intros u v Hu Hv; apply idct_term_approx;
                       auto using In_indices)).
  specialize (HI 0%nat 0%float 0 (Inv_start _ _) ltac:(simpl; lia)).
  rewrite foldl2_sum8 in HI.
  destruct HI as (Hf & He & Hr).
  change (0 + length indices * length indices)%nat with 64%nat in He, Hr.
  replace (INR 64) with 64 in He, Hr by (simpl; lra).
  split; [ split; [ exact Hf | ] | ].
  - unfold real_idct_sum. fold (idct_sum fcos (dct_transform fcos M) x y) in He. lra.
  - unfold real_idct_sum. lra.
Qed.

(** The computed round trip against the block itself. *)
Lemma round_trip_approx (x y : nat) :
  (x < 8)%nat -> (y < 8)%nat ->
  approx (get (idct_transform fcos (dct_transform fcos M)) x y) (block_value M x y)
         (32768 * (B * unit_error eps)).
Proof using Heps HB Hcos HM.
  intros Hx Hy.
  destruct budget as (H0 & Ht & Hz & Hzz & Heta & Hbig & Habs & Htwo).
  destruct (idct_sum_approx x y Hx Hy) as [ Hs Hsb ].
  rewrite <- (real_round_trip (block_value M) x y Hx Hy).
  unfold idct_transform at 1.
  rewrite (get_map2 (fun x y =>
             (0.25 * idct_sum fcos (dct_transform fcos M) x y)%float)) by assumption.
  unfold real_idct.
  assert (Hq : Rabs (1 / 4) <= 1 / 4) by (rewrite Rabs_right; lra).
  refine (approx_mul _ _ _ _ 0 (89920 * (B * unit_error eps)) (1 / 4) (1024 * B) (45216 * B) _
            quarter_approx Hs Hq Hsb _ _ _); (rewrite ?rnd_u_val; lra).
Qed.
End RoundTrip.



End DCT_facts.
